(** * parca-agent: LRU cache with eviction callback, and the BPF statistics collector

    A shallow embedding of

    - [pkg/profiler/cpu/metrics.go]: the Prometheus collector that publishes
      BPF map figures and the native unwinder statistics (module [Stats]);
    - [pkg/cache/lru/lru_with_eviction.go]: the generic LRU cache
      [LRUWithEvict] (module [LRU]).

    Go's [container/list], Go maps and the Prometheus client are modelled by
    their documented behaviour. *)

From Stdlib Require Import ZArith Floats.SpecFloat.
From stdpp Require Import base option list gmap fin_maps strings.

(* ===================================================================== *)
(** * The statistics collector ([pkg/profiler/cpu/metrics.go])            *)
(* ===================================================================== *)

Module Stats.

(** Go's [float64], as an IEEE 754 binary64 value. *)
Definition float64 : Type := spec_float.

(** The conversion [float64(x)] of an unsigned integer: round to nearest,
    ties to even, with 53 bits of precision. *)
Definition float64_of_uint64 (x : Z) : float64 :=
  SpecFloat.binary_normalize 53 1024 x 0 false.

Definition error : Type := string.

(** [prometheus.Desc]: the fully qualified name, the help text and the names
    of the variable labels. *)
Record Desc := NewDesc {
  fqName : string;
  help : string;
  variableLabels : list string
}.

#[global] Instance Desc_eq_dec : EqDecision Desc.
Proof. solve_decision. Defined.

Inductive ValueType := CounterValue | GaugeValue | UntypedValue.

(** A constant metric, as built by [prometheus.NewConstMetric]. *)
Record Metric := mkMetric {
  desc : Desc;
  valType : ValueType;
  val : float64;
  labelValues : list string
}.

(** A continuation byte of UTF-8: [0x80..0xBF]. *)
Definition utf8_cont (b : N) : bool := ((128 <=? b) && (b <=? 191))%N.

(** Go's [utf8.Valid] on a sequence of bytes: one byte below [0x80], or a
    leading byte [0xC2..0xF4] followed by one to three continuation bytes;
    over-long forms, surrogates and code points above [U+10FFFF] are refused
    through the range of the second byte. *)
Fixpoint utf8_valid (bs : list N) : bool :=
  match bs with
  | [] => true
  | b0 :: r0 =>
      if (b0 <? 128)%N then utf8_valid r0
      else if ((194 <=? b0) && (b0 <=? 223))%N then
        match r0 with
        | b1 :: r1 => utf8_cont b1 && utf8_valid r1
        | _ => false
        end
      else if ((224 <=? b0) && (b0 <=? 239))%N then
        match r0 with
        | b1 :: b2 :: r2 =>
            ((if (b0 =? 224)%N then 160 else 128) <=? b1)%N
            && (b1 <=? (if (b0 =? 237)%N then 159 else 191))%N
            && utf8_cont b2 && utf8_valid r2
        | _ => false
        end
      else if ((240 <=? b0) && (b0 <=? 244))%N then
        match r0 with
        | b1 :: b2 :: b3 :: r3 =>
            ((if (b0 =? 240)%N then 144 else 128) <=? b1)%N
            && (b1 <=? (if (b0 =? 244)%N then 143 else 191))%N
            && utf8_cont b2 && utf8_cont b3 && utf8_valid r3
        | _ => false
        end
      else false
  end.

(** Go's [utf8.ValidString]; a Go string is its sequence of bytes. *)
Definition ValidString (s : string) : bool :=
  utf8_valid (Ascii.N_of_ascii <$> String.list_ascii_of_string s).

(** [prometheus.MustNewConstMetric]: panics ([None]) when the number of label
    values differs from the number of variable labels of the descriptor, or
    when a label value is not valid UTF-8. The descriptors of this file are
    built by [NewDesc] from well-formed names, so the error a descriptor may
    carry is nil for them. *)
Definition MustNewConstMetric (d : Desc) (t : ValueType) (v : float64)
    (lvs : list string) : option Metric :=
  if decide (length lvs = length (variableLabels d))
  then if forallb ValidString lvs
       then Some (mkMetric d t v lvs)
       else None
  else None.

Record bpfMetrics := mkBpfMetrics {
  mapName : string;
  bpfMapKeySize : float64;
  bpfMapValueSize : float64;
  bpfMaxEntry : float64;
  bpfMemlock : float64
}.

(** The record [unwinderStats] read from the BPF program; its declaration is
    in another file of the package, the fields are those [metrics.go] reads.
    Every field is an unsigned 64-bit counter. *)
Record unwinderStats := mkUnwinderStats {
  Total : Z;
  SuccessDwarf : Z;
  ErrorTruncated : Z;
  ErrorUnsupportedExpression : Z;
  ErrorFramePointerAction : Z;
  ErrorUnsupportedCfaRegister : Z;
  ErrorCatchall : Z;
  ErrorShouldNeverHappen : Z;
  ErrorPcNotCovered : Z;
  ErrorUnsupportedJit : Z
}.

(** The zero value [unwinderStats{}]. *)
Definition unwinderStats_zero : unwinderStats :=
  mkUnwinderStats 0 0 0 0 0 0 0 0 0 0.

(** One record written by [level.Error(logger).Log("msg", m, "error", e)]. *)
Record LogRecord := mkLog {
  log_level : string;
  log_msg : string;
  log_error : error
}.

(** [bpfMetricsCollector]. The methods [getBPFMetrics] and [readCounters] are
    defined in another file of the package: a collector is given here by what
    these two calls return during the collection cycle. [readCounters]
    returns the Go pair [(stats, err)]. *)
Record bpfMetricsCollector := mkCollector {
  getBPFMetrics : list bpfMetrics;
  readCounters : unwinderStats * option error
}.

Definition descBPFMemlock : Desc :=
  NewDesc "parca_agent_bpf_map_memlock" "Memlock value held by BPF map"
          ["bpf_map_name"].
Definition descBPFMapKeySize : Desc :=
  NewDesc "parca_agent_bpf_map_key_size" "Key size for BPF map"
          ["bpf_map_name"].
Definition descBPFMapValueSize : Desc :=
  NewDesc "parca_agent_bpf_map_value_size" "Value size BPF map"
          ["bpf_map_name"].
Definition descBPFMapMaxEntries : Desc :=
  NewDesc "parca_agent_bpf_map_max_entries" "Maximum entries in BPF map"
          ["bpf_map_name"].
Definition descNativeUnwinderTotalSamples : Desc :=
  NewDesc "parca_agent_native_unwinder_samples_total" "Total samples."
          ["unwinder"].
Definition descNativeUnwinderSuccess : Desc :=
  NewDesc "parca_agent_native_unwinder_success_total"
          "Samples that unwound successfully reaching the bottom frame."
          ["unwinder"].
Definition descNativeUnwinderErrors : Desc :=
  NewDesc "parca_agent_native_unwinder_error_total"
          "There was an error while unwinding the stack."
          ["reason"].

(** The state a collection cycle writes to: the metrics sent on the channel
    [ch], oldest first, and the records written to the logger. *)
Record Out := mkOut {
  ch : list Metric;
  logged : list LogRecord
}.

(** A computation of the collector: it panics ([None]) or returns a value and
    the new output state. *)
Definition M (A : Type) : Type := Out → option (A * Out).

#[global] Instance M_ret : MRet M := λ A a o, Some (a, o).
#[global] Instance M_bind : MBind M := λ A B f m o,
  match m o with
  | Some (a, o') => f a o'
  | None => None
  end.

(** [ch <- prometheus.MustNewConstMetric(d, t, v, lvs...)] *)
Definition send (d : Desc) (t : ValueType) (v : float64) (lvs : list string)
    : M unit :=
  λ o, match MustNewConstMetric d t v lvs with
       | Some m => Some (tt, mkOut (ch o ++ [m]) (logged o))
       | None => None
       end.

(** [level.Error(c.logger).Log("msg", m, "error", e)] *)
Definition log_Error (m : string) (e : error) : M unit :=
  λ o, Some (tt, mkOut (ch o) (logged o ++ [mkLog "error" m e])).

Fixpoint for_each {A} (body : A → M unit) (l : list A) : M unit :=
  match l with
  | [] => mret tt
  | a :: l' => body a ;; for_each body l'
  end.

Definition getUnwinderStats (c : bpfMetricsCollector) : M unwinderStats :=
  let '(stats, err) := readCounters c in
  match err with
  | Some e =>
      log_Error "readPerCpuCounter failed" e ;;
      mret unwinderStats_zero
  | None => mret stats
  end.

Definition collectUnwinderStatistics (c : bpfMetricsCollector) : M unit :=
  stats ← getUnwinderStats c;
  send descNativeUnwinderTotalSamples CounterValue
       (float64_of_uint64 (Total stats)) ["dwarf"] ;;
  send descNativeUnwinderSuccess CounterValue
       (float64_of_uint64 (SuccessDwarf stats)) ["dwarf"] ;;
  send descNativeUnwinderErrors CounterValue
       (float64_of_uint64 (ErrorTruncated stats)) ["truncated"] ;;
  send descNativeUnwinderErrors CounterValue
       (float64_of_uint64 (ErrorUnsupportedExpression stats))
       ["unsupported_expression"] ;;
  send descNativeUnwinderErrors CounterValue
       (float64_of_uint64 (ErrorFramePointerAction stats))
       ["frame_pointer_action"] ;;
  send descNativeUnwinderErrors CounterValue
       (float64_of_uint64 (ErrorUnsupportedCfaRegister stats))
       ["unsupported_cfa_register"] ;;
  send descNativeUnwinderErrors CounterValue
       (float64_of_uint64 (ErrorCatchall stats)) ["catchall"] ;;
  send descNativeUnwinderErrors CounterValue
       (float64_of_uint64 (ErrorShouldNeverHappen stats))
       ["should_never_happen"] ;;
  send descNativeUnwinderErrors CounterValue
       (float64_of_uint64 (ErrorPcNotCovered stats)) ["pc_not_covered"] ;;
  send descNativeUnwinderErrors CounterValue
       (float64_of_uint64 (ErrorUnsupportedJit stats)) ["unsupported_jit"].

Definition Collect (c : bpfMetricsCollector) : M unit :=
  for_each (λ b,
      send descBPFMemlock GaugeValue (bpfMemlock b) [mapName b] ;;
      send descBPFMapKeySize GaugeValue (bpfMapKeySize b) [mapName b] ;;
      send descBPFMapValueSize GaugeValue (bpfMapValueSize b) [mapName b] ;;
      send descBPFMapMaxEntries GaugeValue (bpfMaxEntry b) [mapName b])
    (getBPFMetrics c) ;;
  collectUnwinderStatistics c.

(** The measurements of the native-unwinder source among those sent. *)
Definition is_unwinder_desc (d : Desc) : Prop :=
  d = descNativeUnwinderTotalSamples ∨ d = descNativeUnwinderSuccess
  ∨ d = descNativeUnwinderErrors.

#[global] Instance is_unwinder_desc_dec d : Decision (is_unwinder_desc d).
Proof. unfold is_unwinder_desc. apply _. Defined.

Definition unwinder_measurements (ms : list Metric) : list Metric :=
  filter (λ m, is_unwinder_desc (desc m)) ms.

(** The four gauges sent for one BPF map. *)
Definition map_measurements (b : bpfMetrics) : list Metric :=
  [ mkMetric descBPFMemlock GaugeValue (bpfMemlock b) [mapName b];
    mkMetric descBPFMapKeySize GaugeValue (bpfMapKeySize b) [mapName b];
    mkMetric descBPFMapValueSize GaugeValue (bpfMapValueSize b) [mapName b];
    mkMetric descBPFMapMaxEntries GaugeValue (bpfMaxEntry b) [mapName b] ].

(** The ten counters sent for the native unwinder, from a statistics record. *)
Definition stats_measurements (s : unwinderStats) : list Metric :=
  [ mkMetric descNativeUnwinderTotalSamples CounterValue
             (float64_of_uint64 (Total s)) ["dwarf"];
    mkMetric descNativeUnwinderSuccess CounterValue
             (float64_of_uint64 (SuccessDwarf s)) ["dwarf"];
    mkMetric descNativeUnwinderErrors CounterValue
             (float64_of_uint64 (ErrorTruncated s)) ["truncated"];
    mkMetric descNativeUnwinderErrors CounterValue
             (float64_of_uint64 (ErrorUnsupportedExpression s))
             ["unsupported_expression"];
    mkMetric descNativeUnwinderErrors CounterValue
             (float64_of_uint64 (ErrorFramePointerAction s))
             ["frame_pointer_action"];
    mkMetric descNativeUnwinderErrors CounterValue
             (float64_of_uint64 (ErrorUnsupportedCfaRegister s))
             ["unsupported_cfa_register"];
    mkMetric descNativeUnwinderErrors CounterValue
             (float64_of_uint64 (ErrorCatchall s)) ["catchall"];
    mkMetric descNativeUnwinderErrors CounterValue
             (float64_of_uint64 (ErrorShouldNeverHappen s))
             ["should_never_happen"];
    mkMetric descNativeUnwinderErrors CounterValue
             (float64_of_uint64 (ErrorPcNotCovered s)) ["pc_not_covered"];
    mkMetric descNativeUnwinderErrors CounterValue
             (float64_of_uint64 (ErrorUnsupportedJit s)) ["unsupported_jit"] ].

(** A collector whose counter read fails and which knows one BPF map. *)
Definition failing_collector : bpfMetricsCollector :=
  mkCollector
    [ mkBpfMetrics "stack_traces" (float64_of_uint64 4)
                   (float64_of_uint64 1016) (float64_of_uint64 1024)
                   (float64_of_uint64 1048576) ]
    (mkUnwinderStats 7 5 1 0 0 0 1 0 0 0, Some "map not found").

Definition empty_out : Out := mkOut [] [].

(** A collection cycle that completes and sends nothing for the native
    unwinder. *)
Definition omits_unwinder (c : bpfMetricsCollector) (o : Out) : Prop :=
  ∃ o', Collect c o = Some (tt, o')
        ∧ unwinder_measurements (ch o') = unwinder_measurements (ch o).

(** [Describe]: the descriptors sent on the channel [ch], in order. *)
Definition Describe (ch : list Desc) : list Desc :=
  ch ++ [ descBPFMemlock; descBPFMapKeySize; descBPFMapValueSize;
          descBPFMapMaxEntries;
          descNativeUnwinderTotalSamples; descNativeUnwinderSuccess;
          descNativeUnwinderErrors ].

(** What identifies a metric within one scrape: the name of its descriptor
    and its label values. A registry refuses a scrape in which two metrics
    have the same identity. *)
Definition metric_id (m : Metric) : string * list string :=
  (fqName (desc m), labelValues m).

(** The BPF maps of the collector have names that are valid UTF-8. *)
Definition map_names_valid (c : bpfMetricsCollector) : Prop :=
  Forall (λ b, ValidString (mapName b) = true) (getBPFMetrics c).

(** A collector with a BPF map whose name is the single byte [0xFF]. *)
Definition bad_name_collector : bpfMetricsCollector :=
  mkCollector
    [ mkBpfMetrics "stack_traces" (float64_of_uint64 4)
                   (float64_of_uint64 1016) (float64_of_uint64 1024)
                   (float64_of_uint64 1048576);
      mkBpfMetrics (String (Ascii.ascii_of_N 255) EmptyString) (float64_of_uint64 8)
                   (float64_of_uint64 4096) (float64_of_uint64 64)
                   (float64_of_uint64 262144) ]
    (mkUnwinderStats 7 5 1 0 0 0 1 0 0 0, None).

(** A collector whose counter read succeeds and which knows two BPF maps. *)
Definition working_collector : bpfMetricsCollector :=
  mkCollector
    [ mkBpfMetrics "stack_traces" (float64_of_uint64 4)
                   (float64_of_uint64 1016) (float64_of_uint64 1024)
                   (float64_of_uint64 1048576);
      mkBpfMetrics "unwind_tables" (float64_of_uint64 8)
                   (float64_of_uint64 4096) (float64_of_uint64 64)
                   (float64_of_uint64 262144) ]
    (mkUnwinderStats 7 5 1 0 0 0 1 0 0 0, None).

End Stats.

(* ===================================================================== *)
(** * The LRU cache ([pkg/cache/lru/lru_with_eviction.go])                *)
(* ===================================================================== *)

Module LRU.

Definition error : Type := string.

(** The address of a [list.Element]. *)
Abbreviation ptr := nat (only parsing).

(** ** Go's [container/list]

    A list is the sequence of the addresses of its elements, front first. An
    element belongs to at most one place of one list, so the sequences that
    arise have no duplicates. *)
Module GoList.

Definition Len (l : list ptr) : Z := Z.of_nat (length l).

Definition Front (l : list ptr) : option ptr := head l.

(** [l.Back()]: the last element, or nil. *)
Definition Back (l : list ptr) : option ptr := last l.

(** [l.Remove(e)]: unlinks [e] when it is an element of [l]. *)
Definition Remove (e : ptr) (l : list ptr) : list ptr :=
  filter (λ x, x ≠ e) l.

(** [l.PushFront(v)] links a newly allocated element [e] at the front. *)
Definition PushFront (e : ptr) (l : list ptr) : list ptr := e :: l.

(** [l.MoveToFront(e)]: nothing happens when [e] is not an element of [l]
    or is already at the front. *)
Definition MoveToFront (e : ptr) (l : list ptr) : list ptr :=
  if decide (e ∈ l) then
    if decide (Front l = Some e) then l else e :: Remove e l
  else l.

(** [l.Init()] *)
Definition Init (l : list ptr) : list ptr := [].

End GoList.

(** ** Go maps

    The key type of a Go map is [comparable], and [==] on such a type need
    not be reflexive: a floating-point NaN, and every value that contains
    one, is not equal to itself. [self_equal k] is Go's [k == k]. Two keys
    that are equal to themselves are [==] exactly when they are the same
    value of [K]; a key that is not equal to itself is [==] to no key. [K]
    holds the keys that a map can hash and compare. That [K] is countable
    says that its values are finite data that can be told apart; it is what
    the finite maps below need and says nothing of [==]. *)
Class SelfEqual (K : Type) := self_equal : K → bool.

Section gomap.
Context {K : Type} `{Countable K} `{SelfEqual K} {A : Type}.

(** Go's [k1 == k2]. *)
Definition go_eq (k1 k2 : K) : Prop := self_equal k1 = true ∧ k1 = k2.

#[global] Instance go_eq_dec k1 k2 : Decision (go_eq k1 k2).
Proof. unfold go_eq. apply _. Defined.

(** A Go [map[K]A]. An entry whose key is equal to itself is found under its
    key: these are the [proper] entries. An entry whose key is not equal to
    itself is never found by a lookup, never replaced by an assignment and
    never removed by [delete], while [range] yields it and [len] counts it:
    these are the [loose] entries, in the order of their insertion. *)
Record gomap := mkMap {
  proper : gmap K A;
  loose : list (K * A)
}.

(** [m[k]] *)
#[global] Instance gomap_lookup : Lookup K A gomap := λ k m,
  if self_equal k then proper m !! k else None.

(** [m[k] = a] *)
#[global] Instance gomap_insert : Insert K A gomap := λ k a m,
  if self_equal k
  then mkMap (<[k := a]> (proper m)) (loose m)
  else mkMap (proper m) (loose m ++ [(k, a)]).

(** [delete(m, k)] *)
#[global] Instance gomap_delete : Delete K gomap := λ k m,
  if self_equal k then mkMap (delete k (proper m)) (loose m) else m.

(** [make(map[K]A)] *)
#[global] Instance gomap_empty : Empty gomap := mkMap ∅ [].

(** [len(m)] *)
#[global] Instance gomap_size : Size gomap := λ m,
  size (proper m) + length (loose m).

(** The entries of the map: what [range] yields, in some order. *)
Definition pairs (m : gomap) : list (K * A) :=
  map_to_list (proper m) ++ loose m.

(** The keys of the proper entries are equal to themselves, those of the
    loose entries are not: this holds of every map built from the empty one
    by assignments and deletions. *)
Definition map_ok (m : gomap) : Prop :=
  (∀ k a, proper m !! k = Some a → self_equal k = true)
  ∧ (∀ k a, (k, a) ∈ loose m → self_equal k = false).

End gomap.

Arguments gomap K {_ _} A.

Section cache.
Context {K : Type} `{Countable K} `{SelfEqual K} {V : Type} `{Inhabited V}
        {W R : Type}.

Record evictable := mkEvictable {
  key : K;
  value : V
}.

(** The counters of the cache ([metrics] in [metrics.go] of the package):
    each is the number of [Inc()] calls so far. *)
Record lruMetrics := mkMetrics {
  hits : nat;
  misses : nat;
  evictions : nat
}.

(** The cache, together with the memory it lives in.

    - [onEvicted] is a Go closure: its effect is a change of the
      surrounding world [W]; it does not touch the cache.
    - [closer] acts on the metric registry [R] and returns a Go [error]
      ([None] is nil).
    - [elements] holds the [Value] field of every [list.Element] allocated
      so far, [next_elem] is the address of the next allocation. *)
Record LRUWithEvict := mkLRU {
  metrics : lruMetrics;
  closer : option (R → option error * R);
  maxEntries : Z;
  onEvicted : option (K → V → W → W);
  evictList : list ptr;
  items : gomap K ptr;
  elements : gmap ptr evictable;
  next_elem : ptr;
  world : W;
  registry : R
}.

Definition set_metrics (f : lruMetrics → lruMetrics) (c : LRUWithEvict) :=
  mkLRU (f (metrics c)) (closer c) (maxEntries c) (onEvicted c)
        (evictList c) (items c) (elements c) (next_elem c) (world c)
        (registry c).
Definition set_evictList (f : list ptr → list ptr) (c : LRUWithEvict) :=
  mkLRU (metrics c) (closer c) (maxEntries c) (onEvicted c)
        (f (evictList c)) (items c) (elements c) (next_elem c) (world c)
        (registry c).
Definition set_items (f : gomap K ptr → gomap K ptr) (c : LRUWithEvict) :=
  mkLRU (metrics c) (closer c) (maxEntries c) (onEvicted c)
        (evictList c) (f (items c)) (elements c) (next_elem c) (world c)
        (registry c).
Definition set_elements (f : gmap ptr evictable → gmap ptr evictable)
    (c : LRUWithEvict) :=
  mkLRU (metrics c) (closer c) (maxEntries c) (onEvicted c)
        (evictList c) (items c) (f (elements c)) (next_elem c) (world c)
        (registry c).
Definition set_next_elem (f : ptr → ptr) (c : LRUWithEvict) :=
  mkLRU (metrics c) (closer c) (maxEntries c) (onEvicted c)
        (evictList c) (items c) (elements c) (f (next_elem c)) (world c)
        (registry c).
Definition set_world (f : W → W) (c : LRUWithEvict) :=
  mkLRU (metrics c) (closer c) (maxEntries c) (onEvicted c)
        (evictList c) (items c) (elements c) (next_elem c) (f (world c))
        (registry c).
Definition set_registry (f : R → R) (c : LRUWithEvict) :=
  mkLRU (metrics c) (closer c) (maxEntries c) (onEvicted c)
        (evictList c) (items c) (elements c) (next_elem c) (world c)
        (f (registry c)).

Definition inc_hits (m : lruMetrics) : lruMetrics :=
  mkMetrics (S (hits m)) (misses m) (evictions m).
Definition inc_misses (m : lruMetrics) : lruMetrics :=
  mkMetrics (hits m) (S (misses m)) (evictions m).
Definition inc_evictions (m : lruMetrics) : lruMetrics :=
  mkMetrics (hits m) (misses m) (S (evictions m)).

(** A method of the cache: it returns a result and the new state. [None]
    stands for a dereference of an element that was never allocated, which
    Go's memory safety excludes; [wf] below is the invariant under which it
    does not arise. *)
Definition M (A : Type) : Type := LRUWithEvict → option (A * LRUWithEvict).

(** [newMetrics] and [unregister] are in [metrics.go] of the package: the
    first registers the three counters, all zero, with the registry; the
    second is the closer of the cache. *)
Variable newMetrics : R → R.
Variable unregister : R → option error * R.

Definition NewWithEvict (reg : R) (maxEntries : Z)
    (onEvicted : option (K → V → W → W)) (w : W) : LRUWithEvict :=
  mkLRU (mkMetrics 0 0 0) (Some unregister) maxEntries onEvicted
        [] ∅ ∅ 0 w (newMetrics reg).

(** The effect on the world of [if cb != nil { cb(k, v) }]. *)
Definition invoke (cb : option (K → V → W → W)) (k : K) (v : V) : W → W :=
  match cb with
  | Some f => f k v
  | None => λ w, w
  end.

(** [if c.onEvicted != nil { c.onEvicted(k, v) }] *)
Definition call_onEvicted (k : K) (v : V) (c : LRUWithEvict) : LRUWithEvict :=
  set_world (invoke (onEvicted c) k v) c.

Definition removeElement (e : ptr) : M unit := λ c,
  let c := set_evictList (GoList.Remove e) c in
  match elements c !! e with
  | Some kv =>
      let c := set_items (delete (key kv)) c in
      let c := call_onEvicted (key kv) (value kv) c in
      Some (tt, set_metrics inc_evictions c)
  | None => None
  end.

Definition removeOldest : M unit := λ c,
  match GoList.Back (evictList c) with
  | Some e => removeElement e c
  | None => Some (tt, c)
  end.

(** [e := c.evictList.PushFront(evictable{k, v}); c.items[k] = e]: the new
    element is allocated at [next_elem c]. *)
Definition push_entry (k : K) (v : V) (c : LRUWithEvict) : LRUWithEvict :=
  let e := next_elem c in
  let c := set_next_elem S (set_elements <[e := mkEvictable k v]> c) in
  let c := set_evictList (GoList.PushFront e) c in
  set_items <[k := e]> c.

(** [c.maxEntries != 0 && c.evictList.Len() > c.maxEntries] *)
Definition over_capacity (c : LRUWithEvict) : bool :=
  bool_decide (maxEntries c ≠ 0%Z)
  && bool_decide (GoList.Len (evictList c) > maxEntries c)%Z.

Definition Add (k : K) (v : V) : M unit := λ c,
  match items c !! k with
  | Some e =>
      let c := set_evictList (GoList.MoveToFront e) c in
      Some (tt, set_elements <[e := mkEvictable k v]> c)
  | None =>
      let c := push_entry k v c in
      if over_capacity c then removeOldest c else Some (tt, c)
  end.

(** The result [(value, ok)]; a miss returns the zero value of [V]. *)
Definition Get (k : K) : M (V * bool) := λ c,
  match items c !! k with
  | Some e =>
      let c := set_evictList (GoList.MoveToFront e) c in
      let c := set_metrics inc_hits c in
      match elements c !! e with
      | Some kv => Some ((value kv, true), c)
      | None => None
      end
  | None => Some ((inhabitant, false), set_metrics inc_misses c)
  end.

Definition Peek (k : K) : M (V * bool) := λ c,
  match items c !! k with
  | Some e =>
      match elements c !! e with
      | Some kv => Some ((value kv, true), c)
      | None => None
      end
  | None => Some ((inhabitant, false), c)
  end.

Definition Remove (k : K) : M unit := λ c,
  match items c !! k with
  | Some e => removeElement e c
  | None => Some (tt, c)
  end.

(** The body of the loop of [Purge], for the key and the element of the
    entry [ke] that [range] yields. *)
Definition Purge_body (ke : K * ptr) : M unit := λ c,
  match onEvicted c with
  | Some f =>
      match elements c !! ke.2 with
      | Some kv =>
          Some (tt, set_items (delete ke.1)
                      (set_world (f ke.1 (value kv)) c))
      | None => None
      end
  | None => Some (tt, set_items (delete ke.1) c)
  end.

Fixpoint Purge_loop (kes : list (K * ptr)) : M unit := λ c,
  match kes with
  | [] => Some (tt, c)
  | ke :: kes' =>
      match Purge_body ke c with
      | Some (_, c') => Purge_loop kes' c'
      | None => None
      end
  end.

(** [Purge]. Go fixes no order for [range] over a map: [kes] are the entries
    of the map in the order in which this run of the loop yields them, see
    [range_order]. An entry is deleted only after it has been yielded, so
    the loop meets every entry the map had. *)
Definition Purge (kes : list (K * ptr)) : M unit := λ c,
  match Purge_loop kes c with
  | Some (_, c') => Some (tt, set_evictList GoList.Init c')
  | None => None
  end.

(** The orders in which [range c.items] may yield the entries: every entry
    of the map once. *)
Definition range_order (c : LRUWithEvict) (kes : list (K * ptr)) : Prop :=
  kes ≡ₚ pairs (items c).

(** One admissible order, for running [Purge]. *)
Definition some_range_order (c : LRUWithEvict) : list (K * ptr) :=
  pairs (items c).

Definition run_closer : M (option error) := λ c,
  match closer c with
  | Some f =>
      let '(err, r) := f (registry c) in
      Some (err, set_registry (λ _, r) c)
  | None => Some (None, c)
  end.

Definition Close (kes : list (K * ptr)) : M (option error) := λ c,
  match Purge kes c with
  | Some (_, c') => run_closer c'
  | None => None
  end.

(** ** Runs of the cache *)

Inductive op :=
| OpAdd (k : K) (v : V)
| OpGet (k : K)
| OpPeek (k : K)
| OpRemove (k : K)
| OpPurge (kes : list (K * ptr))
| OpClose (kes : list (K * ptr)).

(** The state after an operation, its result dropped. *)
Definition exec (o : op) (c : LRUWithEvict) : option LRUWithEvict :=
  match o with
  | OpAdd k v => snd <$> Add k v c
  | OpGet k => snd <$> Get k c
  | OpPeek k => snd <$> Peek k c
  | OpRemove k => snd <$> Remove k c
  | OpPurge kes => snd <$> Purge kes c
  | OpClose kes => snd <$> Close kes c
  end.

(** An operation the program can perform in state [c]: the order of a
    purge is one that [range] can produce. *)
Definition admissible (o : op) (c : LRUWithEvict) : Prop :=
  match o with
  | OpPurge kes | OpClose kes => range_order c kes
  | _ => True
  end.

Inductive step (c : LRUWithEvict) (o : op) (c' : LRUWithEvict) : Prop :=
| step_intro : admissible o c → exec o c = Some c' → step c o c'.

(** [run c os c']: performing the operations [os] in order leads from [c]
    to [c']. *)
Inductive run : LRUWithEvict → list op → LRUWithEvict → Prop :=
| run_nil c : run c [] c
| run_cons c o c' os c'' : step c o c' → run c' os c'' → run c (o :: os) c''.

(** Performing a list of operations, as a function. *)
Fixpoint exec_all (os : list op) (c : LRUWithEvict) : option LRUWithEvict :=
  match os with
  | [] => Some c
  | o :: os' =>
      match exec o c with
      | Some c' => exec_all os' c'
      | None => None
      end
  end.

(** ** The representation invariant and the abstract contents *)

(** The index and the recency list fit together: every element of the list
    is the value of an entry of the index under the key the element holds,
    every entry of the index leads to an element that holds its key, and a
    key that a lookup finds leads to an element of the list. A loose entry
    may outlive its element: [delete] does not remove it. Every state
    reached from [NewWithEvict] satisfies [wf] ([LRUProps.run_wf]). *)
Record wf (c : LRUWithEvict) : Prop := mk_wf {
  wf_NoDup : NoDup (evictList c);
  wf_map : map_ok (items c);
  wf_list : ∀ e, e ∈ evictList c →
    ∃ kv, elements c !! e = Some kv ∧ (key kv, e) ∈ pairs (items c);
  wf_pairs : ∀ k e, (k, e) ∈ pairs (items c) →
    ∃ v, elements c !! e = Some (mkEvictable k v);
  wf_items : ∀ k e, items c !! k = Some e → e ∈ evictList c;
  wf_alloc : ∀ e, is_Some (elements c !! e) → e < next_elem c
}.

(** Every key of the index is equal to itself: [k == k] for each [k] that
    [range c.items] yields. *)
Definition self_equal_keys (c : LRUWithEvict) : Prop :=
  ∀ k e, (k, e) ∈ pairs (items c) → self_equal k = true.

(** The live entries, most recently used first. *)
Definition entries (c : LRUWithEvict) : list evictable :=
  omap (λ e, elements c !! e) (evictList c).

(** The number of entries of the index, [len(c.items)]. *)
Definition live (c : LRUWithEvict) : nat := size (items c).

(** [c.items[k].Value], when [k] is in the index. *)
Definition value_of (c : LRUWithEvict) (k : K) : option evictable :=
  e ← items c !! k; elements c !! e.

(** The effect on the world of calling [cb] for each entry of [evs], in
    order. *)
Definition invoke_all (cb : option (K → V → W → W)) (evs : list evictable)
    (w : W) : W :=
  foldl (λ w kv, invoke cb (key kv) (value kv) w) w evs.

(** The entries [kes] of the index as [Purge] hands them to the callback,
    in order. *)
Definition purged (c : LRUWithEvict) (kes : list (K * ptr)) :
    list evictable :=
  omap (λ ke, elements c !! ke.2) kes.

(** The value cached for [k], if any. *)
Definition cached (c : LRUWithEvict) (k : K) : option V :=
  value <$> value_of c k.

(** The Go result [(value, ok)] of a lookup: a miss is the zero value of
    [V] and [false]. *)
Definition found (o : option V) : V * bool :=
  match o with
  | Some v => (v, true)
  | None => (inhabitant, false)
  end.

(** ** The cache as an association list

    The contents of a well-formed cache are its entries in recency order,
    the world the callback acts on and the counters. The functions below
    say what [Add], [Get] and [Remove] do to these; [LRUProps] proves that
    the methods above do exactly that. *)

Definition contents : Type := list evictable * W * lruMetrics.

Definition abs (c : LRUWithEvict) : contents :=
  (entries c, world c, metrics c).

(** The value of the first entry whose key is [==] to [k]. *)
Fixpoint assoc (k : K) (l : list evictable) : option V :=
  match l with
  | [] => None
  | kv :: l' =>
      if decide (go_eq (key kv) k) then Some (value kv) else assoc k l'
  end.

(** The entries whose key is not [==] to [k]. *)
Definition without (k : K) (l : list evictable) : list evictable :=
  filter (λ kv, ¬ go_eq (key kv) k) l.

Definition abs_Add (cap : Z) (cb : option (K → V → W → W)) (k : K) (v : V)
    (a : contents) : contents :=
  let '(l, w, m) := a in
  match assoc k l with
  | Some _ => (mkEvictable k v :: without k l, w, m)
  | None =>
      let l' := mkEvictable k v :: l in
      if bool_decide (cap ≠ 0%Z) && bool_decide (Z.of_nat (length l') > cap)%Z
      then match last l' with
           | Some kv =>
               (removelast l', invoke cb (key kv) (value kv) w,
                inc_evictions m)
           | None => (l', w, m)
           end
      else (l', w, m)
  end.

Definition abs_Get (k : K) (a : contents) : (V * bool) * contents :=
  let '(l, w, m) := a in
  match assoc k l with
  | Some v => ((v, true), (mkEvictable k v :: without k l, w, inc_hits m))
  | None => ((inhabitant, false), (l, w, inc_misses m))
  end.

Definition abs_Remove (cb : option (K → V → W → W)) (k : K)
    (a : contents) : contents :=
  match assoc k (a.1.1) with
  | Some v =>
      (without k (a.1.1), invoke cb k v (a.1.2), inc_evictions (a.2))
  | None => a
  end.

(** The operations that take no order of iteration. *)
Definition simple (o : op) : Prop :=
  match o with
  | OpPurge _ | OpClose _ => False
  | _ => True
  end.

Definition abs_exec (cap : Z) (cb : option (K → V → W → W)) (o : op)
    (a : contents) : contents :=
  match o with
  | OpAdd k v => abs_Add cap cb k v a
  | OpGet k => (abs_Get k a).2
  | OpRemove k => abs_Remove cb k a
  | _ => a
  end.

Definition abs_exec_all (cap : Z) (cb : option (K → V → W → W))
    (os : list op) (a : contents) : contents :=
  foldl (λ a o, abs_exec cap cb o a) a os.

(** [Add] of each pair of a list, in order. *)
Definition adds (kvs : list (K * V)) : list op :=
  (λ kv, OpAdd kv.1 kv.2) <$> kvs.

Definition to_entry (kv : K * V) : evictable := mkEvictable kv.1 kv.2.

(** What is fixed when the cache is built. *)
Definition config (c : LRUWithEvict) :
    Z * option (K → V → W → W) * option (R → option error * R) :=
  (maxEntries c, onEvicted c, closer c).

End cache.

Arguments evictable : clear implicits.
Arguments LRUWithEvict K {_ _} V W R.
Arguments M K {_ _} V W R A.
Arguments op : clear implicits.

(** ** A concrete cache

    Keys and values are numbers; every number is equal to itself. The
    callback records its calls, oldest first, so the world is the list of
    the calls made. The registry is the number of registered metric sets;
    unregistering when none is registered is an error. *)

#[global] Instance nat_self_equal : SelfEqual nat := λ _, true.

Definition record_call {K : Type} (k : K) (v : nat) (w : list (K * nat)) :
    list (K * nat) :=
  w ++ [(k, v)].

Definition register_metrics (r : nat) : nat := S r.

Definition unregister_metrics (r : nat) : option error * nat :=
  match r with
  | 0 => (Some "metrics are not registered", 0)
  | S r' => (None, r')
  end.

Definition new_cache (maxEntries : Z) :
    LRUWithEvict nat nat (list (nat * nat)) nat :=
  NewWithEvict register_metrics unregister_metrics 0 maxEntries
               (Some record_call) [].

(** The cache of capacity 2 after [Add(1, 10); Add(2, 20)]. *)
Definition two_entries : LRUWithEvict nat nat (list (nat * nat)) nat :=
  mkLRU (mkMetrics 0 0 0) (Some unregister_metrics) 2 (Some record_call)
        [1; 0] (mkMap {[ 1 := 0; 2 := 1 ]} [])
        {[ 0 := mkEvictable 1 10; 1 := mkEvictable 2 20 ]} 2 [] 1.

(** ** A cache whose keys include a NaN

    The keys of a [map[float64]V], as far as the map tells them apart: a
    number, or a NaN, which is not equal to itself. *)

Inductive fkey :=
| FNum (n : Z)
| FNaN.

#[global] Instance fkey_eq_dec : EqDecision fkey.
Proof. solve_decision. Defined.

#[global] Instance fkey_countable : Countable fkey :=
  inj_countable'
    (λ k, match k with FNum n => Some n | FNaN => None end)
    (λ o, match o with Some n => FNum n | None => FNaN end)
    (λ k, match k with FNum _ => eq_refl | FNaN => eq_refl end).

#[global] Instance fkey_self_equal : SelfEqual fkey := λ k,
  match k with
  | FNum _ => true
  | FNaN => false
  end.

Definition new_fcache (maxEntries : Z) :
    LRUWithEvict fkey nat (list (fkey * nat)) nat :=
  NewWithEvict register_metrics unregister_metrics 0 maxEntries
               (Some record_call) [].

(** The cache of capacity 2 after [Add(NaN, 10); Add(2, 20)]. *)
Definition nan_and_two : LRUWithEvict fkey nat (list (fkey * nat)) nat :=
  mkLRU (mkMetrics 0 0 0) (Some unregister_metrics) 2 (Some record_call)
        [1; 0] (mkMap {[ FNum 2 := 1 ]} [(FNaN, 0)])
        {[ 0 := mkEvictable FNaN 10; 1 := mkEvictable (FNum 2) 20 ]} 2 [] 1.

(** The number of [Get] calls among the operations [os]. *)
Fixpoint count_gets {K V : Type} (os : list (op K V)) : nat :=
  match os with
  | [] => 0
  | OpGet _ :: os' => S (count_gets os')
  | _ :: os' => count_gets os'
  end.

(** The keys that the operations [os] add. *)
Fixpoint added_keys {K V : Type} (os : list (op K V)) : list K :=
  match os with
  | [] => []
  | OpAdd k _ :: os' => k :: added_keys os'
  | _ :: os' => added_keys os'
  end.

(** The operations that never ask for an entry to be removed. *)
Definition keeps_entries {K V : Type} (o : op K V) : Prop :=
  match o with
  | OpAdd _ _ | OpGet _ | OpPeek _ => True
  | _ => False
  end.

End LRU.

(* ===================================================================== *)
(** * Properties of the statistics collector                              *)
(* ===================================================================== *)

Module StatsProps.
Import Stats.

Lemma bind_Some {A B} (m : M A) (f : A → M B) o a o' :
  m o = Some (a, o') → (m ≫= f) o = f a o'.
Proof. intros Hm. unfold mbind, M_bind. by rewrite Hm. Qed.

Lemma send_ok d t v lv o :
  length [lv] = length (variableLabels d) → ValidString lv = true →
  send d t v [lv] o = Some (tt, mkOut (ch o ++ [mkMetric d t v [lv]]) (logged o)).
Proof.
  intros Hlen Hvalid. unfold send, MustNewConstMetric.
  rewrite decide_True by done. simpl. by rewrite Hvalid.
Qed.

(** A label value that is not valid UTF-8 makes the send panic. *)
Lemma send_invalid d t v lv o :
  ValidString lv = false → send d t v [lv] o = None.
Proof.
  intros Hbad. unfold send, MustNewConstMetric.
  case_decide; [|done]. simpl. by rewrite Hbad.
Qed.

(** The loop over the BPF maps sends the four gauges of each map, in order,
    and never panics. *)
Lemma Collect_maps_loop (bs : list bpfMetrics) o :
  Forall (λ b, ValidString (mapName b) = true) bs →
  for_each (λ b,
      send descBPFMemlock GaugeValue (bpfMemlock b) [mapName b] ;;
      send descBPFMapKeySize GaugeValue (bpfMapKeySize b) [mapName b] ;;
      send descBPFMapValueSize GaugeValue (bpfMapValueSize b) [mapName b] ;;
      send descBPFMapMaxEntries GaugeValue (bpfMaxEntry b) [mapName b]) bs o
  = Some (tt, mkOut (ch o ++ flat_map map_measurements bs) (logged o)).
Proof.
  intros Hvalid. revert o.
  induction Hvalid as [|b bs Hb _ IH]; intros [c l]; simpl.
  - by rewrite app_nil_r.
  - erewrite bind_Some; last first.
    { repeat (erewrite bind_Some; [|by apply send_ok]). by apply send_ok. }
    rewrite IH. simpl. by rewrite <- !app_assoc.
Qed.

(** The loop panics at the first BPF map whose name is not valid UTF-8. *)
Lemma Collect_maps_loop_panics (bs : list bpfMetrics) o :
  ¬ Forall (λ b, ValidString (mapName b) = true) bs →
  for_each (λ b,
      send descBPFMemlock GaugeValue (bpfMemlock b) [mapName b] ;;
      send descBPFMapKeySize GaugeValue (bpfMapKeySize b) [mapName b] ;;
      send descBPFMapValueSize GaugeValue (bpfMapValueSize b) [mapName b] ;;
      send descBPFMapMaxEntries GaugeValue (bpfMaxEntry b) [mapName b]) bs o
  = None.
Proof.
  revert o. induction bs as [|b bs IH]; intros o Hbad.
  - destruct Hbad. constructor.
  - simpl. destruct (ValidString (mapName b)) eqn:Hb.
    + erewrite bind_Some; last first.
      { repeat (erewrite bind_Some; [|by apply send_ok]). by apply send_ok. }
      apply IH. intros Hbs. apply Hbad. by constructor.
    + unfold mbind, M_bind. by rewrite send_invalid.
Qed.

Lemma collectUnwinderStatistics_sends c o stats o1 :
  getUnwinderStats c o = Some (stats, o1) →
  collectUnwinderStatistics c o
  = Some (tt, mkOut (ch o1 ++ stats_measurements stats) (logged o1)).
Proof.
  intros Hget. unfold collectUnwinderStatistics.
  erewrite bind_Some; [|exact Hget].
  repeat (erewrite bind_Some; [|by apply send_ok]).
  rewrite send_ok by done. simpl. by rewrite <- !app_assoc.
Qed.

Lemma unwinder_measurements_app ms1 ms2 :
  unwinder_measurements (ms1 ++ ms2)
  = unwinder_measurements ms1 ++ unwinder_measurements ms2.
Proof. apply filter_app. Qed.

Lemma unwinder_measurements_maps bs :
  unwinder_measurements (flat_map map_measurements bs) = [].
Proof.
  induction bs as [|b bs IH]; [done|].
  simpl. unfold unwinder_measurements in *.
  rewrite !filter_cons. rewrite IH.
  repeat (rewrite decide_False;
          [|unfold is_unwinder_desc; simpl; intros [?|[?|?]]; discriminate]).
  done.
Qed.

Lemma unwinder_measurements_stats s :
  unwinder_measurements (stats_measurements s) = stats_measurements s.
Proof. reflexivity. Qed.

(** C1 (as amended). When [readCounters] fails and the names of the BPF
    maps are valid UTF-8, [Collect] completes (it does not panic and has no
    error to return), writes one error record to the log, and after the
    gauges of the BPF maps it still sends the ten native-unwinder counters,
    computed from the zero statistics record: each has the value
    [float64(0)]. *)
Theorem C1_Collect_read_failure_sends_zeros
    (c : bpfMetricsCollector) (o : Out) (stats : unwinderStats) (e : error) :
  map_names_valid c →
  readCounters c = (stats, Some e) →
  ∃ o', Collect c o = Some (tt, o')
    ∧ logged o' = logged o ++ [mkLog "error" "readPerCpuCounter failed" e]
    ∧ ch o' = ch o ++ flat_map map_measurements (getBPFMetrics c)
                   ++ stats_measurements unwinderStats_zero
    ∧ unwinder_measurements (ch o')
      = unwinder_measurements (ch o) ++ stats_measurements unwinderStats_zero
    ∧ length (stats_measurements unwinderStats_zero) = 10
    ∧ Forall (λ m, val m = S754_zero false)
             (stats_measurements unwinderStats_zero).
Proof.
  intros Hnames Hread. eexists. split.
  { unfold Collect. erewrite bind_Some; [|by apply Collect_maps_loop].
    apply collectUnwinderStatistics_sends.
    unfold getUnwinderStats. rewrite Hread. reflexivity. }
  simpl. split_and!.
  - done.
  - by rewrite <- app_assoc.
  - rewrite !unwinder_measurements_app, unwinder_measurements_maps.
    by rewrite app_nil_r.
  - done.
  - repeat constructor.
Qed.

Lemma C1_Collect_read_failure_sends_zeros_witness :
  readCounters failing_collector
  = (mkUnwinderStats 7 5 1 0 0 0 1 0 0 0, Some "map not found")
  ∧ ∃ o', Collect failing_collector empty_out = Some (tt, o')
      ∧ logged o' = [mkLog "error" "readPerCpuCounter failed" "map not found"]
      ∧ length (unwinder_measurements (ch o')) = 10.
Proof.
  split; [reflexivity|].
  destruct (C1_Collect_read_failure_sends_zeros failing_collector empty_out
              (mkUnwinderStats 7 5 1 0 0 0 1 0 0 0) "map not found")
    as (o' & Hrun & Hlog & _ & Hunw & Hlen & _).
  - repeat constructor.
  - reflexivity.
  - exists o'. split; [exact Hrun|]. split; [exact Hlog|].
    rewrite Hunw. exact Hlen.
Defined.

(** C1 (as stated) fails: with a failing counter read, the cycle of
    [failing_collector] sends measurements for the native unwinder. *)
Lemma C1_counterexample :
  (readCounters failing_collector).2 = Some "map not found"
  ∧ ¬ omits_unwinder failing_collector empty_out.
Proof.
  split; [reflexivity|].
  intros (o' & Hrun & Hnone).
  vm_compute in Hrun. injection Hrun as <-.
  vm_compute in Hnone. discriminate Hnone.
Qed.

End StatsProps.

(* ===================================================================== *)
(** * Properties of the LRU cache                                         *)
(* ===================================================================== *)

Module LRUProps.
Import LRU.

(** ** Lists of element addresses *)
Section golist.
Implicit Types (e x : nat) (l : list nat).

Lemma elem_of_Remove x e l : x ∈ GoList.Remove e l ↔ x ∈ l ∧ x ≠ e.
Proof. unfold GoList.Remove. rewrite list_elem_of_filter. tauto. Qed.

Lemma NoDup_Remove e l : NoDup l → NoDup (GoList.Remove e l).
Proof. apply NoDup_filter. Qed.

Lemma Remove_not_elem e l : e ∉ l → GoList.Remove e l = l.
Proof.
  unfold GoList.Remove. induction l as [|x l IH]; [done|].
  intros [Hne Hnotin]%not_elem_of_cons.
  rewrite filter_cons_True by congruence. by rewrite IH.
Qed.

Lemma length_Remove e l :
  NoDup l → e ∈ l → S (length (GoList.Remove e l)) = length l.
Proof.
  unfold GoList.Remove. induction l as [|x l IH]; intros Hnd Hin.
  - by apply elem_of_nil in Hin.
  - apply NoDup_cons in Hnd as [Hx Hnd].
    destruct (decide (x = e)) as [->|Hne].
    + rewrite filter_cons_False by (intros Hc; by apply Hc).
      fold (GoList.Remove e l). by rewrite Remove_not_elem.
    + rewrite filter_cons_True by done. simpl. f_equal.
      apply IH; [done|]. apply elem_of_cons in Hin as [->|Hin]; done.
Qed.

Lemma MoveToFront_elem e l :
  NoDup l → e ∈ l → GoList.MoveToFront e l = e :: GoList.Remove e l.
Proof.
  intros Hnd Hin. unfold GoList.MoveToFront, GoList.Front.
  rewrite decide_True by done.
  case_decide as Hhd; [|done].
  apply head_Some in Hhd as [l' ->].
  apply NoDup_cons in Hnd as [Hnot _].
  unfold GoList.Remove. rewrite filter_cons_False by (intros Hc; by apply Hc).
  fold (GoList.Remove e l'). by rewrite Remove_not_elem.
Qed.

Lemma Back_elem e l : GoList.Back l = Some e → e ∈ l.
Proof. apply last_Some_elem_of. Qed.

Lemma Back_None l : GoList.Back l = None → l = [].
Proof. apply last_None. Qed.

Lemma Remove_Back e l :
  NoDup l → GoList.Back l = Some e → GoList.Remove e l = removelast l.
Proof.
  intros Hnd [l' ->]%last_Some. rewrite removelast_last.
  apply NoDup_app in Hnd as (_ & Hdisj & _).
  unfold GoList.Remove. rewrite filter_app, filter_cons_False, filter_nil, app_nil_r
    by (intros Hc; by apply Hc).
  fold (GoList.Remove e l'). apply Remove_not_elem.
  intros Hin. apply (Hdisj e Hin). left.
Qed.

Lemma length_MoveToFront e l :
  NoDup l → length (GoList.MoveToFront e l) = length l.
Proof.
  intros Hnd. destruct (decide (e ∈ l)) as [Hin|Hin].
  - rewrite MoveToFront_elem by done. simpl. by apply length_Remove.
  - unfold GoList.MoveToFront. by rewrite decide_False.
Qed.
End golist.

(** ** Lists read through a partial map *)
Section omap_lemmas.
Context {A B : Type} (f : A → option B).

Lemma omap_ext_elem (g : A → option B) (l : list A) :
  (∀ x, x ∈ l → f x = g x) → omap f l = omap g l.
Proof.
  induction l as [|x l IH]; intros Hfg; [done|]. csimpl.
  rewrite Hfg by left. rewrite IH; [done|].
  intros y Hy. apply Hfg. by right.
Qed.

Lemma omap_filter_related (P : A → Prop) `{∀ x, Decision (P x)}
    (Q : B → Prop) `{∀ y, Decision (Q y)} (l : list A) :
  (∀ x, x ∈ l → ∃ y, f x = Some y ∧ (P x ↔ Q y)) →
  omap f (filter P l) = filter Q (omap f l).
Proof.
  induction l as [|x l IH]; intros Hrel; [done|].
  destruct (Hrel x) as (y & Hy & HPQ); [left|].
  assert (omap f (filter P l) = filter Q (omap f l)) as IH'.
  { apply IH. intros z Hz. apply Hrel. by right. }
  csimpl. rewrite Hy. destruct (decide (P x)) as [HP|HP].
  - rewrite filter_cons_True by done.
    rewrite filter_cons_True by tauto. csimpl. by rewrite Hy, IH'.
  - rewrite filter_cons_False by done.
    rewrite filter_cons_False by tauto. done.
Qed.

Lemma omap_length_total (l : list A) :
  (∀ x, x ∈ l → is_Some (f x)) → length (omap f l) = length l.
Proof.
  induction l as [|x l IH]; intros Htot; [done|].
  destruct (Htot x) as [y Hy]; [left|]. csimpl. rewrite Hy. simpl.
  f_equal. apply IH. intros z Hz. apply Htot. by right.
Qed.

Lemma omap_last_total (l : list A) x y :
  last l = Some x → f x = Some y → last (omap f l) = Some y.
Proof.
  intros [l' ->]%last_Some Hy. rewrite omap_app. csimpl. rewrite Hy.
  apply last_snoc.
Qed.

Lemma omap_removelast_total (l : list A) :
  (∀ x, x ∈ l → is_Some (f x)) →
  omap f (removelast l) = removelast (omap f l).
Proof.
  intros Htot. destruct l as [|x l _] using rev_ind; [done|].
  destruct (Htot x) as [y Hy]; [apply elem_of_app; right; left|].
  rewrite removelast_last, omap_app. csimpl. rewrite Hy.
  by rewrite removelast_last.
Qed.
End omap_lemmas.

(** ** Go maps *)
Section gomap_lemmas.
Context {K : Type} `{Countable K} `{SelfEqual K} {A : Type}.
Implicit Types (m : gomap K A) (k : K) (a : A).

Lemma gm_lookup_self k m a : m !! k = Some a → self_equal k = true.
Proof.
  unfold lookup, gomap_lookup. by destruct (self_equal k).
Qed.

Lemma gm_lookup_proper k m :
  self_equal k = true → m !! k = proper m !! k.
Proof. intros Hk. unfold lookup at 1, gomap_lookup. by rewrite Hk. Qed.

Lemma gm_lookup_not_self k m : self_equal k = false → m !! k = None.
Proof. intros Hk. unfold lookup, gomap_lookup. by rewrite Hk. Qed.

Lemma gm_lookup_empty k : (∅ : gomap K A) !! k = None.
Proof.
  unfold lookup, gomap_lookup. destruct (self_equal k); [|done].
  apply lookup_empty.
Qed.

Lemma gm_lookup_insert_eq k a m :
  self_equal k = true → <[k := a]> m !! k = Some a.
Proof.
  intros Hk. unfold lookup, insert, gomap_lookup, gomap_insert.
  rewrite Hk. simpl. apply lookup_insert_eq.
Qed.

Lemma gm_lookup_insert_ne k k' a m :
  k ≠ k' → <[k := a]> m !! k' = m !! k'.
Proof.
  intros Hne. unfold lookup, insert, gomap_lookup, gomap_insert.
  destruct (self_equal k'); [|done].
  destruct (self_equal k); simpl; [|done]. by apply lookup_insert_ne.
Qed.

Lemma gm_lookup_insert_loose k k' a m :
  self_equal k = false → <[k := a]> m !! k' = m !! k'.
Proof.
  intros Hk. unfold lookup, insert, gomap_lookup, gomap_insert.
  by rewrite Hk.
Qed.

Lemma gm_lookup_insert_Some k k' a a' m :
  <[k := a]> m !! k' = Some a' →
  (k' = k ∧ a' = a ∧ self_equal k = true) ∨ (k' ≠ k ∧ m !! k' = Some a').
Proof.
  intros Hl. destruct (decide (k' = k)) as [->|Hne].
  - left. pose proof (gm_lookup_self _ _ _ Hl) as Hk.
    rewrite gm_lookup_insert_eq in Hl by done. by injection Hl as ->.
  - right. by rewrite gm_lookup_insert_ne in Hl.
Qed.

Lemma gm_lookup_delete_eq k m : delete k m !! k = None.
Proof.
  unfold lookup, delete, gomap_lookup, gomap_delete.
  destruct (self_equal k); [|done]. simpl. apply lookup_delete_eq.
Qed.

Lemma gm_lookup_delete_ne k k' m : k ≠ k' → delete k m !! k' = m !! k'.
Proof.
  intros Hne. unfold lookup, delete, gomap_lookup, gomap_delete.
  destruct (self_equal k'); [|by destruct (self_equal k)].
  destruct (self_equal k); simpl; [|done]. by apply lookup_delete_ne.
Qed.

Lemma gm_delete_not_self k m : self_equal k = false → delete k m = m.
Proof. intros Hk. unfold delete, gomap_delete. by rewrite Hk. Qed.

(** Deleting a key that is not found changes nothing. *)
Lemma gm_delete_notin k m : m !! k = None → delete k m = m.
Proof.
  unfold lookup, delete, gomap_lookup, gomap_delete.
  destruct (self_equal k); [|done]. intros Hk.
  destruct m as [p l]. simpl in *. f_equal. by apply delete_id.
Qed.

Lemma gm_loose_delete k m : loose (delete k m) = loose m.
Proof. unfold delete, gomap_delete. by destruct (self_equal k). Qed.

Lemma gm_loose_insert k a m :
  loose (<[k := a]> m)
  = if self_equal k then loose m else loose m ++ [(k, a)].
Proof. unfold insert, gomap_insert. by destruct (self_equal k). Qed.

Lemma elem_of_pairs k a m :
  (k, a) ∈ pairs m ↔ proper m !! k = Some a ∨ (k, a) ∈ loose m.
Proof. unfold pairs. by rewrite elem_of_app, elem_of_map_to_list. Qed.

Lemma pairs_empty : pairs (∅ : gomap K A) = [].
Proof. unfold pairs. simpl. by rewrite map_to_list_empty. Qed.

Lemma gm_size_pairs m : size m = length (pairs m).
Proof.
  unfold size, gomap_size, pairs.
  by rewrite length_app, length_map_to_list.
Qed.

Lemma map_ok_empty : map_ok (∅ : gomap K A).
Proof.
  split; simpl.
  - intros k a Hk. by rewrite lookup_empty in Hk.
  - intros k a Hk. by apply elem_of_nil in Hk.
Qed.

Lemma map_ok_insert k a m : map_ok m → map_ok (<[k := a]> m).
Proof.
  intros [Hp Hl]. unfold insert, gomap_insert.
  destruct (self_equal k) eqn:Hk; split; simpl; try done.
  - intros k' a' Hk'. destruct (decide (k = k')) as [<-|Hne]; [done|].
    rewrite lookup_insert_ne in Hk' by done. by eapply Hp.
  - intros k' a' [Hin|Hin]%elem_of_app; [by eapply Hl|].
    apply list_elem_of_singleton in Hin. by injection Hin as -> ->.
Qed.

Lemma map_ok_delete k m : map_ok m → map_ok (delete k m).
Proof.
  intros [Hp Hl]. unfold delete, gomap_delete.
  destruct (self_equal k) eqn:Hk; split; simpl; try done.
  intros k' a' Hk'. destruct (decide (k = k')) as [<-|Hne]; [done|].
  rewrite lookup_delete_ne in Hk' by done. by eapply Hp.
Qed.

(** A lookup finds the entries whose key is equal to itself. *)
Lemma gm_lookup_pairs k a m :
  map_ok m → m !! k = Some a ↔ self_equal k = true ∧ (k, a) ∈ pairs m.
Proof.
  intros [Hp Hl]. rewrite elem_of_pairs. split.
  - intros Hk. pose proof (gm_lookup_self _ _ _ Hk) as Hs.
    rewrite gm_lookup_proper in Hk by done. by split; [|left].
  - intros [Hs [Hk|Hk]].
    + by rewrite gm_lookup_proper.
    + apply Hl in Hk. congruence.
Qed.

Lemma elem_of_pairs_insert k a k' a' m :
  map_ok m →
  (k', a') ∈ pairs (<[k := a]> m) ↔
  (k' = k ∧ a' = a) ∨ ((k', a') ∈ pairs m ∧ ¬ go_eq k k').
Proof.
  intros [Hp Hl]. rewrite !elem_of_pairs. unfold go_eq, insert, gomap_insert.
  destruct (self_equal k) eqn:Hk; simpl.
  - destruct (decide (k = k')) as [<-|Hne].
    + rewrite lookup_insert_eq. split.
      * intros [[= <-]|Hin]; [by left|]. apply Hl in Hin. congruence.
      * intros [[_ ->]|[_ Hn]]; [by left|]. by destruct Hn.
    + rewrite lookup_insert_ne by done. split.
      * intros Hin. right. split; [done|]. by intros [_ ?].
      * intros [[-> _]|[Hin _]]; done.
  - rewrite elem_of_app, list_elem_of_singleton. split.
    + intros [Hin|[Hin|[= -> ->]]].
      * right. split; [by left|]. by intros [? _].
      * right. split; [by right|]. by intros [? _].
      * by left.
    + intros [[-> ->]|[[Hin|Hin] _]]; [by right; right|by left|by right; left].
Qed.

Lemma elem_of_pairs_delete k k' a' m :
  map_ok m →
  (k', a') ∈ pairs (delete k m) ↔ (k', a') ∈ pairs m ∧ ¬ go_eq k k'.
Proof.
  intros [Hp Hl]. rewrite !elem_of_pairs. unfold go_eq, delete, gomap_delete.
  destruct (self_equal k) eqn:Hk; simpl.
  - destruct (decide (k = k')) as [<-|Hne].
    + rewrite lookup_delete_eq. split.
      * intros [?|Hin]; [done|]. apply Hl in Hin. congruence.
      * intros [_ Hn]. by destruct Hn.
    + rewrite lookup_delete_ne by done. split.
      * intros Hin. split; [done|]. by intros [_ ?].
      * by intros [Hin _].
  - split; [|by intros [? _]]. intros Hin. split; [done|]. by intros [? _].
Qed.

Lemma gm_size_insert_None k a m :
  m !! k = None → size (<[k := a]> m) = S (size m).
Proof.
  unfold lookup, size, insert, gomap_lookup, gomap_size, gomap_insert.
  destruct (self_equal k); simpl.
  - intros Hk. by rewrite map_size_insert_None.
  - intros _. rewrite length_app. simpl. lia.
Qed.

Lemma gm_size_delete_Some k a m :
  m !! k = Some a → S (size (delete k m)) = size m.
Proof.
  intros Hk. pose proof (gm_lookup_self _ _ _ Hk) as Hs.
  rewrite gm_lookup_proper in Hk by done.
  unfold size, delete, gomap_size, gomap_delete. rewrite Hs. simpl.
  rewrite map_size_delete_Some by by eexists.
  assert (size (proper m) ≠ 0); [|lia].
  intros Hempty%map_size_empty_inv. rewrite Hempty in Hk.
  by rewrite lookup_empty in Hk.
Qed.

End gomap_lemmas.

(** ** Association lists under Go's [==] *)
Section association_lists.
Context {K : Type} `{Countable K} `{SelfEqual K} {V : Type}.
Implicit Types (k : K) (v : V) (kv : evictable K V)
               (l : list (evictable K V)).

Lemma go_eq_refl k : self_equal k = true → go_eq k k.
Proof. by split. Qed.

Lemma go_eq_not_self k k' : self_equal k' = false → ¬ go_eq k k'.
Proof. intros Hk [Hs ->]. congruence. Qed.

Lemma elem_of_without k kv l :
  kv ∈ without k l ↔ kv ∈ l ∧ ¬ go_eq (key kv) k.
Proof. unfold without. by rewrite list_elem_of_filter, (comm and). Qed.

Lemma length_without k l : length (without k l) ≤ length l.
Proof. apply length_filter. Qed.

Lemma without_nil k : without k (@nil (evictable K V)) = [].
Proof. done. Qed.

Lemma without_cons_eq k v l :
  self_equal k = true → without k (mkEvictable k v :: l) = without k l.
Proof.
  intros Hk. unfold without.
  rewrite filter_cons_False; [done|]. intros Hc. by apply Hc.
Qed.

Lemma without_cons_ne k kv l :
  key kv ≠ k → without k (kv :: l) = kv :: without k l.
Proof.
  intros Hne. unfold without. rewrite filter_cons_True; [done|].
  by intros [_ ?].
Qed.

Lemma without_cons_not_self k kv l :
  self_equal (key kv) = false → without k (kv :: l) = kv :: without k l.
Proof.
  intros Hs. unfold without. rewrite filter_cons_True; [done|].
  intros [? _]. congruence.
Qed.

Lemma assoc_cons_eq k v l :
  self_equal k = true → assoc k (mkEvictable k v :: l) = Some v.
Proof. intros Hk. simpl. by rewrite decide_True. Qed.

Lemma assoc_cons_ne k kv l : key kv ≠ k → assoc k (kv :: l) = assoc k l.
Proof. intros Hne. simpl. rewrite decide_False; [done|]. by intros [_ ?]. Qed.

Lemma assoc_cons_not_self k kv l :
  self_equal (key kv) = false → assoc k (kv :: l) = assoc k l.
Proof.
  intros Hs. simpl. rewrite decide_False; [done|]. intros [? _]. congruence.
Qed.

(** The key is not found exactly when no entry has a key [==] to it. *)
Lemma assoc_None k l :
  assoc k l = None ↔ ∀ kv, kv ∈ l → ¬ go_eq (key kv) k.
Proof.
  induction l as [|kv l IH]; simpl.
  - split; [|done]. intros _ kv' Hin. by apply elem_of_nil in Hin.
  - case_decide as Hk.
    + split; [done|]. intros Hall. exfalso. apply (Hall kv); [left|done].
    + rewrite IH. split.
      * intros Hall kv' [->|Hin]%elem_of_cons; [done|by apply Hall].
      * intros Hall kv' Hin. apply Hall. by right.
Qed.

Lemma assoc_None_keys k l : k ∉ key <$> l → assoc k l = None.
Proof.
  intros Hk. apply assoc_None. intros kv Hin [_ Heq]. apply Hk.
  rewrite <- Heq. by apply list_elem_of_fmap_2.
Qed.

(** A key that is not equal to itself is never found. *)
Lemma assoc_not_self k l : self_equal k = false → assoc k l = None.
Proof.
  intros Hk. apply assoc_None. intros kv _. by apply go_eq_not_self.
Qed.

Lemma assoc_Some_self k v l : assoc k l = Some v → self_equal k = true.
Proof.
  destruct (self_equal k) eqn:Hk; [done|]. by rewrite assoc_not_self.
Qed.

Lemma assoc_Some_elem k v l : assoc k l = Some v → mkEvictable k v ∈ l.
Proof.
  induction l as [|[k' v'] l IH]; simpl; [done|].
  case_decide as Hk; simpl in Hk.
  - destruct Hk as [_ ->]. intros [= ->]. left.
  - intros Hl. right. by apply IH.
Qed.

(** An entry whose key is equal to itself and occurs once is the one
    found. *)
Lemma assoc_Some_unique k v l :
  self_equal k = true → mkEvictable k v ∈ l →
  (∀ kv, kv ∈ l → key kv = k → kv = mkEvictable k v) →
  assoc k l = Some v.
Proof.
  intros Hs. induction l as [|kv l IH]; intros Hin Huniq.
  - by apply elem_of_nil in Hin.
  - simpl. case_decide as Hk.
    + destruct Hk as [_ Hk]. by rewrite (Huniq kv) by (done || left).
    + apply elem_of_cons in Hin as [<-|Hin].
      * exfalso. apply Hk. by split.
      * apply IH; [done|]. intros kv' Hin'. apply Huniq. by right.
Qed.

Lemma assoc_Some_NoDup k v l :
  self_equal k = true → NoDup (key <$> l) → mkEvictable k v ∈ l →
  assoc k l = Some v.
Proof.
  intros Hs Hnd Hin. apply assoc_Some_unique; [done..|].
  intros kv Hkv Hkey.
  pose proof (proj1 (NoDup_alt (key <$> l)) Hnd) as Hinj.
  apply list_elem_of_lookup in Hin as [i Hi].
  apply list_elem_of_lookup in Hkv as [j Hj].
  assert (i = j) as <-.
  { apply (Hinj i j k); rewrite list_lookup_fmap.
    - by rewrite Hi.
    - rewrite Hj. simpl. by rewrite Hkey. }
  congruence.
Qed.

Lemma without_absent k l : assoc k l = None → without k l = l.
Proof.
  rewrite assoc_None. unfold without.
  induction l as [|kv l IH]; intros Hall; [done|].
  rewrite filter_cons_True by (apply Hall; left).
  rewrite IH; [done|]. intros kv' Hin. apply Hall. by right.
Qed.

Lemma without_not_self k l : self_equal k = false → without k l = l.
Proof. intros Hk. by apply without_absent, assoc_not_self. Qed.

(** A key that is found has an entry that [without] drops. *)
Lemma length_without_hit k v l :
  assoc k l = Some v → S (length (without k l)) ≤ length l.
Proof.
  unfold without. induction l as [|kv l IH]; simpl; [done|].
  case_decide as Hk.
  - intros _. rewrite filter_cons_False by (intros Hc; by apply Hc).
    pose proof (length_filter (λ kv, ¬ go_eq (key kv) k) l). lia.
  - intros Hl. rewrite filter_cons_True by done. simpl.
    apply IH in Hl. lia.
Qed.

Lemma assoc_without_eq k l : assoc k (without k l) = None.
Proof. apply assoc_None. by intros kv [_ Hne]%elem_of_without. Qed.

Lemma assoc_without_ne k k' l :
  k ≠ k' → assoc k (without k' l) = assoc k l.
Proof.
  intros Hne. unfold without. induction l as [|kv l IH]; [done|].
  destruct (decide (go_eq (key kv) k')) as [Heq|Hne'].
  - rewrite filter_cons_False by (intros Hc; by apply Hc).
    destruct Heq as [_ Heq]. rewrite assoc_cons_ne by congruence. done.
  - rewrite filter_cons_True by done. simpl. by rewrite IH.
Qed.

Lemma last_removelast l kv : last l = Some kv → removelast l ++ [kv] = l.
Proof. intros [l' ->]%last_Some. by rewrite removelast_last. Qed.

Lemma length_removelast l : length (removelast l) = pred (length l).
Proof.
  destruct l as [|kv l _] using rev_ind; [done|].
  rewrite removelast_last, length_app. simpl. lia.
Qed.
End association_lists.

(** ** Steps of the association list *)
Section abstract_steps.
Context {K : Type} `{Countable K} `{SelfEqual K} {V : Type} `{Inhabited V}
        {W : Type}.
Implicit Types (k : K) (v : V) (kv : evictable K V)
               (l : list (evictable K V)) (w : W) (m : lruMetrics)
               (cb : option (K → V → W → W)).

Lemma abs_Add_new_room cap cb k v l w m :
  assoc k l = None → (Z.of_nat (S (length l)) ≤ cap)%Z →
  abs_Add cap cb k v (l, w, m) = (mkEvictable k v :: l, w, m).
Proof.
  intros Hk Hlen. unfold abs_Add. rewrite Hk.
  rewrite (bool_decide_eq_false_2 (_ > _)%Z) by (cbn [length]; lia).
  by rewrite andb_false_r.
Qed.

Lemma abs_Add_new_full cap cb k v l w m kv :
  assoc k l = None → (0 < cap)%Z → (cap < Z.of_nat (S (length l)))%Z →
  last (mkEvictable k v :: l) = Some kv →
  abs_Add cap cb k v (l, w, m)
  = (removelast (mkEvictable k v :: l),
     invoke cb (key kv) (value kv) w, inc_evictions m).
Proof.
  intros Hk Hcap Hlen Hlast. unfold abs_Add. rewrite Hk, Hlast.
  rewrite bool_decide_eq_true_2 by lia.
  by rewrite bool_decide_eq_true_2 by (cbn [length]; lia).
Qed.

Lemma abs_Get_hit k v l w m :
  assoc k l = Some v →
  abs_Get k (l, w, m)
  = ((v, true), (mkEvictable k v :: without k l, w, inc_hits m)).
Proof. intros Hk. unfold abs_Get. by rewrite Hk. Qed.

Lemma abs_Add_metrics cap cb k v l w m :
  (abs_Add cap cb k v (l, w, m)).2 = m
  ∨ (abs_Add cap cb k v (l, w, m)).2 = inc_evictions m.
Proof.
  unfold abs_Add. destruct (assoc k l); [by left|].
  destruct (_ && _); [|by left].
  destruct (last _); [by right|by left].
Qed.

(** With a positive capacity, [Add] never takes the length of the list
    above it. *)
Lemma length_abs_Add cap cb k v l w m :
  (0 < cap)%Z → (Z.of_nat (length l) ≤ cap)%Z →
  (Z.of_nat (length (abs_Add cap cb k v (l, w, m)).1.1) ≤ cap)%Z.
Proof.
  intros Hcap Hlen. unfold abs_Add.
  destruct (assoc k l) as [v0|] eqn:Hk.
  - apply length_without_hit in Hk. cbn [length fst]. lia.
  - rewrite bool_decide_eq_true_2 by lia. simpl andb.
    case_bool_decide as Hover; [|cbn [length fst] in *; lia].
    destruct (last (mkEvictable k v :: l)) as [kv|] eqn:Hlast;
      [|by apply last_None in Hlast].
    cbn [fst]. rewrite length_removelast. cbn [length]. lia.
Qed.
End abstract_steps.

(** ** Deleting the entries that [range] yields *)
Section gomap_purge.
Context {K : Type} `{Countable K} `{SelfEqual K} {A : Type}.
Implicit Types (m : gomap K A) (k : K) (kes : list (K * A)).

Lemma gm_eta m : m = mkMap (proper m) (loose m).
Proof. by destruct m. Qed.

Lemma gm_proper_delete_None k k' m :
  proper m !! k = None → proper (delete k' m) !! k = None.
Proof.
  intros Hk. unfold delete, gomap_delete.
  destruct (self_equal k'); [|done]. simpl.
  destruct (decide (k' = k)) as [->|Hne].
  - apply lookup_delete_eq.
  - by rewrite lookup_delete_ne.
Qed.

Lemma gm_proper_delete_eq k m :
  self_equal k = true → proper (delete k m) !! k = None.
Proof.
  intros Hk. unfold delete, gomap_delete. rewrite Hk. simpl.
  apply lookup_delete_eq.
Qed.

Lemma gm_loose_foldl_delete kes m :
  loose (foldl (λ m ke, delete ke.1 m) m kes) = loose m.
Proof.
  revert m. induction kes as [|ke kes IH]; intros m; [done|].
  simpl. by rewrite IH, gm_loose_delete.
Qed.

(** A key that is equal to itself is gone once [range] has yielded it. *)
Lemma gm_proper_foldl_delete kes m k :
  proper m !! k = None ∨ (self_equal k = true ∧ k ∈ kes.*1) →
  proper (foldl (λ m ke, delete ke.1 m) m kes) !! k = None.
Proof.
  revert m. induction kes as [|[k0 a0] kes IH]; intros m Hk; simpl.
  - destruct Hk as [Hk|[_ Hk]]; [done|]. by apply elem_of_nil in Hk.
  - apply IH. destruct Hk as [Hk|[Hs Hk]].
    + left. by apply gm_proper_delete_None.
    + csimpl in Hk. apply elem_of_cons in Hk as [->|Hk].
      * left. by apply gm_proper_delete_eq.
      * by right.
Qed.

(** Deleting every entry of the map leaves the entries whose key is not
    equal to itself. *)
Lemma gm_foldl_delete_all kes m :
  map_ok m → kes ≡ₚ pairs m →
  foldl (λ m ke, delete ke.1 m) m kes = mkMap ∅ (loose m).
Proof.
  intros [Hp Hl] Hkes. rewrite (gm_eta (foldl _ _ _)).
  rewrite gm_loose_foldl_delete. f_equal.
  apply map_empty. intros k. apply gm_proper_foldl_delete.
  destruct (proper m !! k) as [a|] eqn:Hk; [right|by left].
  split; [by eapply Hp|].
  apply list_elem_of_fmap. exists (k, a). split; [done|].
  rewrite Hkes. apply elem_of_pairs. by left.
Qed.

Lemma gm_size_empty : size (∅ : gomap K A) = 0.
Proof. unfold size, gomap_size. simpl. by rewrite map_size_empty. Qed.

Lemma pairs_no_loose m : loose m = [] → pairs m = map_to_list (proper m).
Proof. intros Hl. unfold pairs. by rewrite Hl, app_nil_r. Qed.

End gomap_purge.

(** ** The representation invariant *)
Section invariant.
Context {K : Type} `{Countable K} `{SelfEqual K} {V : Type} `{Inhabited V}
        {W R : Type}.
Implicit Types (c : LRUWithEvict K V W R) (k : K) (v : V) (e : nat)
               (kv : evictable K V).

Lemma wf_NewWithEvict newMetrics unregister (reg : R) maxEntries
    (onEvicted : option (K → V → W → W)) (w : W) :
  wf (NewWithEvict newMetrics unregister reg maxEntries onEvicted w).
Proof.
  constructor; simpl.
  - constructor.
  - apply map_ok_empty.
  - intros e He. by apply elem_of_nil in He.
  - intros k e He. rewrite pairs_empty in He. by apply elem_of_nil in He.
  - intros k e He. by rewrite gm_lookup_empty in He.
  - intros e [kv He]. by rewrite lookup_empty in He.
Qed.

Lemma wf_lookup_pair c k e :
  wf c → items c !! k = Some e → (k, e) ∈ pairs (items c).
Proof.
  intros Hwf Hk. by apply (gm_lookup_pairs _ _ _ (wf_map c Hwf)) in Hk as [_ ?].
Qed.

Lemma wf_lookup_entry c k e :
  wf c → items c !! k = Some e →
  ∃ v, elements c !! e = Some (mkEvictable k v).
Proof.
  intros Hwf Hk. apply (wf_pairs c Hwf). by apply wf_lookup_pair.
Qed.

(** The index gives back the element of the list that holds a key, when the
    key is equal to itself. *)
Lemma wf_list_lookup c e kv :
  wf c → e ∈ evictList c → elements c !! e = Some kv →
  self_equal (key kv) = true → items c !! key kv = Some e.
Proof.
  intros Hwf He Hkv Hs.
  destruct (wf_list c Hwf e He) as (kv' & Hkv' & Hin).
  rewrite Hkv in Hkv'. injection Hkv' as <-.
  by apply (gm_lookup_pairs _ _ _ (wf_map c Hwf)).
Qed.

(** Two keys of the index never share an element. *)
Lemma wf_pairs_inj c k1 k2 e :
  wf c → (k1, e) ∈ pairs (items c) → (k2, e) ∈ pairs (items c) → k1 = k2.
Proof.
  intros Hwf Hl1 Hl2.
  destruct (wf_pairs c Hwf _ _ Hl1) as (v1 & Hv1).
  destruct (wf_pairs c Hwf _ _ Hl2) as (v2 & Hv2).
  congruence.
Qed.

Lemma wf_items_inj c k1 k2 e :
  wf c → items c !! k1 = Some e → items c !! k2 = Some e → k1 = k2.
Proof.
  intros Hwf Hl1 Hl2. eapply wf_pairs_inj; [done|by apply wf_lookup_pair..].
Qed.

Lemma wf_fresh c e : wf c → e ∈ evictList c → e < next_elem c.
Proof.
  intros Hwf He. destruct (wf_list c Hwf e He) as (kv & Hkv & _).
  apply (wf_alloc c Hwf). by eexists.
Qed.

Lemma next_elem_fresh c : wf c → next_elem c ∉ evictList c.
Proof. intros Hwf Hin. apply (wf_fresh c _ Hwf) in Hin. lia. Qed.

Lemma wf_pairs_fresh c k e :
  wf c → (k, e) ∈ pairs (items c) → e < next_elem c.
Proof.
  intros Hwf He. destruct (wf_pairs c Hwf k e He) as (v & Hv).
  apply (wf_alloc c Hwf). by eexists.
Qed.

Lemma elem_of_entries c kv :
  kv ∈ entries c ↔ ∃ e, e ∈ evictList c ∧ elements c !! e = Some kv.
Proof. unfold entries. apply list_elem_of_omap. Qed.

Lemma length_entries c : wf c → length (entries c) = length (evictList c).
Proof.
  intros Hwf. apply omap_length_total. intros e He.
  destruct (wf_list c Hwf e He) as (kv & -> & _). by eexists.
Qed.

(** Reading the list without the element of a key that is equal to itself
    is filtering the entries by key. *)
Lemma entries_Remove c e kv :
  wf c → e ∈ evictList c → elements c !! e = Some kv →
  self_equal (key kv) = true →
  omap (λ x, elements c !! x) (GoList.Remove e (evictList c))
  = without (key kv) (entries c).
Proof.
  intros Hwf He Hkv Hs. apply omap_filter_related.
  intros x Hx. destruct (wf_list c Hwf x Hx) as (kv' & Hkv' & Hk').
  exists kv'. split; [done|]. split.
  - intros Hne [Hs' Hkey]. apply Hne.
    pose proof (wf_list_lookup c x kv' Hwf Hx Hkv' Hs') as Hl1.
    pose proof (wf_list_lookup c e kv Hwf He Hkv Hs) as Hl2.
    rewrite Hkey in Hl1. congruence.
  - intros Hne ->. apply Hne. rewrite Hkv in Hkv'. injection Hkv' as <-.
    by split.
Qed.

(** Reading the list without its last element. *)
Lemma entries_Remove_Back c e :
  wf c → GoList.Back (evictList c) = Some e →
  omap (λ x, elements c !! x) (GoList.Remove e (evictList c))
  = removelast (entries c).
Proof.
  intros Hwf Hb. rewrite Remove_Back by (done || apply Hwf).
  apply omap_removelast_total. intros x Hx.
  destruct (wf_list c Hwf x Hx) as (kv & -> & _). by eexists.
Qed.

(** ** Every method preserves the invariant *)

Lemma removeElement_wf c e c' :
  wf c → e ∈ evictList c → removeElement e c = Some (tt, c') → wf c'.
Proof.
  intros Hwf He. unfold removeElement. simpl.
  destruct (wf_list c Hwf e He) as (kv & Hkv & Hk). rewrite Hkv.
  intros [= <-]. constructor; simpl.
  - apply NoDup_Remove, Hwf.
  - apply map_ok_delete, Hwf.
  - intros x [Hx Hne]%elem_of_Remove.
    destruct (wf_list c Hwf x Hx) as (kv' & Hkv' & Hk').
    exists kv'. split; [done|].
    apply elem_of_pairs_delete; [apply Hwf|]. split; [done|].
    intros [Hs Hkey]. apply Hne.
    pose proof (wf_list_lookup c e kv Hwf He Hkv Hs) as Hl1.
    rewrite Hkey in Hs.
    pose proof (wf_list_lookup c x kv' Hwf Hx Hkv' Hs) as Hl2.
    rewrite Hkey in Hl1. congruence.
  - intros k x [Hx _]%elem_of_pairs_delete; [|apply Hwf].
    by apply (wf_pairs c Hwf).
  - intros k x Hx.
    destruct (decide (key kv = k)) as [<-|Hne].
    { by rewrite gm_lookup_delete_eq in Hx. }
    rewrite gm_lookup_delete_ne in Hx by done.
    apply elem_of_Remove. split; [by apply (wf_items c Hwf k)|].
    intros ->. destruct (wf_lookup_entry c k e Hwf Hx) as [v' Hv'].
    rewrite Hkv in Hv'. injection Hv' as ->. by apply Hne.
  - apply Hwf.
Qed.

Lemma removeElement_total c e :
  wf c → e ∈ evictList c → is_Some (removeElement e c).
Proof.
  intros Hwf He. destruct (wf_list c Hwf e He) as (kv & Hkv & _).
  unfold removeElement. simpl. rewrite Hkv. by eexists.
Qed.

Lemma removeOldest_wf c c' : wf c → removeOldest c = Some (tt, c') → wf c'.
Proof.
  intros Hwf. unfold removeOldest.
  destruct (GoList.Back (evictList c)) as [e|] eqn:He.
  - apply removeElement_wf; [done|]. by apply Back_elem.
  - by intros [= <-].
Qed.

Lemma removeOldest_total c : wf c → is_Some (removeOldest c).
Proof.
  intros Hwf. unfold removeOldest.
  destruct (GoList.Back (evictList c)) as [e|] eqn:He; [|by eexists].
  apply removeElement_total; [done|]. by apply Back_elem.
Qed.

Lemma Remove_wf c k c' : wf c → Remove k c = Some (tt, c') → wf c'.
Proof.
  intros Hwf. unfold Remove. destruct (items c !! k) as [e|] eqn:He.
  - apply removeElement_wf; [done|]. by apply (wf_items c Hwf k).
  - by intros [= <-].
Qed.

(** A hit moves the element to the front; the index is untouched. *)
Lemma MoveToFront_wf c e :
  wf c → wf (set_evictList (GoList.MoveToFront e) c).
Proof.
  intros Hwf.
  destruct (decide (e ∈ evictList c)) as [He|He].
  - constructor; simpl; rewrite ?MoveToFront_elem by (done || apply Hwf).
    + apply NoDup_cons. split; [|apply NoDup_Remove, Hwf].
      rewrite elem_of_Remove. tauto.
    + apply Hwf.
    + intros x [->|[Hx _]%elem_of_Remove]%elem_of_cons; by apply Hwf.
    + apply Hwf.
    + intros k x Hk. pose proof (wf_items c Hwf _ _ Hk) as Hx.
      destruct (decide (x = e)) as [->|Hne]; [left|right].
      by apply elem_of_Remove.
    + apply Hwf.
  - assert (GoList.MoveToFront e (evictList c) = evictList c) as Heq.
    { unfold GoList.MoveToFront. by rewrite decide_False. }
    constructor; simpl; rewrite ?Heq; apply Hwf.
Qed.

Lemma Add_hit c k v e :
  items c !! k = Some e →
  Add k v c
  = Some (tt, set_elements <[e := mkEvictable k v]>
                (set_evictList (GoList.MoveToFront e) c)).
Proof. intros He. unfold Add. by rewrite He. Qed.

Lemma Add_miss c k v :
  items c !! k = None →
  Add k v c
  = if over_capacity (push_entry k v c)
    then removeOldest (push_entry k v c)
    else Some (tt, push_entry k v c).
Proof. intros He. unfold Add. by rewrite He. Qed.

(** Overwriting the value of the element of [k] keeps the invariant. *)
Lemma set_value_wf c k v e :
  wf c → items c !! k = Some e →
  wf (set_elements <[e := mkEvictable k v]> c).
Proof.
  intros Hwf He. pose proof (wf_lookup_pair c k e Hwf He) as Hin.
  constructor; simpl.
  - apply Hwf.
  - apply Hwf.
  - intros x Hx. destruct (decide (x = e)) as [->|Hne].
    + rewrite lookup_insert_eq. by eexists.
    + rewrite lookup_insert_ne by done. by apply Hwf.
  - intros k' x Hx. destruct (decide (x = e)) as [->|Hne].
    + rewrite lookup_insert_eq.
      rewrite (wf_pairs_inj c k' k e Hwf Hx Hin). by eexists.
    + rewrite lookup_insert_ne by done. by apply (wf_pairs c Hwf).
  - apply Hwf.
  - intros x Hx. destruct (decide (x = e)) as [->|Hne].
    + by apply (wf_pairs_fresh c k).
    + rewrite lookup_insert_ne in Hx by done. by apply Hwf.
Qed.

Lemma push_entry_wf c k v :
  wf c → items c !! k = None → wf (push_entry k v c).
Proof.
  intros Hwf Hk. pose proof (next_elem_fresh c Hwf) as Hfresh.
  constructor; unfold GoList.PushFront; simpl.
  - apply NoDup_cons. split; [done|apply Hwf].
  - apply map_ok_insert, Hwf.
  - intros x [->|Hx]%elem_of_cons.
    + rewrite lookup_insert_eq. eexists. split; [done|]. simpl.
      apply elem_of_pairs_insert; [apply Hwf|]. by left.
    + destruct (wf_list c Hwf x Hx) as (kv & Hkv & Hkey).
      exists kv. rewrite lookup_insert_ne by congruence. split; [done|].
      apply elem_of_pairs_insert; [apply Hwf|]. right. split; [done|].
      intros [Hs Heq]. rewrite Heq in Hs, Hk.
      rewrite (wf_list_lookup c x kv Hwf Hx Hkv Hs) in Hk. done.
  - intros k' x [[-> ->]|[Hx _]]%elem_of_pairs_insert; [| |apply Hwf].
    + rewrite lookup_insert_eq. by eexists.
    + destruct (wf_pairs c Hwf k' x Hx) as (v' & Hv'). exists v'.
      rewrite lookup_insert_ne; [done|].
      intros <-. apply (wf_pairs_fresh c k' _ Hwf) in Hx. lia.
  - intros k' x [(-> & -> & _)|[_ Hx]]%gm_lookup_insert_Some; [left|right].
    by apply (wf_items c Hwf k').
  - intros x Hx. destruct (decide (x = next_elem c)) as [->|Hne]; [lia|].
    rewrite lookup_insert_ne in Hx by done.
    apply (wf_alloc c Hwf) in Hx. lia.
Qed.

Lemma Add_wf c k v c' : wf c → Add k v c = Some (tt, c') → wf c'.
Proof.
  intros Hwf. destruct (items c !! k) as [e|] eqn:He.
  - rewrite (Add_hit c k v e He). intros [= <-].
    apply set_value_wf; [by apply MoveToFront_wf|done].
  - rewrite (Add_miss c k v He).
    pose proof (push_entry_wf c k v Hwf He) as Hwf'.
    destruct (over_capacity _).
    + by apply removeOldest_wf.
    + by intros [= <-].
Qed.

Lemma Add_total c k v : wf c → is_Some (Add k v c).
Proof.
  intros Hwf. destruct (items c !! k) as [e|] eqn:He.
  - rewrite (Add_hit c k v e He). by eexists.
  - rewrite (Add_miss c k v He).
    destruct (over_capacity _); [|by eexists].
    by apply removeOldest_total, push_entry_wf.
Qed.

Lemma Get_wf c k r c' : wf c → Get k c = Some (r, c') → wf c'.
Proof.
  intros Hwf. unfold Get. destruct (items c !! k) as [e|] eqn:He; simpl.
  - destruct (elements c !! e) as [kv|]; [|done]. intros [= _ <-].
    pose proof (MoveToFront_wf c e Hwf) as Hwf'.
    constructor; simpl; apply Hwf'.
  - intros [= _ <-]. constructor; simpl; apply Hwf.
Qed.

Lemma Get_total c k : wf c → is_Some (Get k c).
Proof.
  intros Hwf. unfold Get. destruct (items c !! k) as [e|] eqn:He; simpl.
  - destruct (wf_lookup_entry c k e Hwf He) as [v ->]. by eexists.
  - by eexists.
Qed.

Lemma Peek_total c k : wf c → is_Some (Peek k c).
Proof.
  intros Hwf. unfold Peek. destruct (items c !! k) as [e|] eqn:He.
  - destruct (wf_lookup_entry c k e Hwf He) as [v ->]. by eexists.
  - by eexists.
Qed.

Lemma Remove_total c k : wf c → is_Some (Remove k c).
Proof.
  intros Hwf. unfold Remove. destruct (items c !! k) as [e|] eqn:He.
  - apply removeElement_total; [done|]. by apply (wf_items c Hwf k).
  - by eexists.
Qed.

(** ** The index and the list, counted *)

Lemma self_equal_keys_loose c :
  wf c → self_equal_keys c ↔ loose (items c) = [].
Proof.
  intros Hwf. destruct (wf_map c Hwf) as [Hp Hl]. split.
  - intros Hs. destruct (loose (items c)) as [|[k e] l] eqn:Hloose; [done|].
    assert (self_equal k = false) as Hk by (apply (Hl k e); left).
    rewrite (Hs k e) in Hk; [done|]. apply elem_of_pairs. right.
    rewrite Hloose. left.
  - intros Hloose k e [Hk|Hk]%elem_of_pairs; [by eapply Hp|].
    rewrite Hloose in Hk. by apply elem_of_nil in Hk.
Qed.

(** When every key is equal to itself, the elements of the index are those
    of the recency list. *)
Lemma wf_items_list_perm c :
  wf c → self_equal_keys c → (pairs (items c)).*2 ≡ₚ evictList c.
Proof.
  intros Hwf Hs. apply NoDup_Permutation.
  - apply NoDup_fmap_2_strong.
    + intros [k1 e1] [k2 e2] Hin1 Hin2. simpl. intros <-. f_equal.
      by eapply wf_pairs_inj.
    + rewrite pairs_no_loose by by apply self_equal_keys_loose.
      apply NoDup_map_to_list.
  - by apply wf_NoDup.
  - intros e. rewrite list_elem_of_fmap. split.
    + intros ([k e'] & -> & Hke). simpl. apply (wf_items c Hwf k).
      apply (gm_lookup_pairs _ _ _ (wf_map c Hwf)). split; [|done].
      by apply (Hs k e').
    + intros He. destruct (wf_list c Hwf e He) as (kv & _ & Hk).
      by exists (key kv, e).
Qed.

Lemma wf_live c : wf c → self_equal_keys c → live c = length (evictList c).
Proof.
  intros Hwf Hs. unfold live.
  rewrite <- (Permutation_length (wf_items_list_perm c Hwf Hs)).
  by rewrite length_fmap, gm_size_pairs.
Qed.

(** The index holds an entry for every element of the list, and may hold
    more. *)
Lemma length_evictList_live c : wf c → length (evictList c) ≤ live c.
Proof.
  intros Hwf. unfold live.
  rewrite gm_size_pairs, <- (length_fmap snd (pairs (items c))).
  apply submseteq_length, NoDup_submseteq; [apply Hwf|].
  intros e He. destruct (wf_list c Hwf e He) as (kv & _ & Hk).
  apply list_elem_of_fmap. by exists (key kv, e).
Qed.

(** ** [Purge] and [Close] *)

Lemma Purge_body_entry c k e v :
  elements c !! e = Some (mkEvictable k v) →
  Purge_body (k, e) c
  = Some (tt, set_items (delete k)
                (set_world (invoke (onEvicted c) k v) c)).
Proof.
  intros Hv. unfold Purge_body, invoke. simpl.
  destruct (onEvicted c); [by rewrite Hv|done].
Qed.

(** The loop of [Purge] over entries of the index: it calls the callback
    for each of them in turn, deletes their keys from the index and touches
    nothing else. *)
Lemma Purge_loop_spec kes c :
  (∀ k e, (k, e) ∈ kes → ∃ v, elements c !! e = Some (mkEvictable k v)) →
  ∃ c', Purge_loop kes c = Some (tt, c')
    ∧ items c' = foldl (λ m ke, delete ke.1 m) (items c) kes
    ∧ evictList c' = evictList c
    ∧ elements c' = elements c
    ∧ next_elem c' = next_elem c
    ∧ metrics c' = metrics c
    ∧ registry c' = registry c
    ∧ config c' = config c
    ∧ world c' = invoke_all (onEvicted c) (purged c kes) (world c).
Proof.
  revert c. induction kes as [|[k e] kes IH]; intros c Hkes.
  - exists c. simpl. split_and!; done.
  - destruct (Hkes k e) as (v & Hv); [left|].
    set (c1 := set_items (delete k)
                 (set_world (invoke (onEvicted c) k v) c)).
    destruct (IH c1) as (c' & Hrun & Hit & Hl & Hel & Hn & Hm & Hr & Hc & Hw).
    { intros k' e' Hin. simpl. apply Hkes. by right. }
    exists c'. split.
    { simpl. rewrite (Purge_body_entry c k e v Hv). exact Hrun. }
    split_and!; try done.
    rewrite Hw. unfold purged. csimpl. by rewrite Hv.
Qed.

Lemma some_range_order_ok c : range_order c (some_range_order c).
Proof. unfold range_order, some_range_order. reflexivity. Qed.

Lemma range_order_elem c kes k e :
  range_order c kes → (k, e) ∈ kes ↔ (k, e) ∈ pairs (items c).
Proof. unfold range_order. by intros ->. Qed.

(** The callback receives each entry with the key the index has for it. *)
Lemma purged_keys c kes :
  wf c → range_order c kes → key <$> purged c kes = kes.*1.
Proof.
  intros Hwf Hkes.
  assert (∀ l : list (K * nat), (∀ k e, (k, e) ∈ l → (k, e) ∈ pairs (items c)) →
            key <$> purged c l = l.*1) as Hkeys.
  { induction l as [|[k e] l IH]; intros Hl; [done|].
    destruct (wf_pairs c Hwf k e) as [v Hv]; [apply Hl; left|].
    unfold purged. csimpl. rewrite Hv. csimpl. f_equal.
    apply IH. intros k' e' Hin. apply Hl. by right. }
  apply Hkeys. intros k e Hin. by apply (range_order_elem c kes).
Qed.

Lemma purged_elements c kes :
  purged c kes = omap (λ e, elements c !! e) kes.*2.
Proof.
  unfold purged. induction kes as [|[k e] kes IH]; [done|].
  csimpl. by rewrite IH.
Qed.

(** When every key is equal to itself, they are the live entries, each
    once. *)
Lemma purged_perm c kes :
  wf c → self_equal_keys c → range_order c kes →
  purged c kes ≡ₚ entries c.
Proof.
  intros Hwf Hs Hkes. rewrite purged_elements. unfold entries.
  apply omap_Permutation. unfold range_order in Hkes. rewrite Hkes.
  by apply wf_items_list_perm.
Qed.

(** [Purge] from a well-formed state, for any order [range] may choose: the
    entries whose key is not equal to itself stay in the index. *)
Lemma Purge_spec c kes :
  wf c → range_order c kes →
  ∃ c', Purge kes c = Some (tt, c')
    ∧ items c' = mkMap ∅ (loose (items c))
    ∧ evictList c' = []
    ∧ elements c' = elements c
    ∧ next_elem c' = next_elem c
    ∧ metrics c' = metrics c
    ∧ registry c' = registry c
    ∧ config c' = config c
    ∧ world c' = invoke_all (onEvicted c) (purged c kes) (world c).
Proof.
  intros Hwf Hkes.
  destruct (Purge_loop_spec kes c) as (c' & Hrun & Hit & Hl & Hel & Hn & Hm & Hr & Hc & Hw).
  { intros k e Hin. apply (wf_pairs c Hwf).
    by apply (range_order_elem c kes). }
  exists (set_evictList GoList.Init c'). split.
  { unfold Purge. by rewrite Hrun. }
  simpl. split_and!; try done.
  rewrite Hit. apply gm_foldl_delete_all; [apply Hwf|done].
Qed.

Lemma gm_lookup_purged k (l : list (K * nat)) :
  (mkMap ∅ l : gomap K nat) !! k = None.
Proof.
  unfold lookup, gomap_lookup. simpl. destruct (self_equal k); [|done].
  apply lookup_empty.
Qed.

Lemma purged_wf c c' :
  wf c → items c' = mkMap ∅ (loose (items c)) → evictList c' = [] →
  elements c' = elements c → next_elem c' = next_elem c → wf c'.
Proof.
  intros Hwf Hi Hl He Hn. destruct (wf_map c Hwf) as [_ Hloose].
  constructor; rewrite ?Hi, ?Hl, ?He, ?Hn.
  - constructor.
  - split; simpl; [|done]. intros k a Hk. by rewrite lookup_empty in Hk.
  - intros e Hin. by apply elem_of_nil in Hin.
  - intros k e Hin. apply (wf_pairs c Hwf). apply elem_of_pairs. right.
    apply elem_of_pairs in Hin as [Hin|Hin]; [|done].
    simpl in Hin. by rewrite lookup_empty in Hin.
  - intros k e Hk. by rewrite gm_lookup_purged in Hk.
  - apply Hwf.
Qed.

Lemma Purge_wf c kes c' :
  wf c → range_order c kes → Purge kes c = Some (tt, c') → wf c'.
Proof.
  intros Hwf Hkes Hrun.
  destruct (Purge_spec c kes Hwf Hkes)
    as (c'' & Hrun' & Hi & Hl & He & Hn & _).
  rewrite Hrun in Hrun'. injection Hrun' as <-. by eapply purged_wf.
Qed.

Lemma run_closer_total c : is_Some (run_closer c).
Proof.
  unfold run_closer. destruct (closer c) as [f|]; [|by eexists].
  destruct (f (registry c)). by eexists.
Qed.

(** The closer touches the registry only. *)
Lemma run_closer_frame c err c' :
  run_closer c = Some (err, c') →
  items c' = items c ∧ evictList c' = evictList c
  ∧ elements c' = elements c ∧ next_elem c' = next_elem c
  ∧ metrics c' = metrics c ∧ world c' = world c ∧ config c' = config c.
Proof.
  unfold run_closer. destruct (closer c) as [f|] eqn:Hf.
  - destruct (f (registry c)) as [err' r]. intros [= _ <-]. simpl.
    unfold config. simpl. by rewrite Hf.
  - by intros [= _ <-].
Qed.

Lemma run_closer_wf c err c' : wf c → run_closer c = Some (err, c') → wf c'.
Proof.
  intros Hwf (Hi & Hl & He & Hn & _)%run_closer_frame.
  constructor; rewrite ?Hi, ?Hl, ?He, ?Hn; apply Hwf.
Qed.

Lemma Close_inv c kes err c' :
  Close kes c = Some (err, c') →
  ∃ c1, Purge kes c = Some (tt, c1) ∧ run_closer c1 = Some (err, c').
Proof.
  unfold Close. destruct (Purge kes c) as [[[] c1]|]; [|done].
  intros Hc. by exists c1.
Qed.

(** ** What is cached *)

Lemma cached_Some c k v :
  wf c →
  cached c k = Some v ↔
  ∃ e, items c !! k = Some e ∧ elements c !! e = Some (mkEvictable k v).
Proof.
  intros Hwf. unfold cached, value_of. split.
  - destruct (items c !! k) as [e|] eqn:He; [|done]. simpl.
    destruct (wf_lookup_entry c k e Hwf He) as [v' Hv']. rewrite Hv'.
    simpl. intros [= ->]. by exists e.
  - intros (e & -> & Hv). simpl. by rewrite Hv.
Qed.

Lemma cached_None c k : wf c → cached c k = None ↔ items c !! k = None.
Proof.
  intros Hwf. unfold cached, value_of. split.
  - destruct (items c !! k) as [e|] eqn:He; [|done]. simpl.
    by destruct (wf_lookup_entry c k e Hwf He) as [v' ->].
  - by intros ->.
Qed.

(** A key that is not equal to itself is never found. *)
Lemma cached_not_self c k : self_equal k = false → cached c k = None.
Proof.
  intros Hk. unfold cached, value_of. by rewrite gm_lookup_not_self.
Qed.

Lemma cached_self c k v : cached c k = Some v → self_equal k = true.
Proof.
  destruct (self_equal k) eqn:Hk; [done|]. by rewrite cached_not_self.
Qed.

Lemma cached_frame c c' k :
  items c' = items c → elements c' = elements c → cached c' k = cached c k.
Proof. intros Hi He. unfold cached, value_of. by rewrite Hi, He. Qed.

Lemma entries_empty c : wf c → entries c = [] ↔ evictList c = [].
Proof.
  intros Hwf. rewrite <- !length_zero_iff_nil. by rewrite length_entries.
Qed.

(** ** The methods and the association list *)

(** Looking a key up in the index is looking it up in the entries. *)
Lemma assoc_entries c k : wf c → assoc k (entries c) = cached c k.
Proof.
  intros Hwf. destruct (cached c k) as [v|] eqn:Hc.
  - pose proof (cached_self c k v Hc) as Hs.
    apply cached_Some in Hc as (e & He & Hv); [|done].
    pose proof (wf_items c Hwf k e He) as Hin.
    apply assoc_Some_unique; [done|..].
    + apply elem_of_entries. by exists e.
    + intros kv (x & Hx & Hkv)%elem_of_entries Hkey.
      assert (items c !! key kv = Some x) as Hlk.
      { apply (wf_list_lookup c x kv); try done. by rewrite Hkey. }
      rewrite Hkey, He in Hlk. injection Hlk as <-. congruence.
  - apply cached_None in Hc; [|done]. apply assoc_None.
    intros kv (x & Hx & Hkv)%elem_of_entries [Hs Hkey].
    rewrite <- Hkey, (wf_list_lookup c x kv Hwf Hx Hkv Hs) in Hc. done.
Qed.

Lemma removeElement_spec c e kv :
  elements c !! e = Some kv →
  ∃ c', removeElement e c = Some (tt, c')
    ∧ entries c'
      = omap (λ x, elements c !! x) (GoList.Remove e (evictList c))
    ∧ world c' = invoke (onEvicted c) (key kv) (value kv) (world c)
    ∧ metrics c' = inc_evictions (metrics c)
    ∧ items c' = delete (key kv) (items c)
    ∧ evictList c' = GoList.Remove e (evictList c)
    ∧ elements c' = elements c
    ∧ next_elem c' = next_elem c
    ∧ config c' = config c ∧ registry c' = registry c.
Proof.
  intros Hkv. eexists. split.
  { unfold removeElement. simpl. by rewrite Hkv. }
  simpl. split_and!; done.
Qed.

Lemma Back_entries c e :
  wf c → GoList.Back (evictList c) = Some e →
  ∃ kv, elements c !! e = Some kv ∧ last (entries c) = Some kv.
Proof.
  intros Hwf Hb.
  destruct (wf_list c Hwf e (Back_elem _ _ Hb)) as (kv & Hkv & _).
  exists kv. split; [done|]. by eapply omap_last_total.
Qed.

Lemma push_entry_entries c k v :
  wf c → entries (push_entry k v c) = mkEvictable k v :: entries c.
Proof.
  intros Hwf. unfold entries, push_entry, GoList.PushFront. simpl.
  csimpl. rewrite lookup_insert_eq. f_equal.
  apply omap_ext_elem. intros x Hx.
  rewrite lookup_insert_ne; [done|].
  intros <-. by apply (next_elem_fresh c Hwf).
Qed.

Lemma MoveToFront_entries c e kv :
  wf c → e ∈ evictList c → elements c !! e = Some kv →
  self_equal (key kv) = true →
  entries (set_evictList (GoList.MoveToFront e) c)
  = kv :: without (key kv) (entries c).
Proof.
  intros Hwf He Hkv Hs. unfold entries at 1. simpl.
  rewrite MoveToFront_elem by (done || apply Hwf). csimpl.
  rewrite Hkv. f_equal. by apply entries_Remove.
Qed.

Lemma over_capacity_push c k v :
  wf c →
  over_capacity (push_entry k v c)
  = bool_decide (maxEntries c ≠ 0%Z)
    && bool_decide
         (Z.of_nat (length (mkEvictable k v :: entries c)) > maxEntries c)%Z.
Proof.
  intros Hwf. unfold over_capacity, GoList.Len. f_equal.
  cbn [length]. by rewrite (length_entries c Hwf).
Qed.

Theorem Add_refines c k v :
  wf c →
  ∃ c', Add k v c = Some (tt, c') ∧ wf c'
    ∧ abs c' = abs_Add (maxEntries c) (onEvicted c) k v (abs c)
    ∧ config c' = config c ∧ registry c' = registry c.
Proof.
  intros Hwf. destruct (Add_total c k v Hwf) as [[[] c'] Hrun].
  exists c'. split; [done|]. split; [by eapply Add_wf|].
  unfold abs, abs_Add. rewrite (assoc_entries c k Hwf).
  destruct (cached c k) as [v0|] eqn:Hc.
  - pose proof (cached_self c k v0 Hc) as Hs.
    apply cached_Some in Hc as (e & He & Hv0); [|done].
    rewrite (Add_hit c k v e He) in Hrun. injection Hrun as <-. simpl.
    split; [|done]. f_equal. f_equal.
    assert (e ∈ evictList c) as Hin by by apply (wf_items c Hwf k).
    unfold entries. simpl.
    rewrite MoveToFront_elem by (done || apply Hwf). csimpl.
    rewrite lookup_insert_eq. f_equal.
    pose proof (entries_Remove c e (mkEvictable k v0) Hwf Hin Hv0 Hs) as Her.
    simpl in Her. etrans; [|exact Her].
    apply omap_ext_elem. intros x [_ Hx]%elem_of_Remove.
    by rewrite lookup_insert_ne.
  - apply cached_None in Hc; [|done].
    rewrite (Add_miss c k v Hc) in Hrun.
    pose proof (push_entry_wf c k v Hwf Hc) as Hwf'.
    pose proof (push_entry_entries c k v Hwf) as Hent.
    rewrite <- (over_capacity_push c k v Hwf).
    destruct (over_capacity _).
    + unfold removeOldest in Hrun.
      destruct (GoList.Back (evictList (push_entry k v c))) as [e|] eqn:Hb.
      * destruct (Back_entries _ e Hwf' Hb) as (kv & Hkv & Hlast).
        rewrite Hent in Hlast. rewrite Hlast.
        destruct (removeElement_spec _ e kv Hkv)
          as (c'' & Hrun' & Hent' & Hw & Hm & _ & _ & _ & _ & Hcfg & Hreg).
        rewrite Hrun in Hrun'. injection Hrun' as <-.
        rewrite (entries_Remove_Back _ e Hwf' Hb), Hent in Hent'.
        by rewrite Hent', Hw, Hm, Hcfg, Hreg.
      * apply Back_None in Hb. done.
    + injection Hrun as <-. by rewrite Hent.
Qed.

Theorem Get_refines c k :
  wf c →
  ∃ c', Get k c = Some ((abs_Get k (abs c)).1, c') ∧ wf c'
    ∧ abs c' = (abs_Get k (abs c)).2
    ∧ items c' = items c ∧ elements c' = elements c
    ∧ config c' = config c ∧ registry c' = registry c.
Proof.
  intros Hwf. destruct (Get_total c k Hwf) as [[r c'] Hrun].
  pose proof (Get_wf c k r c' Hwf Hrun) as Hwf'.
  unfold abs, abs_Get. rewrite (assoc_entries c k Hwf).
  unfold Get in *. destruct (cached c k) as [v0|] eqn:Hc.
  - pose proof (cached_self c k v0 Hc) as Hs.
    apply cached_Some in Hc as (e & He & Hv0); [|done].
    rewrite He in *. simpl in *. rewrite Hv0 in *.
    injection Hrun as <- <-. eexists. split; [done|]. split; [done|].
    simpl. split_and!; try done.
    assert (e ∈ evictList c) as Hin by by apply (wf_items c Hwf k).
    pose proof (MoveToFront_entries c e _ Hwf Hin Hv0 Hs) as Hent.
    unfold entries in *. simpl in *. by rewrite Hent.
  - apply cached_None in Hc; [|done]. rewrite Hc in *.
    injection Hrun as <- <-. eexists. split; [done|]. split; [done|].
    by simpl.
Qed.

(** [Peek] returns what is cached and changes nothing. *)
Lemma Peek_cached c k : wf c → Peek k c = Some (found (cached c k), c).
Proof.
  intros Hwf. unfold Peek. destruct (cached c k) as [v|] eqn:Hc.
  - apply cached_Some in Hc as (e & -> & ->); done.
  - apply cached_None in Hc as ->; done.
Qed.

Theorem Remove_refines c k :
  wf c →
  ∃ c', Remove k c = Some (tt, c') ∧ wf c'
    ∧ abs c' = abs_Remove (onEvicted c) k (abs c)
    ∧ items c' = delete k (items c)
    ∧ elements c' = elements c
    ∧ config c' = config c ∧ registry c' = registry c.
Proof.
  intros Hwf. destruct (Remove_total c k Hwf) as [[[] c'] Hrun].
  exists c'. split; [done|]. split; [by eapply Remove_wf|].
  unfold abs_Remove, abs at 2. simpl. rewrite (assoc_entries c k Hwf).
  unfold Remove in Hrun. destruct (cached c k) as [v0|] eqn:Hc.
  - pose proof (cached_self c k v0 Hc) as Hs.
    apply cached_Some in Hc as (e & He & Hv0); [|done].
    rewrite He in Hrun.
    assert (e ∈ evictList c) as Hin by by apply (wf_items c Hwf k).
    destruct (removeElement_spec c e _ Hv0)
      as (c'' & Hrun' & Hent & Hw & Hm & Hit & _ & Hel & _ & Hcfg & Hreg).
    rewrite Hrun in Hrun'. injection Hrun' as <-.
    rewrite (entries_Remove c e _ Hwf Hin Hv0 Hs) in Hent.
    unfold abs. by rewrite Hent, Hw, Hm.
  - apply cached_None in Hc; [|done]. rewrite Hc in Hrun.
    injection Hrun as <-. split_and!; try done.
    by rewrite gm_delete_notin.
Qed.

(** ** Runs *)

Lemma exec_total c o : wf c → admissible o c → is_Some (exec o c).
Proof.
  intros Hwf Hadm. destruct o as [k v|k|k|k|kes|kes]; simpl in *.
  - destruct (Add_total c k v Hwf) as [r ->]. by eexists.
  - destruct (Get_total c k Hwf) as [r ->]. by eexists.
  - destruct (Peek_total c k Hwf) as [r ->]. by eexists.
  - destruct (Remove_total c k Hwf) as [r ->]. by eexists.
  - destruct (Purge_spec c kes Hwf Hadm) as (c' & -> & _). by eexists.
  - destruct (Purge_spec c kes Hwf Hadm) as (c' & Hp & _).
    unfold Close. rewrite Hp.
    destruct (run_closer_total c') as [r ->]. by eexists.
Qed.

Lemma exec_wf c o c' : wf c → admissible o c → exec o c = Some c' → wf c'.
Proof.
  intros Hwf Hadm. destruct o as [k v|k|k|k|kes|kes]; simpl in *.
  - destruct (Add k v c) as [[[] c1]|] eqn:Hrun; [|done].
    intros [= <-]. by eapply Add_wf.
  - destruct (Get k c) as [[r c1]|] eqn:Hrun; [|done].
    intros [= <-]. by eapply Get_wf.
  - rewrite Peek_cached by done. by intros [= <-].
  - destruct (Remove k c) as [[[] c1]|] eqn:Hrun; [|done].
    intros [= <-]. by eapply Remove_wf.
  - destruct (Purge kes c) as [[[] c1]|] eqn:Hrun; [|done].
    intros [= <-]. by eapply Purge_wf.
  - destruct (Close kes c) as [[err c1]|] eqn:Hrun; [|done].
    intros [= <-]. apply Close_inv in Hrun as (c2 & Hp & Hc).
    eapply run_closer_wf; [|done]. by eapply Purge_wf.
Qed.

Lemma exec_config c o c' :
  wf c → admissible o c → exec o c = Some c' → config c' = config c.
Proof.
  intros Hwf Hadm. destruct o as [k v|k|k|k|kes|kes]; simpl in *.
  - destruct (Add_refines c k v Hwf) as (c1 & -> & _ & _ & Hcfg & _).
    by intros [= <-].
  - destruct (Get_refines c k Hwf) as (c1 & -> & _ & _ & _ & _ & Hcfg & _).
    by intros [= <-].
  - rewrite Peek_cached by done. by intros [= <-].
  - destruct (Remove_refines c k Hwf)
      as (c1 & -> & _ & _ & _ & _ & Hcfg & _).
    by intros [= <-].
  - destruct (Purge_spec c kes Hwf Hadm)
      as (c1 & -> & _ & _ & _ & _ & _ & _ & Hcfg & _).
    by intros [= <-].
  - destruct (Purge_spec c kes Hwf Hadm)
      as (c1 & Hp & _ & _ & _ & _ & _ & _ & Hcfg & _).
    unfold Close. rewrite Hp.
    destruct (run_closer c1) as [[err c2]|] eqn:Hc; [|done].
    intros [= <-]. apply run_closer_frame in Hc. rewrite <- Hcfg. apply Hc.
Qed.

Lemma run_wf c os c' : wf c → run c os c' → wf c'.
Proof.
  intros Hwf Hrun. induction Hrun as [|c o c1 os c2 [Hadm Hexec] _ IH]; [done|].
  apply IH. by eapply exec_wf.
Qed.

Lemma run_config c os c' : wf c → run c os c' → config c' = config c.
Proof.
  intros Hwf Hrun. induction Hrun as [|c o c1 os c2 [Hadm Hexec] _ IH]; [done|].
  rewrite IH by by eapply exec_wf. by eapply exec_config.
Qed.

Lemma run_snoc c os c1 o c2 : run c os c1 → step c1 o c2 → run c (os ++ [o]) c2.
Proof.
  intros Hrun Hstep. induction Hrun as [|c o' c1' os c2' Hs _ IH]; simpl.
  - econstructor; [done|constructor].
  - econstructor; [done|]. by apply IH.
Qed.

(** A run is a run of [exec_all]. *)
Lemma run_exec_all c os c' : run c os c' → exec_all os c = Some c'.
Proof.
  induction 1 as [|c o c1 os c2 [Hadm Hexec] _ IH]; [done|].
  simpl. by rewrite Hexec.
Qed.

(** ** Keys that are not equal to themselves *)

(** [Add] of a key that is not equal to itself leaves a new entry in the
    index, which nothing removes; no other entry of this kind appears. *)
Lemma Add_loose c k v c' :
  Add k v c = Some (tt, c') →
  loose (items c')
  = loose (items c) ++ (if self_equal k then [] else [(k, next_elem c)]).
Proof.
  unfold Add. destruct (items c !! k) as [e|] eqn:He.
  - intros [= <-]. simpl. rewrite (gm_lookup_self _ _ _ He).
    by rewrite app_nil_r.
  - assert (loose (items (push_entry k v c))
            = loose (items c)
              ++ (if self_equal k then [] else [(k, next_elem c)])) as Hpush.
    { unfold push_entry. simpl. rewrite gm_loose_insert.
      destruct (self_equal k); [by rewrite app_nil_r|done]. }
    destruct (over_capacity _); [|by intros [= <-]].
    unfold removeOldest.
    destruct (GoList.Back _) as [e|]; [|by intros [= <-]].
    unfold removeElement.
    destruct (elements _ !! e) as [kv|]; [|done].
    intros [= <-]. simpl. rewrite gm_loose_delete. exact Hpush.
Qed.

Lemma new_self_equal_keys newMetrics unregister (reg : R) maxEntries
    (onEvicted : option (K → V → W → W)) (w : W) :
  self_equal_keys
    (NewWithEvict newMetrics unregister reg maxEntries onEvicted w).
Proof.
  intros k e Hin. simpl in Hin. rewrite pairs_empty in Hin.
  by apply elem_of_nil in Hin.
Qed.

Lemma added_keys_cons (o : op K V) os :
  added_keys (o :: os) = added_keys [o] ++ added_keys os.
Proof. by destruct o. Qed.

Lemma exec_self_equal_keys c o c' :
  wf c → admissible o c → exec o c = Some c' →
  Forall (λ k, self_equal k = true) (added_keys [o]) →
  self_equal_keys c → self_equal_keys c'.
Proof.
  intros Hwf Hadm Hexec Hks Hs.
  pose proof (exec_wf c o c' Hwf Hadm Hexec) as Hwf'.
  apply (self_equal_keys_loose c Hwf) in Hs.
  apply (self_equal_keys_loose c' Hwf').
  destruct o as [k v|k|k|k|kes|kes]; simpl in *.
  - destruct (Add k v c) as [[[] c1]|] eqn:Hrun; [|done].
    injection Hexec as ->. rewrite (Add_loose c k v c' Hrun), Hs.
    apply Forall_cons in Hks as [-> _]. done.
  - destruct (Get_refines c k Hwf) as (c1 & Hrun & _ & _ & Hi & _).
    rewrite Hrun in Hexec. injection Hexec as ->. by rewrite Hi.
  - rewrite Peek_cached in Hexec by done. by injection Hexec as <-.
  - destruct (Remove_refines c k Hwf) as (c1 & Hrun & _ & _ & Hi & _).
    rewrite Hrun in Hexec. injection Hexec as ->.
    by rewrite Hi, gm_loose_delete.
  - destruct (Purge_spec c kes Hwf Hadm) as (c1 & Hrun & Hi & _).
    rewrite Hrun in Hexec. injection Hexec as ->. by rewrite Hi.
  - destruct (Close kes c) as [[err c1]|] eqn:Hrun; [|done].
    injection Hexec as ->. apply Close_inv in Hrun as (c2 & Hp & Hc).
    destruct (Purge_spec c kes Hwf Hadm) as (c3 & Hrun & Hi & _).
    rewrite Hp in Hrun. injection Hrun as <-.
    apply run_closer_frame in Hc as (-> & _). by rewrite Hi.
Qed.

(** A run that adds only keys equal to themselves keeps the index free of
    other keys. *)
Lemma run_self_equal_keys c os c' :
  wf c → run c os c' →
  Forall (λ k, self_equal k = true) (added_keys os) →
  self_equal_keys c → self_equal_keys c'.
Proof.
  intros Hwf Hrun.
  induction Hrun as [|c o c1 os c2 [Hadm Hexec] _ IH]; [done|].
  rewrite (added_keys_cons o os), Forall_app. intros [Ho Hos] Hs.
  apply IH; [by eapply exec_wf|done|].
  by eapply exec_self_equal_keys.
Qed.

End invariant.

(** ** The size of the cache *)
Section capacity.
Context {K : Type} `{Countable K} `{SelfEqual K} {V : Type} `{Inhabited V}
        {W R : Type}.
Implicit Types (c : LRUWithEvict K V W R) (k : K) (v : V).

(** With a positive capacity, no operation takes the length of the recency
    list above it. *)
Lemma exec_bounded c o c' :
  wf c → admissible o c → exec o c = Some c' →
  (0 < maxEntries c)%Z →
  (Z.of_nat (length (entries c)) ≤ maxEntries c)%Z →
  (Z.of_nat (length (entries c')) ≤ maxEntries c')%Z.
Proof.
  intros Hwf Hadm Hexec Hcap Hlen.
  pose proof (exec_wf c o c' Hwf Hadm Hexec) as Hwf'.
  pose proof (exec_config c o c' Hwf Hadm Hexec) as [= Hmax _ _].
  rewrite Hmax.
  destruct o as [k v|k|k|k|kes|kes]; simpl in *.
  - destruct (Add_refines c k v Hwf) as (c1 & Hrun & _ & Habs & _).
    rewrite Hrun in Hexec. injection Hexec as ->.
    assert (entries c' = (abs c').1.1) as -> by done. rewrite Habs.
    by apply length_abs_Add.
  - destruct (Get_refines c k Hwf) as (c1 & Hrun & _ & Habs & _).
    rewrite Hrun in Hexec. injection Hexec as ->.
    assert (entries c' = (abs c').1.1) as -> by done. rewrite Habs.
    unfold abs, abs_Get.
    destruct (assoc k (entries c)) as [v0|] eqn:Hk; simpl; [|done].
    apply length_without_hit in Hk. lia.
  - rewrite Peek_cached in Hexec by done. by injection Hexec as <-.
  - destruct (Remove_refines c k Hwf) as (c1 & Hrun & _ & Habs & _).
    rewrite Hrun in Hexec. injection Hexec as ->.
    assert (entries c' = (abs c').1.1) as -> by done. rewrite Habs.
    unfold abs, abs_Remove. simpl.
    destruct (assoc k (entries c)) as [v0|]; simpl; [|done].
    pose proof (length_without k (entries c)). lia.
  - rewrite length_entries by done.
    destruct (Purge_spec c kes Hwf Hadm) as (c1 & Hrun & _ & Hl & _).
    rewrite Hrun in Hexec. injection Hexec as ->. rewrite Hl. simpl. lia.
  - rewrite length_entries by done.
    destruct (Close kes c) as [[err c1]|] eqn:Hrun; [|done].
    injection Hexec as ->.
    apply Close_inv in Hrun as (c2 & Hp & Hc).
    destruct (Purge_spec c kes Hwf Hadm) as (c3 & Hrun & _ & Hl & _).
    rewrite Hp in Hrun. injection Hrun as <-.
    apply run_closer_frame in Hc as (_ & -> & _). rewrite Hl. simpl. lia.
Qed.

Lemma run_bounded c os c' :
  wf c → run c os c' →
  (0 < maxEntries c)%Z →
  (Z.of_nat (length (entries c)) ≤ maxEntries c)%Z →
  (Z.of_nat (length (entries c')) ≤ maxEntries c)%Z.
Proof.
  intros Hwf Hrun.
  induction Hrun as [|c o c1 os c2 [Hadm Hexec] _ IH]; [done|].
  intros Hcap Hlen.
  pose proof (exec_config c o c1 Hwf Hadm Hexec) as [= Hmax _ _].
  rewrite <- Hmax. apply IH.
  - by eapply exec_wf.
  - by rewrite Hmax.
  - by eapply exec_bounded.
Qed.

(** The keys that are found have distinct elements of the recency list:
    there are no more of them than the list is long. *)
Lemma cached_keys_bounded c (ks : list K) :
  wf c → NoDup ks → (∀ k, k ∈ ks → is_Some (cached c k)) →
  length ks ≤ length (evictList c).
Proof.
  intros Hwf Hnd Hks.
  assert (∀ k, k ∈ ks → is_Some (items c !! k)) as Hfound.
  { intros k [v (e & He & _)%cached_Some]%Hks; [|done]. by eexists. }
  rewrite <- (omap_length_total (λ k, items c !! k) ks Hfound).
  apply submseteq_length, NoDup_submseteq.
  - clear Hks. induction ks as [|k ks IH]; [constructor|].
    apply NoDup_cons in Hnd as [Hk Hnd].
    destruct (Hfound k) as [e He]; [left|]. csimpl. rewrite He.
    apply NoDup_cons. split.
    + intros (k' & Hk' & He')%list_elem_of_omap. apply Hk.
      by rewrite (wf_items_inj c k k' e Hwf He He').
    + apply IH; [done|]. intros k' Hk'. apply Hfound. by right.
  - intros e (k & _ & He)%list_elem_of_omap. by apply (wf_items c Hwf k).
Qed.

(** C2. In a cache built with a capacity [C > 0], after any operations
    whatever and for keys of any kind, every [Add] completes and leaves at
    most [C] live entries: the recency list, which is what the capacity
    check of [Add] measures, holds at most [C] elements, and no more than
    [C] distinct keys are found in the cache. The index holds at most [C]
    entries as well when each of its keys is equal to itself. *)
Theorem C2_capacity_bound newMetrics unregister (reg : R) (C : Z)
    (cb : option (K → V → W → W)) (w : W) (os : list (op K V)) c k v :
  (0 < C)%Z →
  run (NewWithEvict newMetrics unregister reg C cb w) os c →
  ∃ c', Add k v c = Some (tt, c')
    ∧ (Z.of_nat (length (evictList c')) ≤ C)%Z
    ∧ (Z.of_nat (length (entries c')) ≤ C)%Z
    ∧ (∀ ks, NoDup ks → (∀ k', k' ∈ ks → is_Some (cached c' k')) →
         (Z.of_nat (length ks) ≤ C)%Z)
    ∧ (self_equal_keys c' → (Z.of_nat (live c') ≤ C)%Z).
Proof.
  intros HC Hrun.
  set (c0 := NewWithEvict newMetrics unregister reg C cb w) in *.
  assert (wf c0) as Hwf0 by apply wf_NewWithEvict.
  pose proof (run_wf c0 os c Hwf0 Hrun) as Hwf.
  destruct (Add_total c k v Hwf) as [[[] c'] Hadd].
  assert (run c0 (os ++ [OpAdd k v]) c') as Hrun'.
  { eapply run_snoc; [done|]. split; [done|]. simpl. by rewrite Hadd. }
  pose proof (run_wf c0 _ c' Hwf0 Hrun') as Hwf'.
  assert (Z.of_nat (length (entries c')) ≤ C)%Z as Hlen.
  { apply (run_bounded c0 _ c' Hwf0 Hrun'); [done|]. simpl. lia. }
  exists c'. split; [done|].
  split; [by rewrite <- length_entries|]. split; [done|]. split.
  - intros ks Hnd Hks.
    pose proof (cached_keys_bounded c' ks Hwf' Hnd Hks) as Hle.
    rewrite <- length_entries in Hle by done. lia.
  - intros Hs. by rewrite wf_live, <- length_entries.
Qed.

(** C9. After any operations on a new cache, for keys of any kind: no
    element occurs twice in the recency list, every key that the index
    finds resolves to an element of the list that holds this key, every
    element of the list has an entry in the index under the key it holds,
    the index has at least as many entries as the list, and every further
    operation completes. When all the keys added are equal to themselves,
    the index and the list are in bijection: they have the same size and
    every element of the list is the one the index gives for its key. *)
Theorem C9_index_list_bijection newMetrics unregister (reg : R) (C : Z)
    (cb : option (K → V → W → W)) (w : W) (os : list (op K V)) c :
  run (NewWithEvict newMetrics unregister reg C cb w) os c →
  NoDup (evictList c)
  ∧ (∀ k e, items c !! k = Some e →
       e ∈ evictList c ∧ key <$> elements c !! e = Some k)
  ∧ (∀ e, e ∈ evictList c →
       ∃ kv, elements c !! e = Some kv ∧ (key kv, e) ∈ pairs (items c))
  ∧ length (evictList c) ≤ size (items c)
  ∧ (∀ o, admissible o c → is_Some (exec o c))
  ∧ (Forall (λ k, self_equal k = true) (added_keys os) →
       size (items c) = length (evictList c)
       ∧ ∀ e, e ∈ evictList c →
           ∃ kv, elements c !! e = Some kv ∧ items c !! key kv = Some e).
Proof.
  intros Hrun.
  pose proof (run_wf _ os c (wf_NewWithEvict _ _ _ _ _ _) Hrun) as Hwf.
  split_and!.
  - by apply wf_NoDup.
  - intros k e He. split; [by apply (wf_items c Hwf k)|].
    destruct (wf_lookup_entry c k e Hwf He) as (v & Hv). by rewrite Hv.
  - by apply wf_list.
  - by apply length_evictList_live.
  - intros o Ho. by apply exec_total.
  - intros Hks.
    assert (self_equal_keys c) as Hs.
    { eapply run_self_equal_keys; [apply wf_NewWithEvict|done..|].
      apply new_self_equal_keys. }
    split; [by apply wf_live|].
    intros e He. destruct (wf_list c Hwf e He) as (kv & Hkv & Hin).
    exists kv. split; [done|].
    apply wf_list_lookup; [done..|]. by apply (Hs _ e).
Qed.

End capacity.

(** ** What each method does *)
Section methods.
Context {K : Type} `{Countable K} `{SelfEqual K} {V : Type} `{Inhabited V}
        {W R : Type}.
Implicit Types (c : LRUWithEvict K V W R) (k : K) (v : V).

(** C3. When [k] is cached with [v1], [Add k v2] writes [v2] into the
    element the index already has for [k] (no element is allocated, the
    index is unchanged) and moves this element to the front of the recency
    list; the other entries keep their order. The callback is not called
    (the world is unchanged), no counter moves, and [Get k] then returns
    [(v2, true)]. *)
Theorem C3_Add_overwrites_in_place c k v1 v2 :
  wf c → cached c k = Some v1 →
  ∃ e c', items c !! k = Some e
    ∧ Add k v2 c = Some (tt, c')
    ∧ items c' = items c
    ∧ elements c' = <[e := mkEvictable k v2]> (elements c)
    ∧ next_elem c' = next_elem c
    ∧ evictList c' = e :: GoList.Remove e (evictList c)
    ∧ entries c' = mkEvictable k v2 :: without k (entries c)
    ∧ world c' = world c
    ∧ metrics c' = metrics c
    ∧ ∃ c'', Get k c' = Some ((v2, true), c'').
Proof.
  intros Hwf Hc.
  pose proof (cached_self c k v1 Hc) as Hs.
  pose proof Hc as (e & He & Hv1)%cached_Some; [|done].
  destruct (Add_refines c k v2 Hwf) as (c' & Hadd & Hwf' & Habs & _).
  exists e, c'. split; [done|]. split; [done|].
  pose proof Hadd as Hadd'. rewrite (Add_hit c k v2 e He) in Hadd'.
  injection Hadd' as <-.
  unfold abs, abs_Add in Habs. rewrite (assoc_entries c k Hwf), Hc in Habs.
  injection Habs as Hent. simpl in *.
  split_and!; try done.
  - apply MoveToFront_elem; [apply Hwf|]. by apply (wf_items c Hwf k).
  - destruct (Get_refines _ k Hwf') as (c'' & Hget & _).
    exists c''. rewrite Hget. f_equal. f_equal.
    unfold abs, abs_Get. rewrite Hent. by rewrite assoc_cons_eq.
Qed.

(** C6. [Peek k] returns the pair [Get k] would return and leaves the whole
    state as it was: recency list, index, elements and counters. Hence a
    run that starts with any number of peeks goes on exactly as the run
    without them, and evicts the same keys. *)
Theorem C6_Peek_reads_only c k :
  wf c →
  ∃ r cg, Peek k c = Some (r, c) ∧ Get k c = Some (r, cg)
    ∧ ∀ ks os, exec_all ((OpPeek <$> ks) ++ os) c = exec_all os c.
Proof.
  intros Hwf. destruct (Get_refines c k Hwf) as (cg & Hget & _).
  exists (found (cached c k)), cg. split; [by apply Peek_cached|]. split.
  - rewrite Hget. f_equal. f_equal. unfold abs, abs_Get.
    rewrite (assoc_entries c k Hwf). by destruct (cached c k).
  - intros ks os. induction ks as [|k' ks IH]; [done|].
    csimpl. by rewrite Peek_cached.
Qed.

(** C7. [Remove k] of a key cached with [v] takes the entry out of the
    index and of the recency list, calls the callback once, with [k] and
    [v], and adds one to the eviction counter. [Remove k] of a key that is
    not cached, in particular on an empty cache, returns normally and
    leaves the state as it was. *)
Theorem C7_Remove_present_and_absent c k :
  wf c →
  (∀ v, cached c k = Some v →
     ∃ c', Remove k c = Some (tt, c')
       ∧ cached c' k = None
       ∧ items c' = delete k (items c)
       ∧ entries c' = without k (entries c)
       ∧ world c' = invoke (onEvicted c) k v (world c)
       ∧ metrics c' = inc_evictions (metrics c))
  ∧ (cached c k = None → Remove k c = Some (tt, c))
  ∧ (evictList c = [] → Remove k c = Some (tt, c)).
Proof.
  intros Hwf. split_and!.
  - intros v Hc.
    destruct (Remove_refines c k Hwf) as (c' & Hrm & Hwf' & Habs & Hit & _).
    exists c'. split; [done|].
    unfold abs_Remove, abs in Habs. simpl in Habs.
    rewrite (assoc_entries c k Hwf), Hc in Habs. injection Habs as -> -> ->.
    split_and!; try done.
    apply cached_None; [done|]. rewrite Hit. apply gm_lookup_delete_eq.
  - intros Hc. apply cached_None in Hc; [|done].
    unfold Remove. by rewrite Hc.
  - intros Hl. unfold Remove.
    destruct (items c !! k) as [e|] eqn:He; [|done].
    apply (wf_items c Hwf) in He. rewrite Hl in He.
    by apply elem_of_nil in He.
Qed.

(** What [Purge] does, for keys of any kind. *)
Lemma Purge_calls c kes :
  wf c → range_order c kes →
  ∃ c', Purge kes c = Some (tt, c')
    ∧ items c' = mkMap ∅ (loose (items c))
    ∧ evictList c' = [] ∧ entries c' = []
    ∧ (∀ k, cached c' k = None)
    ∧ key <$> purged c kes = kes.*1
    ∧ world c' = invoke_all (onEvicted c) (purged c kes) (world c)
    ∧ metrics c' = metrics c
    ∧ registry c' = registry c
    ∧ config c' = config c
    ∧ (self_equal_keys c → items c' = ∅ ∧ purged c kes ≡ₚ entries c).
Proof.
  intros Hwf Hkes.
  destruct (Purge_spec c kes Hwf Hkes)
    as (c' & Hrun & Hi & Hl & _ & _ & Hm & Hr & Hcfg & Hw).
  exists c'. split_and!; try done.
  - unfold entries. by rewrite Hl.
  - intros k. unfold cached, value_of. by rewrite Hi, gm_lookup_purged.
  - by apply purged_keys.
  - intros Hs. split; [|by apply purged_perm].
    rewrite Hi. by rewrite (proj1 (self_equal_keys_loose c Hwf) Hs).
Qed.

(** C10. [Purge] calls the callback once for each entry of the index (in
    the order in which [range] yields them), empties the recency list so
    that no key is found any more, and leaves the three counters as they
    were. When each key of the index is equal to itself, these entries are
    the live entries, each once, and the index is empty afterwards.
    [Remove] of a cached key and an [Add] that exceeds the capacity add one
    to the eviction counter. *)
Theorem C10_Purge_keeps_eviction_counter c kes :
  wf c → range_order c kes →
  (∃ c', Purge kes c = Some (tt, c')
     ∧ evictList c' = [] ∧ entries c' = []
     ∧ (∀ k, cached c' k = None)
     ∧ key <$> purged c kes = kes.*1
     ∧ world c' = invoke_all (onEvicted c) (purged c kes) (world c)
     ∧ metrics c' = metrics c
     ∧ (self_equal_keys c → items c' = ∅ ∧ purged c kes ≡ₚ entries c))
  ∧ (∀ k v, cached c k = Some v →
       ∃ c1, Remove k c = Some (tt, c1)
         ∧ evictions (metrics c1) = S (evictions (metrics c)))
  ∧ (∀ k v, cached c k = None → over_capacity (push_entry k v c) = true →
       ∃ c1, Add k v c = Some (tt, c1)
         ∧ evictions (metrics c1) = S (evictions (metrics c))).
Proof.
  intros Hwf Hkes. split_and!.
  - destruct (Purge_calls c kes Hwf Hkes)
      as (c' & ? & _ & ? & ? & ? & ? & ? & ? & _ & _ & ?).
    by exists c'.
  - intros k v Hc.
    destruct (Remove_refines c k Hwf) as (c1 & Hrm & _ & Habs & _).
    exists c1. split; [done|].
    unfold abs_Remove, abs in Habs. simpl in Habs.
    rewrite (assoc_entries c k Hwf), Hc in Habs. by injection Habs as _ _ ->.
  - intros k v Hc Hover. apply cached_None in Hc; [|done].
    pose proof (push_entry_wf c k v Hwf Hc) as Hwf'.
    rewrite (Add_miss c k v Hc), Hover. unfold removeOldest.
    destruct (GoList.Back (evictList (push_entry k v c))) as [e|] eqn:Hb;
      [|by apply Back_None in Hb].
    destruct (Back_entries _ e Hwf' Hb) as (kv & Hkv & _).
    destruct (removeElement_spec _ e kv Hkv) as (c1 & Hrun & _ & _ & Hm & _).
    exists c1. split; [done|]. by rewrite Hm.
Qed.

(** C8. [Close] purges and then runs the closer. Whatever the closer
    returns, the recency list is empty afterwards, no key is found any
    more, and the callback has been called once for each entry of the
    index. The error [Close] returns is the one of the closer (nil when
    there is no closer). When each key of the index is equal to itself, the
    index is empty afterwards, the callback has been called once for each
    live entry, and a second [Close] finds nothing to purge: it does not
    call the callback and moves no counter. *)
Theorem C8_Close_purges_then_releases c kes :
  wf c → range_order c kes →
  ∃ err c1, Close kes c = Some (err, c1)
    ∧ evictList c1 = [] ∧ entries c1 = []
    ∧ (∀ k, cached c1 k = None)
    ∧ key <$> purged c kes = kes.*1
    ∧ world c1 = invoke_all (onEvicted c) (purged c kes) (world c)
    ∧ err = match closer c with
            | Some f => (f (registry c)).1
            | None => None
            end
    ∧ (self_equal_keys c →
         items c1 = ∅ ∧ live c1 = 0
         ∧ purged c kes ≡ₚ entries c
         ∧ ∀ kes', range_order c1 kes' →
             kes' = []
             ∧ ∃ err2 c2, Close kes' c1 = Some (err2, c2)
                 ∧ world c2 = world c1 ∧ metrics c2 = metrics c1
                 ∧ items c2 = ∅ ∧ evictList c2 = []).
Proof.
  intros Hwf Hkes.
  destruct (Purge_calls c kes Hwf Hkes)
    as (cp & Hp & Hi & Hl & Hent & Hnone & Hkeys & Hw & Hm & Hr
        & [= _ _ Hcl] & Hclean).
  destruct (run_closer_total cp) as [[err c1] Hc].
  pose proof (run_closer_frame cp err c1 Hc)
    as (Hi1 & Hl1 & He1 & _ & Hm1 & Hw1 & _).
  exists err, c1. split; [unfold Close; by rewrite Hp|].
  split; [by rewrite Hl1|].
  split; [unfold entries; by rewrite Hl1, Hl|].
  split.
  { intros k. rewrite <- (Hnone k). by apply cached_frame. }
  split; [done|]. split; [by rewrite Hw1|]. split.
  { unfold run_closer in Hc. rewrite Hcl, Hr in Hc.
    destruct (closer c) as [f|]; [|by injection Hc as <-].
    destruct (f (registry c)). by injection Hc as <-. }
  intros Hs. destruct (Hclean Hs) as [Hempty Hperm].
  rewrite <- Hi1 in Hempty.
  split; [done|]. split; [unfold live; by rewrite Hempty, gm_size_empty|].
  split; [done|].
  intros kes' Hkes'. unfold range_order in Hkes'.
  rewrite Hempty, pairs_empty in Hkes'.
  apply Permutation_nil_r in Hkes' as ->. split; [done|].
  destruct (run_closer_total (set_evictList GoList.Init c1))
    as [[err2 c2] Hc2].
  exists err2, c2. split; [exact Hc2|].
  apply run_closer_frame in Hc2 as (Hi2 & Hl2 & _ & _ & Hm2 & Hw2 & _).
  rewrite Hi2, Hl2, Hm2, Hw2. simpl. by rewrite Hempty.
Qed.

(** ** Sequences of operations on the association list *)

Lemma exec_refines c o :
  wf c → simple o →
  ∃ c', exec o c = Some c' ∧ wf c'
    ∧ abs c' = abs_exec (maxEntries c) (onEvicted c) o (abs c)
    ∧ config c' = config c.
Proof.
  intros Hwf Hs. destruct o as [k v|k|k|k|kes|kes]; try done; simpl.
  - destruct (Add_refines c k v Hwf) as (c' & -> & ? & ? & ? & _).
    by exists c'.
  - destruct (Get_refines c k Hwf) as (c' & -> & ? & ? & _ & _ & ? & _).
    by exists c'.
  - rewrite Peek_cached by done. by exists c.
  - destruct (Remove_refines c k Hwf) as (c' & -> & ? & ? & _ & _ & ? & _).
    by exists c'.
Qed.

Lemma exec_all_refines os c :
  wf c → Forall simple os →
  ∃ c', exec_all os c = Some c' ∧ run c os c' ∧ wf c'
    ∧ abs c' = abs_exec_all (maxEntries c) (onEvicted c) os (abs c)
    ∧ config c' = config c.
Proof.
  intros Hwf Hs. revert c Hwf.
  induction Hs as [|o os Ho _ IH]; intros c Hwf.
  - exists c. split_and!; try done. constructor.
  - destruct (exec_refines c o Hwf Ho) as (c1 & Hexec & Hwf1 & Habs & Hcfg).
    destruct (IH c1 Hwf1) as (c' & Hrun & Hsteps & Hwf' & Habs' & Hcfg').
    exists c'. simpl. rewrite Hexec. split; [done|]. split.
    { econstructor; [|done]. split; [|done]. by destruct o. }
    split; [done|].
    injection Hcfg as Hmax Hcb Hcl. split.
    + by rewrite Habs', Habs, Hmax, Hcb.
    + rewrite Hcfg'. unfold config. by rewrite Hmax, Hcb, Hcl.
Qed.

Lemma adds_simple (kvs : list (K * V)) : Forall simple (adds kvs).
Proof. unfold adds. apply Forall_fmap, Forall_true. by intros [k v]. Qed.

Lemma added_keys_adds (kvs : list (K * V)) : added_keys (adds kvs) = kvs.*1.
Proof. induction kvs as [|[k v] kvs IH]; [done|]. simpl. by rewrite IH. Qed.

Lemma keys_to_entry (kvs : list (K * V)) : key <$> (to_entry <$> kvs) = kvs.*1.
Proof. rewrite <- list_fmap_compose. by apply list_fmap_ext. Qed.

(** Adding distinct new keys while there is room puts them in front, the
    last added first. *)
Lemma abs_adds_room cap (cb : option (K → V → W → W)) (kvs : list (K * V))
    (l : list (evictable K V)) (w : W) m :
  NoDup kvs.*1 →
  (∀ k, k ∈ kvs.*1 → k ∉ key <$> l) →
  (Z.of_nat (length l + length kvs) ≤ cap)%Z →
  abs_exec_all cap cb (adds kvs) (l, w, m)
  = (reverse (to_entry <$> kvs) ++ l, w, m).
Proof.
  revert l. induction kvs as [|[k v] kvs IH]; intros l Hnd Hnew Hlen; [done|].
  csimpl in *. apply NoDup_cons in Hnd as [Hk Hnd].
  unfold abs_exec_all in *. simpl.
  assert (assoc k l = None) as ->.
  { apply assoc_None_keys, Hnew. left. }
  rewrite (bool_decide_eq_false_2 (_ > _)%Z), andb_false_r
    by (cbn [length]; lia).
  rewrite IH.
  - by rewrite reverse_cons, <- app_assoc.
  - done.
  - intros k' Hk'. csimpl. apply not_elem_of_cons. split.
    + by intros ->.
    + apply Hnew. by right.
  - cbn [length]. lia.
Qed.

(** C4. In a new cache of capacity [C > 0], adding [C + 1] distinct keys
    [k1, ..., k(C+1)] in order, of which [k2, ..., k(C+1)] are equal to
    themselves, evicts [k1] and nothing else: [k1] is not cached afterwards,
    the callback has been called once, with [k1] and its value, the eviction
    counter is 1, and the other [C] keys are cached with their values, the
    last added first. *)
Theorem C4_oldest_key_evicted newMetrics unregister (reg : R) (C : Z)
    (cb : option (K → V → W → W)) (w : W) k1 v1 (rest : list (K * V)) :
  (0 < C)%Z → Z.of_nat (length rest) = C → NoDup (k1 :: rest.*1) →
  Forall (λ k, self_equal k = true) rest.*1 →
  ∃ c, exec_all (adds ((k1, v1) :: rest))
                (NewWithEvict newMetrics unregister reg C cb w) = Some c
    ∧ cached c k1 = None
    ∧ Peek k1 c = Some ((inhabitant, false), c)
    ∧ (∀ k v, (k, v) ∈ rest →
         cached c k = Some v ∧ Peek k c = Some ((v, true), c))
    ∧ entries c = reverse (to_entry <$> rest)
    ∧ world c = invoke cb k1 v1 w
    ∧ metrics c = mkMetrics 0 0 1
    ∧ Z.of_nat (length (evictList c)) = C
    ∧ (self_equal k1 = true → Z.of_nat (live c) = C).
Proof.
  intros HC Hlen Hnd Hself.
  set (c0 := NewWithEvict newMetrics unregister reg C cb w).
  destruct (exec_all_refines (adds ((k1, v1) :: rest)) c0)
    as (c & Hrun & Hsteps & Hwf & Habs & _);
    [apply wf_NewWithEvict|apply adds_simple|].
  exists c. split; [done|].
  assert (abs c = (reverse (to_entry <$> rest),
                   invoke cb k1 v1 w, mkMetrics 0 0 1)) as Habs'.
  { (* the last key added *)
    destruct rest as [|kvl rest' _] using rev_ind; [simpl in Hlen; lia|].
    destruct kvl as [kl vl].
    assert (k1 ∉ (rest' ++ [(kl, vl)]).*1) as Hk1
      by exact (NoDup_cons_1_1 _ _ Hnd).
    rewrite Habs. unfold abs_exec_all, adds.
    rewrite app_comm_cons, fmap_app, foldl_app.
    pose proof (abs_adds_room C cb ((k1, v1) :: rest') [] w (mkMetrics 0 0 0))
      as Hroom.
    unfold abs_exec_all, adds in Hroom. unfold abs. simpl maxEntries.
    simpl onEvicted. simpl world. simpl metrics.
    change (entries c0) with (@nil (evictable K V)).
    rewrite Hroom; clear Hroom.
    - (* the add that exceeds the capacity *)
      rewrite app_nil_r.
      set (l0 := reverse (to_entry <$> (k1, v1) :: rest')).
      assert (assoc kl l0 = None) as Hkl.
      { apply assoc_None_keys. subst l0. rewrite fmap_reverse, keys_to_entry.
        rewrite elem_of_reverse. csimpl in *.
        rewrite fmap_app in Hnd. csimpl in Hnd.
        intros Hin. apply NoDup_cons in Hnd as [Hk1' Hnd].
        apply NoDup_app in Hnd as (_ & Hdisj & _).
        apply elem_of_cons in Hin as [->|Hin].
        - apply Hk1'. apply elem_of_app. right. left.
        - apply (Hdisj kl Hin). left. }
      assert (length l0 = S (length rest')) as Hl0.
      { subst l0. by rewrite length_reverse, length_fmap. }
      assert (last (mkEvictable kl vl :: l0) = Some (mkEvictable k1 v1))
        as Hlast.
      { subst l0. csimpl. rewrite reverse_cons, app_comm_cons.
        apply last_snoc. }
      cbn [foldl fmap list_fmap abs_exec fst snd].
      rewrite (abs_Add_new_full C cb kl vl l0 w _ (mkEvictable k1 v1));
        [|done|done| |done].
      2:{ rewrite length_app in Hlen. simpl in Hlen. lia. }
      cbn [key value]. f_equal. f_equal.
      assert (l0 = reverse (to_entry <$> rest') ++ [mkEvictable k1 v1])
        as -> by (subst l0; by rewrite fmap_cons, reverse_cons).
      rewrite app_comm_cons, removelast_last.
      by rewrite fmap_app, reverse_app.
    - rewrite fmap_app in Hnd. csimpl in *.
      apply NoDup_cons in Hnd as [Hk1' Hnd].
      apply NoDup_app in Hnd as (Hnd' & _ & _).
      apply NoDup_cons. split; [|done].
      intros Hin. apply Hk1'. apply elem_of_app. by left.
    - intros k _ Hin. by apply elem_of_nil in Hin.
    - rewrite length_app in Hlen. simpl in *. lia. }
  injection Habs' as Hent Hw Hm.
  assert (k1 ∉ rest.*1) as Hk1 by exact (NoDup_cons_1_1 _ _ Hnd).
  assert (cached c k1 = None) as Hc1.
  { rewrite <- (assoc_entries c k1 Hwf), Hent. apply assoc_None_keys.
    by rewrite fmap_reverse, keys_to_entry, elem_of_reverse. }
  assert (Z.of_nat (length (evictList c)) = C) as Hlist.
  { by rewrite <- length_entries, Hent, length_reverse, length_fmap. }
  split_and!; try done.
  - by rewrite Peek_cached, Hc1.
  - intros k v Hin.
    assert (cached c k = Some v) as Hck.
    { rewrite <- (assoc_entries c k Hwf), Hent.
      apply assoc_Some_NoDup.
      - apply (proj1 (Forall_forall _ _) Hself).
        by apply (list_elem_of_fmap_2 fst _ (k, v)).
      - rewrite fmap_reverse, keys_to_entry, reverse_Permutation.
        exact (NoDup_cons_1_2 _ _ Hnd).
      - rewrite elem_of_reverse.
        by apply (list_elem_of_fmap_2 to_entry _ (k, v)). }
    split; [done|]. by rewrite Peek_cached, Hck.
  - intros Hs1. rewrite wf_live; [done..|].
    eapply run_self_equal_keys;
      [apply wf_NewWithEvict|exact Hsteps| |apply new_self_equal_keys].
    rewrite added_keys_adds. csimpl. by apply Forall_cons.
Qed.

(** C5. In a new cache of capacity 2, for distinct keys [k1], [k2], [k3]
    of which [k1] and [k3] are equal to themselves, the run
    [Add k1; Add k2; Get k1; Add k3] evicts [k2] and nothing else: the
    callback is called once, with [k2] and its value, and afterwards [k3]
    and [k1] are cached, in this order of recency. *)
Theorem C5_read_promotes newMetrics unregister (reg : R)
    (cb : option (K → V → W → W)) (w : W) k1 k2 k3 v1 v2 v3 :
  k1 ≠ k2 → k1 ≠ k3 → k2 ≠ k3 →
  self_equal k1 = true → self_equal k3 = true →
  ∃ c, exec_all [OpAdd k1 v1; OpAdd k2 v2; OpGet k1; OpAdd k3 v3]
                (NewWithEvict newMetrics unregister reg 2 cb w) = Some c
    ∧ cached c k2 = None
    ∧ cached c k1 = Some v1
    ∧ cached c k3 = Some v3
    ∧ entries c = [mkEvictable k3 v3; mkEvictable k1 v1]
    ∧ world c = invoke cb k2 v2 w
    ∧ metrics c = mkMetrics 1 0 1.
Proof.
  intros H12 H13 H23 Hs1 Hs3.
  set (c0 := NewWithEvict newMetrics unregister reg 2 cb w).
  destruct (exec_all_refines [OpAdd k1 v1; OpAdd k2 v2; OpGet k1; OpAdd k3 v3]
              c0) as (c & Hrun & _ & Hwf & Habs & _);
    [apply wf_NewWithEvict|repeat constructor|].
  exists c. split; [done|].
  assert (abs c = ([mkEvictable k3 v3; mkEvictable k1 v1],
                   invoke cb k2 v2 w, mkMetrics 1 0 1)) as Habs'.
  { rewrite Habs. unfold abs_exec_all. cbn [foldl abs_exec].
    change (abs c0) with (@nil (evictable K V), w, mkMetrics 0 0 0).
    simpl maxEntries. simpl onEvicted.
    rewrite (abs_Add_new_room 2 cb k1 v1 []); [|done|cbn [length]; lia].
    rewrite (abs_Add_new_room 2 cb k2 v2 [_]);
      [|by rewrite assoc_cons_ne|cbn [length]; lia].
    rewrite (abs_Get_hit k1 v1 [_; _]);
      [|by rewrite assoc_cons_ne, assoc_cons_eq].
    cbn [snd].
    rewrite without_cons_ne, without_cons_eq, without_nil by done.
    rewrite (abs_Add_new_full 2 cb k3 v3 [_; _] _ _ (mkEvictable k2 v2));
      [|by rewrite !assoc_cons_ne|lia|cbn [length]; lia|done].
    done. }
  injection Habs' as Hent Hw Hm.
  rewrite <- !(assoc_entries c _ Hwf), Hent.
  split_and!; try done.
  - by rewrite !assoc_cons_ne.
  - by rewrite assoc_cons_ne, assoc_cons_eq.
  - by rewrite assoc_cons_eq.
Qed.

End methods.

(** ** The concrete caches *)

Lemma two_entries_run :
  run (new_cache 2) [OpAdd 1 10; OpAdd 2 20] two_entries.
Proof.
  eapply run_cons; [split; [exact I|reflexivity]|].
  eapply run_cons; [split; [exact I|]|].
  - vm_compute. reflexivity.
  - apply run_nil.
Defined.

Lemma two_entries_wf : wf two_entries.
Proof.
  exact (run_wf _ _ _ (wf_NewWithEvict _ _ _ _ _ _) two_entries_run).
Defined.

Lemma two_entries_range_order : range_order two_entries [(1, 0); (2, 1)].
Proof. unfold range_order. vm_compute. apply perm_swap. Defined.

(** Every key of a cache keyed by numbers is equal to itself. *)
Lemma nat_self_equal_keys (c : LRUWithEvict nat nat (list (nat * nat)) nat) :
  self_equal_keys c.
Proof. intros k e _. reflexivity. Defined.

(** The cache of capacity 2 after three [Add] of a NaN key. *)
Lemma three_nans_run :
  ∃ c, run (new_fcache 2) [OpAdd FNaN 10; OpAdd FNaN 20; OpAdd FNaN 30] c
    ∧ evictList c = [2; 1]
    ∧ pairs (items c) = [(FNaN, 0); (FNaN, 1); (FNaN, 2)]
    ∧ world c = [(FNaN, 10)].
Proof.
  eexists. split.
  - eapply run_cons; [split; [exact I|vm_compute; reflexivity]|].
    eapply run_cons; [split; [exact I|vm_compute; reflexivity]|].
    eapply run_cons; [split; [exact I|vm_compute; reflexivity]|].
    apply run_nil.
  - vm_compute. done.
Defined.

Lemma C2_capacity_bound_witness :
  (∃ c', Add 3 30 two_entries = Some (tt, c')
     ∧ (Z.of_nat (length (evictList c')) ≤ 2)%Z
     ∧ (Z.of_nat (live c') ≤ 2)%Z)
  ∧ (∃ c c', run (new_fcache 2)
               [OpAdd FNaN 10; OpAdd FNaN 20; OpAdd FNaN 30] c
       ∧ Add FNaN 40 c = Some (tt, c')
       ∧ (Z.of_nat (length (evictList c')) ≤ 2)%Z).
Proof.
  split.
  - destruct (C2_capacity_bound register_metrics unregister_metrics 0 2
                (Some record_call) [] [OpAdd 1 10; OpAdd 2 20] two_entries
                3 30) as (c' & Hadd & Hlist & _ & _ & Hlive).
    + lia.
    + exact two_entries_run.
    + exists c'. split; [exact Hadd|]. split; [exact Hlist|].
      apply Hlive, nat_self_equal_keys.
  - destruct three_nans_run as (c & Hrun & _).
    destruct (C2_capacity_bound register_metrics unregister_metrics 0 2
                (Some record_call) []
                [OpAdd FNaN 10; OpAdd FNaN 20; OpAdd FNaN 30] c FNaN 40)
      as (c' & Hadd & Hlist & _).
    + lia.
    + exact Hrun.
    + by exists c, c'.
Defined.

(** C9 (as stated) fails: after three [Add] of a NaN key at capacity 2 the
    index has three entries and the recency list two, and the element of
    the first entry of the index is no longer in the list. *)
Lemma C9_counterexample :
  ∃ c, run (new_fcache 2) [OpAdd FNaN 10; OpAdd FNaN 20; OpAdd FNaN 30] c
    ∧ size (items c) = 3
    ∧ length (evictList c) = 2
    ∧ (FNaN, 0) ∈ pairs (items c)
    ∧ 0 ∉ evictList c.
Proof.
  destruct three_nans_run as (c & Hrun & Hl & Hp & _).
  exists c. split; [exact Hrun|].
  rewrite gm_size_pairs, Hp, Hl. split; [done|]. split; [done|].
  split; [left|]. apply (bool_decide_unpack _). by vm_compute.
Qed.

Lemma C9_index_list_bijection_witness :
  size (items two_entries) = length (evictList two_entries)
  ∧ ∀ k e, items two_entries !! k = Some e → e ∈ evictList two_entries.
Proof.
  destruct (C9_index_list_bijection register_metrics unregister_metrics 0 2
              (Some record_call) [] [OpAdd 1 10; OpAdd 2 20] two_entries
              two_entries_run) as (_ & Hin & _ & _ & _ & Hbij).
  split.
  - apply Hbij. by repeat constructor.
  - intros k e He. exact (proj1 (Hin k e He)).
Defined.

Lemma C3_Add_overwrites_in_place_witness :
  ∃ c', Add 1 11 two_entries = Some (tt, c')
    ∧ evictList c' = [0; 1]
    ∧ world c' = []
    ∧ metrics c' = mkMetrics 0 0 0
    ∧ ∃ c'', Get 1 c' = Some ((11, true), c'').
Proof.
  destruct (C3_Add_overwrites_in_place two_entries 1 10 11)
    as (e & c' & He & Hadd & _ & _ & _ & Hl & _ & Hw & Hm & Hget).
  - exact two_entries_wf.
  - reflexivity.
  - exists c'. injection He as <-. repeat split; assumption.
Defined.

(** C4 (as stated) fails: at capacity 1, after [Add] of the distinct keys
    1 and NaN the key 1 has been evicted, and NaN, the last key added, is
    not found. *)
Lemma C4_counterexample :
  NoDup [FNum 1; FNaN]
  ∧ ∃ c, exec_all (adds [(FNum 1, 10); (FNaN, 20)]) (new_fcache 1) = Some c
      ∧ world c = [(FNum 1, 10)]
      ∧ cached c FNaN = None
      ∧ Peek FNaN c = Some ((0, false), c).
Proof.
  split; [apply (bool_decide_unpack _); by vm_compute|].
  eexists. split; [vm_compute; reflexivity|]. by vm_compute.
Qed.

Lemma C4_oldest_key_evicted_witness :
  ∃ c, exec_all [OpAdd 1 10; OpAdd 2 20; OpAdd 3 30] (new_cache 2) = Some c
    ∧ cached c 1 = None
    ∧ cached c 2 = Some 20 ∧ cached c 3 = Some 30
    ∧ world c = [(1, 10)]
    ∧ evictions (metrics c) = 1.
Proof.
  destruct (C4_oldest_key_evicted register_metrics unregister_metrics 0 2
              (Some record_call) [] 1 10 [(2, 20); (3, 30)])
    as (c & Hrun & Hgone & _ & Hrest & _ & Hw & Hm & _).
  - lia.
  - reflexivity.
  - apply (bool_decide_unpack _). vm_compute. exact I.
  - by repeat constructor.
  - exists c. split; [exact Hrun|]. split; [exact Hgone|].
    split; [apply (Hrest 2 20); left|].
    split; [apply (Hrest 3 30); right; left|].
    split; [exact Hw|]. rewrite Hm. reflexivity.
Defined.

(** C5 (as stated) fails: with [k1] a NaN, [Get k1] misses and promotes
    nothing, so the [Add] of [k3] evicts [k1] and [k2] stays cached. *)
Lemma C5_counterexample :
  FNaN ≠ FNum 2 ∧ FNaN ≠ FNum 3 ∧ FNum 2 ≠ FNum 3
  ∧ ∃ c, exec_all [OpAdd FNaN 10; OpAdd (FNum 2) 20; OpGet FNaN;
                   OpAdd (FNum 3) 30] (new_fcache 2) = Some c
      ∧ world c = [(FNaN, 10)]
      ∧ cached c (FNum 2) = Some 20
      ∧ cached c FNaN = None.
Proof.
  split; [done|]. split; [done|]. split; [done|].
  eexists. split; [vm_compute; reflexivity|]. by vm_compute.
Qed.

Lemma C5_read_promotes_witness :
  ∃ c, exec_all [OpAdd 1 10; OpAdd 2 20; OpGet 1; OpAdd 3 30] (new_cache 2)
       = Some c
    ∧ cached c 2 = None ∧ cached c 1 = Some 10 ∧ cached c 3 = Some 30
    ∧ world c = [(2, 20)].
Proof.
  destruct (C5_read_promotes register_metrics unregister_metrics 0
              (Some record_call) [] 1 2 3 10 20 30)
    as (c & Hrun & Hc2 & Hc1 & Hc3 & _ & Hw & _); [lia..|done|done|].
  exists c. repeat split; assumption.
Defined.

Lemma C6_Peek_reads_only_witness :
  ∃ r cg, Peek 1 two_entries = Some (r, two_entries)
    ∧ Get 1 two_entries = Some (r, cg)
    ∧ exec_all [OpPeek 1; OpPeek 1; OpPeek 7; OpAdd 3 30] two_entries
      = exec_all [OpAdd 3 30] two_entries.
Proof.
  destruct (C6_Peek_reads_only two_entries 1 two_entries_wf)
    as (r & cg & Hpeek & Hget & Hruns).
  exists r, cg. split; [exact Hpeek|]. split; [exact Hget|].
  exact (Hruns [1; 1; 7] [OpAdd 3 30]).
Defined.

Lemma C7_Remove_present_and_absent_witness :
  (∃ c', Remove 2 two_entries = Some (tt, c')
     ∧ cached c' 2 = None
     ∧ world c' = [(2, 20)]
     ∧ evictions (metrics c') = 1)
  ∧ Remove 5 two_entries = Some (tt, two_entries).
Proof.
  destruct (C7_Remove_present_and_absent two_entries 2 two_entries_wf)
    as (Hpresent & _ & _).
  destruct (C7_Remove_present_and_absent two_entries 5 two_entries_wf)
    as (_ & Habsent & _).
  split.
  - destruct (Hpresent 20) as (c' & Hrm & Hc & _ & _ & Hw & Hm);
      [reflexivity|].
    exists c'. rewrite Hm. repeat split; assumption.
  - apply Habsent. reflexivity.
Defined.

(** C8 (as stated) fails: after [Add] of a NaN key, [Close] leaves the
    entry in the index, and a second [Close] calls the callback for it once
    more. [range] has one possible order here. *)
Lemma C8_counterexample :
  ∃ c err c1 err2 c2,
    run (new_fcache 2) [OpAdd FNaN 10] c
    ∧ entries c = [mkEvictable FNaN 10]
    ∧ (∀ kes, range_order c kes → kes = [(FNaN, 0)])
    ∧ Close [(FNaN, 0)] c = Some (err, c1)
    ∧ size (items c1) = 1
    ∧ world c1 = [(FNaN, 10)]
    ∧ (∀ kes, range_order c1 kes → kes = [(FNaN, 0)])
    ∧ Close [(FNaN, 0)] c1 = Some (err2, c2)
    ∧ world c2 = [(FNaN, 10); (FNaN, 10)].
Proof.
  eexists _, _, _, _, _. split.
  { eapply run_cons; [split; [exact I|vm_compute; reflexivity]|].
    apply run_nil. }
  split; [by vm_compute|]. split.
  { intros kes Hkes. unfold range_order in Hkes. vm_compute in Hkes.
    by apply Permutation_singleton_r in Hkes. }
  split; [vm_compute; reflexivity|]. split; [by vm_compute|].
  split; [by vm_compute|]. split.
  { intros kes Hkes. unfold range_order in Hkes. vm_compute in Hkes.
    by apply Permutation_singleton_r in Hkes. }
  split; [vm_compute; reflexivity|]. by vm_compute.
Qed.

Lemma C8_Close_purges_then_releases_witness :
  ∃ err c1, Close [(1, 0); (2, 1)] two_entries = Some (err, c1)
    ∧ items c1 = ∅ ∧ evictList c1 = []
    ∧ err = None
    ∧ ∃ err2 c2, Close [] c1 = Some (err2, c2) ∧ world c2 = world c1.
Proof.
  destruct (C8_Close_purges_then_releases two_entries [(1, 0); (2, 1)])
    as (err & c1 & Hclose & Hl & _ & _ & _ & _ & Herr & Hclean).
  - exact two_entries_wf.
  - exact two_entries_range_order.
  - destruct (Hclean (nat_self_equal_keys _)) as (Hi & _ & _ & Hsecond).
    exists err, c1. split; [exact Hclose|]. split; [exact Hi|].
    split; [exact Hl|]. split; [exact Herr|].
    destruct (Hsecond []) as (_ & err2 & c2 & Hclose2 & Hw & _).
    + unfold range_order. rewrite Hi. reflexivity.
    + by exists err2, c2.
Defined.

(** C10 (as stated) fails: at capacity 1, after [Add] of NaN and of 1 the
    entry of NaN has been evicted and is still in the index. [Purge], for
    either order of [range], calls the callback for it again and leaves it
    in the index. *)
Lemma C10_counterexample :
  ∃ c, run (new_fcache 1) [OpAdd FNaN 10; OpAdd (FNum 1) 20] c
    ∧ entries c = [mkEvictable (FNum 1) 20]
    ∧ world c = [(FNaN, 10)]
    ∧ ∀ kes, range_order c kes →
        ∃ c', Purge kes c = Some (tt, c')
          ∧ size (items c') = 1
          ∧ (FNaN, 10) ∈ drop 1 (world c').
Proof.
  eexists. split.
  { eapply run_cons; [split; [exact I|vm_compute; reflexivity]|].
    eapply run_cons; [split; [exact I|vm_compute; reflexivity]|].
    apply run_nil. }
  split; [by vm_compute|]. split; [by vm_compute|].
  intros kes Hkes. unfold range_order in Hkes. vm_compute in Hkes.
  symmetry in Hkes. apply Permutation_length_2_inv in Hkes as [->| ->].
  - eexists. split; [vm_compute; reflexivity|]. split; [by vm_compute|].
    apply (bool_decide_unpack _). by vm_compute.
  - eexists. split; [vm_compute; reflexivity|]. split; [by vm_compute|].
    apply (bool_decide_unpack _). by vm_compute.
Qed.

Lemma C10_Purge_keeps_eviction_counter_witness :
  ∃ c', Purge [(1, 0); (2, 1)] two_entries = Some (tt, c')
    ∧ items c' = ∅ ∧ evictList c' = []
    ∧ metrics c' = mkMetrics 0 0 0.
Proof.
  destruct (C10_Purge_keeps_eviction_counter two_entries [(1, 0); (2, 1)])
    as ((c' & Hp & Hl & _ & _ & _ & _ & Hm & Hclean) & _ & _).
  - exact two_entries_wf.
  - exact two_entries_range_order.
  - destruct (Hclean (nat_self_equal_keys _)) as [Hi _]. by exists c'.
Defined.

End LRUProps.

(* ===================================================================== *)
(** * More on the statistics collector                                    *)
(* ===================================================================== *)

Module StatsMore.
Import Stats StatsProps.

(** What [getUnwinderStats] does, in both cases of the read. *)
Lemma getUnwinderStats_cases (c : bpfMetricsCollector) (o : Out) :
  ∃ s l, getUnwinderStats c o = Some (s, mkOut (ch o) (logged o ++ l))
    ∧ (((readCounters c).2 = None ∧ s = (readCounters c).1 ∧ l = [])
       ∨ (∃ e, (readCounters c).2 = Some e ∧ s = unwinderStats_zero
               ∧ l = [mkLog "error" "readPerCpuCounter failed" e])).
Proof.
  unfold getUnwinderStats. destruct (readCounters c) as [stats [e|]]; simpl.
  - exists unwinderStats_zero, [mkLog "error" "readPerCpuCounter failed" e].
    split; [done|]. right. by exists e.
  - exists stats, []. destruct o as [c0 l0]. simpl. rewrite app_nil_r.
    split; [done|]. by left.
Qed.

Lemma Collect_shape (c : bpfMetricsCollector) (o : Out) :
  map_names_valid c →
  ∃ s l,
    Collect c o
    = Some (tt, mkOut (ch o ++ flat_map map_measurements (getBPFMetrics c)
                            ++ stats_measurements s)
                      (logged o ++ l))
    ∧ (((readCounters c).2 = None ∧ s = (readCounters c).1 ∧ l = [])
       ∨ (∃ e, (readCounters c).2 = Some e ∧ s = unwinderStats_zero
               ∧ l = [mkLog "error" "readPerCpuCounter failed" e])).
Proof.
  intros Hnames.
  set (o1 := mkOut (ch o ++ flat_map map_measurements (getBPFMetrics c))
                   (logged o)).
  destruct (getUnwinderStats_cases c o1) as (s & l & Hget & Hcases).
  exists s, l. split; [|done].
  unfold Collect. erewrite bind_Some; [|by apply Collect_maps_loop].
  fold o1. rewrite (collectUnwinderStatistics_sends c o1 s _ Hget).
  simpl. by rewrite <- app_assoc.
Qed.

Lemma length_map_measurements (bs : list bpfMetrics) :
  length (flat_map map_measurements bs) = 4 * length bs.
Proof. induction bs as [|b bs IH]; simpl in *; lia. Qed.

(** X1. [Collect] completes exactly when the names of the BPF maps are valid
    UTF-8, whether or not the counter read fails. It then sends four gauges
    for each BPF map and ten counters for the unwinder, after what was on
    the channel. A map name that is not valid UTF-8 makes it panic. *)
Theorem Collect_completes_iff_names_valid (c : bpfMetricsCollector) (o : Out) :
  (map_names_valid c →
     ∃ o' new, Collect c o = Some (tt, o')
       ∧ ch o' = ch o ++ new
       ∧ length new = 4 * length (getBPFMetrics c) + 10)
  ∧ (¬ map_names_valid c → Collect c o = None).
Proof.
  split.
  - intros Hnames. destruct (Collect_shape c o Hnames) as (s & l & Hrun & _).
    eexists _, _. split; [exact Hrun|]. split; [done|].
    rewrite length_app, length_map_measurements. simpl. lia.
  - intros Hbad. unfold Collect, mbind, M_bind.
    by rewrite Collect_maps_loop_panics.
Qed.

Lemma Collect_completes_iff_names_valid_witness :
  (∃ o', Collect working_collector empty_out = Some (tt, o')
         ∧ length (ch o') = 18)
  ∧ Collect bad_name_collector empty_out = None.
Proof.
  split.
  - destruct (Collect_completes_iff_names_valid working_collector empty_out)
      as [Hok _].
    destruct Hok as (o' & new & Hrun & Hch & Hlen); [repeat constructor|].
    exists o'. split; [exact Hrun|]. rewrite Hch. exact Hlen.
  - destruct (Collect_completes_iff_names_valid bad_name_collector empty_out)
      as [_ Hbad].
    apply Hbad. intros Hnames.
    apply Forall_cons in Hnames as [_ Hnames].
    apply Forall_cons in Hnames as [Hname _]. discriminate Hname.
Defined.

(** X2. When the counter read succeeds and the names of the BPF maps are
    valid UTF-8, [Collect] writes nothing to the log and the ten unwinder
    counters carry the fields that were read, each converted to [float64],
    after the gauges of the BPF maps. *)
Theorem Collect_read_success (c : bpfMetricsCollector) (o : Out)
    (stats : unwinderStats) :
  map_names_valid c →
  readCounters c = (stats, None) →
  Collect c o
  = Some (tt, mkOut (ch o ++ flat_map map_measurements (getBPFMetrics c)
                          ++ stats_measurements stats)
                    (logged o)).
Proof.
  intros Hnames Hread.
  destruct (Collect_shape c o Hnames) as (s & l & Hrun & Hcases).
  rewrite Hread in Hcases. simpl in Hcases.
  destruct Hcases as [(_ & -> & ->)|(e & He & _)]; [|done].
  by rewrite app_nil_r in Hrun.
Qed.

Lemma Collect_read_success_witness :
  ∃ o', Collect working_collector empty_out = Some (tt, o')
    ∧ logged o' = []
    ∧ val <$> unwinder_measurements (ch o')
      = float64_of_uint64 <$> [7; 5; 1; 0; 0; 0; 1; 0; 0; 0]%Z.
Proof.
  eexists. split.
  - apply (Collect_read_success working_collector empty_out
             (mkUnwinderStats 7 5 1 0 0 0 1 0 0 0)).
    + repeat constructor.
    + reflexivity.
  - split; reflexivity.
Defined.

Lemma map_measurements_described (bs : list bpfMetrics) :
  Forall (λ m, desc m ∈ Describe []
               ∧ length (labelValues m) = length (variableLabels (desc m)))
         (flat_map map_measurements bs).
Proof.
  induction bs as [|b bs IH]; [constructor|]. simpl.
  repeat (constructor; [split; [unfold Describe; set_solver|done]|]).
  exact IH.
Qed.

(** X3. [Describe] and [Collect] agree: when the names of the BPF maps are
    valid UTF-8, so that [Collect] completes, every metric it sends has one
    of the seven descriptors [Describe] announces, and exactly as many label
    values as this descriptor has labels. *)
Theorem Collect_sends_described_metrics (c : bpfMetricsCollector) (o : Out) :
  map_names_valid c →
  ∃ o' new, Collect c o = Some (tt, o')
    ∧ ch o' = ch o ++ new
    ∧ length (Describe []) = 7
    ∧ Forall (λ m, desc m ∈ Describe []
                   ∧ length (labelValues m)
                     = length (variableLabels (desc m))) new.
Proof.
  intros Hnames. destruct (Collect_shape c o Hnames) as (s & l & Hrun & _).
  eexists _, _. split; [exact Hrun|]. split; [done|]. split; [done|].
  apply Forall_app. split; [apply map_measurements_described|].
  unfold stats_measurements.
  repeat (constructor; [split; [unfold Describe; set_solver|done]|]).
  constructor.
Qed.

Lemma Collect_sends_described_metrics_witness :
  ∃ o', Collect working_collector empty_out = Some (tt, o')
    ∧ Forall (λ m, desc m ∈ Describe []) (ch o').
Proof.
  destruct (Collect_sends_described_metrics working_collector empty_out)
    as (o' & new & Hrun & Hch & _ & Hdesc); [repeat constructor|].
  exists o'. split; [exact Hrun|]. rewrite Hch. simpl.
  eapply Forall_impl; [exact Hdesc|]. by intros m [Hm _].
Defined.

(** The names under which the gauges of the BPF maps and the counters of the
    unwinder are sent. *)
Lemma map_measurement_ids (bs : list bpfMetrics) (i : string * list string) :
  i ∈ metric_id <$> flat_map map_measurements bs →
  ∃ b, b ∈ bs ∧ i.2 = [mapName b]
    ∧ i.1 ∈ fqName <$> [descBPFMemlock; descBPFMapKeySize;
                        descBPFMapValueSize; descBPFMapMaxEntries].
Proof.
  intros (m & -> & Hm)%list_elem_of_fmap.
  apply list_elem_of_In, in_flat_map in Hm as (b & Hb%list_elem_of_In & Hm).
  exists b. split; [done|].
  unfold map_measurements in Hm. simpl in Hm.
  destruct Hm as [<-|[<-|[<-|[<-|[]]]]]; (split; [done|]); simpl; set_solver.
Qed.

Lemma map_measurement_ids_NoDup (bs : list bpfMetrics) :
  NoDup (mapName <$> bs) →
  NoDup (metric_id <$> flat_map map_measurements bs).
Proof.
  induction bs as [|b bs IH]; [constructor|].
  csimpl. intros [Hb Hnd]%NoDup_cons.
  assert (∀ i, i ∈ metric_id <$> flat_map map_measurements bs →
               i.2 ≠ [mapName b]) as Hother.
  { intros i (b' & Hb' & -> & _)%map_measurement_ids [= Heq].
    apply Hb. rewrite <- Heq. by apply list_elem_of_fmap_2. }
  unfold metric_id at 1 2 3 4. simpl.
  repeat (apply NoDup_cons; split;
          [rewrite ?not_elem_of_cons;
           repeat (split; [discriminate|]);
           intros Hin; by apply (Hother _ Hin)|]).
  by apply IH.
Qed.

(** X4. When the BPF maps have distinct names that are valid UTF-8, no two
    metrics of one collection cycle have the same name and label values, so
    the registry accepts the scrape; this holds whether or not the counter
    read fails. *)
Theorem Collect_metric_ids_distinct (c : bpfMetricsCollector) :
  map_names_valid c →
  NoDup (mapName <$> getBPFMetrics c) →
  ∃ o', Collect c empty_out = Some (tt, o') ∧ NoDup (metric_id <$> ch o').
Proof.
  intros Hvalid Hnames.
  destruct (Collect_shape c empty_out Hvalid) as (s & l & Hrun & _).
  eexists. split; [exact Hrun|]. simpl. rewrite fmap_app.
  apply NoDup_app. split_and!.
  - by apply map_measurement_ids_NoDup.
  - intros i (b & _ & _ & Hname)%map_measurement_ids Hin.
    apply list_elem_of_fmap in Hin as (m & -> & Hm).
    assert (fqName (desc m)
            ∈ fqName <$> [descNativeUnwinderTotalSamples;
                          descNativeUnwinderSuccess;
                          descNativeUnwinderErrors]) as Hunw.
    { unfold stats_measurements in Hm.
      repeat (apply elem_of_cons in Hm as [->|Hm];
              [simpl; first [by left|by right; left|by right; right; left]|]).
      by apply elem_of_nil in Hm. }
    simpl in Hname. revert Hname Hunw.
    generalize (fqName (desc m)). intros n Hn Hu.
    repeat (apply elem_of_cons in Hn as [->|Hn];
            [repeat (apply elem_of_cons in Hu as [Hu|Hu]; [discriminate Hu|]);
             by apply elem_of_nil in Hu|]).
    by apply elem_of_nil in Hn.
  - apply (bool_decide_unpack _). by vm_compute.
Qed.

Lemma Collect_metric_ids_distinct_witness :
  ∃ o', Collect working_collector empty_out = Some (tt, o')
    ∧ NoDup (metric_id <$> ch o') ∧ length (ch o') = 18.
Proof.
  destruct (Collect_metric_ids_distinct working_collector) as (o' & Hrun & Hnd).
  - repeat constructor.
  - apply (bool_decide_unpack _). vm_compute. exact I.
  - exists o'. split; [exact Hrun|]. split; [exact Hnd|].
    vm_compute in Hrun. injection Hrun as <-. reflexivity.
Defined.

End StatsMore.

(* ===================================================================== *)
(** * More on the LRU cache                                               *)
(* ===================================================================== *)

Module LRUMore.
Import LRU LRUProps.

Section lookups.
Context {K : Type} `{Countable K} `{SelfEqual K} {V : Type} `{Inhabited V}
        {W R : Type}.
Implicit Types (c : LRUWithEvict K V W R) (k : K) (v : V)
               (kv : evictable K V).

(** X5. [Get] returns what is cached for the key (the zero value and
    [false] on a miss). It changes neither what is cached for any key, nor
    the number of entries, nor the eviction counter, and it does not call
    the callback. A hit adds one to the hit counter only, a miss adds one to
    the miss counter only and leaves the recency order as it was. *)
Theorem Get_returns_cached c k :
  wf c →
  ∃ c', Get k c = Some (found (cached c k), c')
    ∧ (∀ k', cached c' k' = cached c k')
    ∧ live c' = live c
    ∧ world c' = world c
    ∧ evictions (metrics c') = evictions (metrics c)
    ∧ (is_Some (cached c k) →
         hits (metrics c') = S (hits (metrics c))
         ∧ misses (metrics c') = misses (metrics c))
    ∧ (cached c k = None →
         hits (metrics c') = hits (metrics c)
         ∧ misses (metrics c') = S (misses (metrics c))
         ∧ entries c' = entries c).
Proof.
  intros Hwf.
  destruct (Get_refines c k Hwf) as (c' & Hget & _ & Habs & Hi & He & _).
  exists c'. unfold abs, abs_Get in *.
  rewrite (assoc_entries c k Hwf) in *.
  destruct (cached c k) as [v|] eqn:Hc; simpl in *;
    injection Habs as Hent Hw Hm; rewrite Hm; simpl.
  - split_and!; try done.
    + intros k'. by apply cached_frame.
    + unfold live. by rewrite Hi.
  - split_and!; try done.
    + intros k'. by apply cached_frame.
    + unfold live. by rewrite Hi.
Qed.

(** What is cached for a key once an entry for it is at the front. *)
Lemma cached_front c k v l :
  wf c → entries c = mkEvictable k v :: l →
  cached c k = (if self_equal k then Some v else None).
Proof.
  intros Hwf Hent. destruct (self_equal k) eqn:Hs.
  - rewrite <- (assoc_entries c k Hwf), Hent. by apply assoc_cons_eq.
  - by apply cached_not_self.
Qed.

Lemma assoc_snoc_ne k kv (l : list (evictable K V)) :
  key kv ≠ k → assoc k (l ++ [kv]) = assoc k l.
Proof.
  intros Hne. induction l as [|kv' l IH]; simpl.
  - rewrite decide_False; [done|]. by intros [_ ?].
  - by rewrite IH.
Qed.

(** [Add] of a key that is not cached, when there is room in the recency
    list. *)
Lemma Add_new_abs_room c k v :
  wf c → cached c k = None →
  maxEntries c = 0%Z
  ∨ (Z.of_nat (length (evictList c)) < maxEntries c)%Z →
  ∃ c', Add k v c = Some (tt, c') ∧ wf c'
    ∧ abs c' = (mkEvictable k v :: entries c, world c, metrics c)
    ∧ items c' = <[k := next_elem c]> (items c).
Proof.
  intros Hwf Hc Hroom. apply cached_None in Hc; [|done].
  exists (push_entry k v c). rewrite (Add_miss c k v Hc).
  assert (over_capacity (push_entry k v c) = false) as ->.
  { rewrite over_capacity_push by done. cbn [length].
    rewrite (length_entries c Hwf). destruct Hroom as [->|Hlt].
    - by rewrite bool_decide_eq_false_2 by (intros Hne; by apply Hne).
    - rewrite (bool_decide_eq_false_2 (_ > _)%Z) by lia.
      by rewrite andb_false_r. }
  split; [done|]. split; [by apply push_entry_wf|].
  unfold abs. by rewrite push_entry_entries.
Qed.

(** [Add] of a key that is not cached, when the recency list is full. *)
Lemma Add_new_abs_full c k v kv :
  wf c → cached c k = None →
  maxEntries c ≠ 0%Z → (maxEntries c ≤ Z.of_nat (length (entries c)))%Z →
  last (entries c) = Some kv →
  ∃ c', Add k v c = Some (tt, c') ∧ wf c'
    ∧ abs c' = (mkEvictable k v :: removelast (entries c),
                invoke (onEvicted c) (key kv) (value kv) (world c),
                inc_evictions (metrics c))
    ∧ items c' = delete (key kv) (<[k := next_elem c]> (items c)).
Proof.
  intros Hwf Hc Hmax Hfull Hlast.
  destruct (Add_total c k v Hwf) as [[[] c'] Hadd].
  exists c'. split; [done|]. split; [by eapply Add_wf|].
  apply cached_None in Hc; [|done].
  rewrite (Add_miss c k v Hc) in Hadd.
  pose proof (push_entry_wf c k v Hwf Hc) as Hwf'.
  pose proof (push_entry_entries c k v Hwf) as Hent.
  assert (over_capacity (push_entry k v c) = true) as Hover.
  { rewrite over_capacity_push by done. cbn [length].
    rewrite bool_decide_eq_true_2 by done.
    by rewrite bool_decide_eq_true_2 by lia. }
  rewrite Hover in Hadd. unfold removeOldest in Hadd.
  destruct (GoList.Back (evictList (push_entry k v c))) as [e|] eqn:Hb;
    [|by apply Back_None in Hb].
  destruct (Back_entries _ e Hwf' Hb) as (kv' & Hkv & Hlast').
  rewrite Hent, last_cons, Hlast in Hlast'. injection Hlast' as <-.
  destruct (removeElement_spec _ e kv Hkv)
    as (c'' & Hrun & Hent' & Hw & Hm & Hit & _).
  rewrite Hadd in Hrun. injection Hrun as <-.
  rewrite (entries_Remove_Back _ e Hwf' Hb), Hent in Hent'.
  split; [|done]. unfold abs. rewrite Hent', Hw, Hm. f_equal. f_equal.
  destruct (entries c) as [|kv0 l]; [done|]. done.
Qed.

(** X6. With a capacity that is not negative, a key that was just added
    and is equal to itself is cached with the value added: [Peek] and [Get]
    return it. A key that is not equal to itself is not found, even just
    after it was added: [Peek] and [Get] return the zero value and
    [false]. *)
Theorem Add_then_lookup c k v :
  wf c → (0 ≤ maxEntries c)%Z →
  ∃ c', Add k v c = Some (tt, c')
    ∧ (self_equal k = true →
         cached c' k = Some v
         ∧ Peek k c' = Some ((v, true), c')
         ∧ ∃ c'', Get k c' = Some ((v, true), c''))
    ∧ (self_equal k = false →
         cached c' k = None
         ∧ Peek k c' = Some ((inhabitant, false), c')
         ∧ ∃ c'', Get k c' = Some ((inhabitant, false), c'')).
Proof.
  intros Hwf Hcap.
  assert (∃ c', Add k v c = Some (tt, c') ∧ wf c'
                ∧ ∃ l, entries c' = mkEvictable k v :: l)
    as (c' & Hadd & Hwf' & l & Hent).
  { destruct (cached c k) as [v0|] eqn:Hc.
    - destruct (Add_refines c k v Hwf) as (c' & Hadd & Hwf' & Habs & _).
      exists c'. split; [done|]. split; [done|].
      unfold abs, abs_Add in Habs.
      rewrite (assoc_entries c k Hwf), Hc in Habs.
      injection Habs as Hent _ _. by eexists.
    - destruct (decide (maxEntries c = 0%Z
                        ∨ (Z.of_nat (length (evictList c)) < maxEntries c)%Z))
        as [Hroom|Hfull].
      + destruct (Add_new_abs_room c k v Hwf Hc Hroom)
          as (c' & Hadd & Hwf' & [= Hent _ _] & _).
        exists c'. split; [done|]. split; [done|]. by eexists.
      + rewrite <- (length_entries c Hwf) in Hfull.
        destruct (last (entries c)) as [kv|] eqn:Hlast.
        * destruct (Add_new_abs_full c k v kv Hwf Hc)
            as (c' & Hadd & Hwf' & [= Hent _ _] & _); [lia|lia|done|].
          exists c'. split; [done|]. split; [done|]. by eexists.
        * apply last_None in Hlast. rewrite Hlast in Hfull.
          simpl in Hfull. lia. }
  pose proof (cached_front c' k v l Hwf' Hent) as Hc'.
  destruct (Get_refines c' k Hwf') as (c'' & Hget & _).
  unfold abs, abs_Get in Hget. rewrite (assoc_entries c' k Hwf') in Hget.
  exists c'. split; [done|]. split; intros Hs; rewrite Hs in Hc'.
  - split; [done|]. split; [by rewrite Peek_cached, Hc'|].
    exists c''. by rewrite Hc' in Hget.
  - split; [done|]. split; [by rewrite Peek_cached, Hc'|].
    exists c''. by rewrite Hc' in Hget.
Qed.

(** X7. When the recency list is full, [Add] of a key that is not cached
    evicts the entry at the back of the recency order and no other: the
    callback is called once, with this entry, the eviction counter grows by
    one, the new entry goes to the front, and every other key keeps its
    value. The index keeps its size when the key evicted is equal to
    itself; otherwise the entry of this key stays in the index, which grows
    by one. *)
Theorem Add_full_evicts_least_recent c k v kv :
  wf c → cached c k = None →
  maxEntries c ≠ 0%Z → (maxEntries c ≤ Z.of_nat (length (entries c)))%Z →
  last (entries c) = Some kv →
  ∃ c', Add k v c = Some (tt, c')
    ∧ entries c' = mkEvictable k v :: removelast (entries c)
    ∧ cached c' (key kv) = None
    ∧ cached c' k = (if self_equal k then Some v else None)
    ∧ (∀ k', k' ≠ k → k' ≠ key kv → cached c' k' = cached c k')
    ∧ world c' = invoke (onEvicted c) (key kv) (value kv) (world c)
    ∧ metrics c' = inc_evictions (metrics c)
    ∧ live c' = (if self_equal (key kv) then live c else S (live c)).
Proof.
  intros Hwf Hc Hmax Hfull Hlast.
  destruct (Add_new_abs_full c k v kv Hwf Hc Hmax Hfull Hlast)
    as (c' & Hadd & Hwf' & [= Hent Hw Hm] & Hit).
  pose proof (proj1 (cached_None c k Hwf) Hc) as Hk.
  exists c'. split; [done|]. split; [done|].
  split_and!; try done.
  - apply cached_None; [done|]. rewrite Hit. apply gm_lookup_delete_eq.
  - by eapply cached_front.
  - intros k' Hne Hne'. rewrite <- (assoc_entries c' _ Hwf'), Hent.
    rewrite assoc_cons_ne by (simpl; congruence).
    rewrite <- (assoc_entries c _ Hwf).
    rewrite <- (last_removelast _ _ Hlast) at 2.
    by rewrite assoc_snoc_ne.
  - unfold live. rewrite Hit.
    pose proof (gm_size_insert_None k (next_elem c) (items c) Hk) as Hins.
    destruct (self_equal (key kv)) eqn:Hs.
    + apply last_Some_elem_of, elem_of_entries in Hlast as (e & He & Hkv).
      pose proof (wf_list_lookup c e kv Hwf He Hkv Hs) as Hlk.
      assert (k ≠ key kv) as Hne by (intros ->; congruence).
      pose proof (gm_size_delete_Some (key kv) e
                    (<[k := next_elem c]> (items c))) as Hdel.
      rewrite gm_lookup_insert_ne in Hdel by done.
      specialize (Hdel Hlk). lia.
    + by rewrite gm_delete_not_self.
Qed.


(** X9. [Remove] takes out the key and nothing else: every other key keeps
    its value and the entries keep their order. Removing the key a second
    time changes nothing. *)
Theorem Remove_only_that_key c k :
  wf c →
  ∃ c1, Remove k c = Some (tt, c1)
    ∧ cached c1 k = None
    ∧ (∀ k', k' ≠ k → cached c1 k' = cached c k')
    ∧ entries c1 = without k (entries c)
    ∧ Remove k c1 = Some (tt, c1).
Proof.
  intros Hwf.
  destruct (Remove_refines c k Hwf) as (c1 & Hrm & Hwf1 & Habs & Hit & _).
  exists c1. split; [done|].
  assert (entries c1 = without k (entries c)) as Hent.
  { unfold abs_Remove, abs in Habs. simpl in Habs.
    destruct (assoc k (entries c)) as [v|] eqn:Hk.
    - by injection Habs as -> _ _.
    - injection Habs as -> _ _. symmetry. by apply without_absent. }
  assert (cached c1 k = None) as Hgone.
  { apply cached_None; [done|]. rewrite Hit. apply gm_lookup_delete_eq. }
  split_and!; try done.
  - intros k' Hne. rewrite <- (assoc_entries c1 k' Hwf1), Hent.
    rewrite assoc_without_ne by done. by apply assoc_entries.
  - apply cached_None in Hgone; [|done]. unfold Remove. by rewrite Hgone.
Qed.

(** X10. A hit protects the key from the next eviction: with a capacity
    that is neither negative nor 1, after [Get k] has found [k], adding any
    other key leaves [k] cached with its value. *)
Theorem Get_protects_from_next_eviction c k v k' v' :
  wf c → (0 ≤ maxEntries c)%Z → maxEntries c ≠ 1%Z →
  cached c k = Some v → k' ≠ k →
  ∃ c1 c2, Get k c = Some ((v, true), c1)
    ∧ Add k' v' c1 = Some (tt, c2)
    ∧ cached c2 k = Some v.
Proof.
  intros Hwf Hcap Hcap1 Hc Hne.
  pose proof (cached_self c k v Hc) as Hs.
  destruct (Get_refines c k Hwf)
    as (c1 & Hget & Hwf1 & Habs & _ & _ & [= Hmax _ _] & _).
  unfold abs, abs_Get in Hget, Habs.
  rewrite (assoc_entries c k Hwf), Hc in Hget, Habs. simpl in Hget, Habs.
  injection Habs as Hent _ _.
  exists c1.
  assert (∃ c2, Add k' v' c1 = Some (tt, c2) ∧ wf c2
                ∧ assoc k (entries c2) = Some v)
    as (c2 & Hadd & Hwf2 & Hfound).
  { destruct (cached c1 k') as [v0|] eqn:Hc'.
    - destruct (Add_refines c1 k' v' Hwf1) as (c2 & Hadd & Hwf2 & Habs & _).
      exists c2. split; [done|]. split; [done|].
      unfold abs, abs_Add in Habs.
      rewrite (assoc_entries c1 k' Hwf1), Hc' in Habs.
      injection Habs as -> _ _.
      rewrite assoc_cons_ne by done. rewrite assoc_without_ne by done.
      rewrite Hent. by apply assoc_cons_eq.
    - destruct (decide (maxEntries c1 = 0%Z
                        ∨ (Z.of_nat (length (evictList c1))
                           < maxEntries c1)%Z))
        as [Hroom|Hfull].
      + destruct (Add_new_abs_room c1 k' v' Hwf1 Hc' Hroom)
          as (c2 & Hadd & Hwf2 & [= Hent2 _ _] & _).
        exists c2. split; [done|]. split; [done|].
        rewrite Hent2, assoc_cons_ne by done.
        rewrite Hent. by apply assoc_cons_eq.
      + rewrite <- (length_entries c1 Hwf1) in Hfull.
        destruct (last (entries c1)) as [kv|] eqn:Hlast;
          [|apply last_None in Hlast; by rewrite Hent in Hlast].
        destruct (Add_new_abs_full c1 k' v' kv Hwf1 Hc')
          as (c2 & Hadd & Hwf2 & [= Hent2 _ _] & _); [lia|lia|done|].
        exists c2. split; [done|]. split; [done|].
        rewrite Hent2, assoc_cons_ne by done. rewrite Hent.
        (* the entry at the back is not the one just read *)
        destruct (without k (entries c)) as [|kv0 rest] eqn:Hrest.
        * rewrite Hent in Hfull. simpl in Hfull. lia.
        * change (removelast (mkEvictable k v :: kv0 :: rest))
            with (mkEvictable k v :: removelast (kv0 :: rest)).
          by apply assoc_cons_eq. }
  exists c2. split; [done|]. split; [done|].
  by rewrite <- (assoc_entries c2 k Hwf2).
Qed.

(** ** Counters *)

(** What one operation does to the three counters. *)
Lemma exec_metrics c o c' :
  wf c → admissible o c → exec o c = Some c' →
  hits (metrics c') + misses (metrics c')
  = hits (metrics c) + misses (metrics c) + count_gets [o]
  ∧ hits (metrics c) ≤ hits (metrics c')
  ∧ misses (metrics c) ≤ misses (metrics c')
  ∧ evictions (metrics c) ≤ evictions (metrics c').
Proof.
  intros Hwf Hadm Hexec. destruct o as [k v|k|k|k|kes|kes]; simpl in *.
  - destruct (Add_refines c k v Hwf) as (c1 & Hrun & _ & Habs & _).
    rewrite Hrun in Hexec. injection Hexec as ->.
    assert (metrics c' = (abs c').2) as -> by done. rewrite Habs.
    unfold abs.
    destruct (abs_Add_metrics (maxEntries c) (onEvicted c) k v
                (entries c) (world c) (metrics c)) as [->| ->]; simpl; lia.
  - destruct (Get_refines c k Hwf) as (c1 & Hrun & _ & Habs & _).
    rewrite Hrun in Hexec. injection Hexec as ->.
    assert (metrics c' = (abs c').2) as -> by done. rewrite Habs.
    unfold abs, abs_Get. destruct (assoc k (entries c)); simpl; lia.
  - rewrite Peek_cached in Hexec by done. injection Hexec as <-. lia.
  - destruct (Remove_refines c k Hwf) as (c1 & Hrun & _ & Habs & _).
    rewrite Hrun in Hexec. injection Hexec as ->.
    assert (metrics c' = (abs c').2) as -> by done. rewrite Habs.
    unfold abs, abs_Remove. simpl.
    destruct (assoc k (entries c)); simpl; lia.
  - destruct (Purge_spec c kes Hwf Hadm)
      as (c1 & Hrun & _ & _ & _ & _ & Hm & _).
    rewrite Hrun in Hexec. injection Hexec as ->. rewrite Hm. lia.
  - destruct (Close kes c) as [[err c1]|] eqn:Hrun; [|done].
    injection Hexec as ->. apply Close_inv in Hrun as (c2 & Hp & Hc).
    destruct (Purge_spec c kes Hwf Hadm)
      as (c3 & Hrun & _ & _ & _ & _ & Hm & _).
    rewrite Hp in Hrun. injection Hrun as <-.
    apply run_closer_frame in Hc as (_ & _ & _ & _ & -> & _).
    rewrite Hm. lia.
Qed.

Lemma count_gets_cons (o : op K V) os :
  count_gets (o :: os) = count_gets [o] + count_gets os.
Proof. by destruct o. Qed.

(** X11. No operation ever decreases a counter: along any run, the hit,
    miss and eviction counters only grow. *)
Theorem counters_never_decrease c os c' :
  wf c → run c os c' →
  hits (metrics c) ≤ hits (metrics c')
  ∧ misses (metrics c) ≤ misses (metrics c')
  ∧ evictions (metrics c) ≤ evictions (metrics c').
Proof.
  intros Hwf Hrun.
  induction Hrun as [|c o c1 os c2 [Hadm Hexec] _ IH]; [done|].
  destruct (exec_metrics c o c1 Hwf Hadm Hexec) as (_ & ? & ? & ?).
  destruct IH as (? & ? & ?); [by eapply exec_wf|]. lia.
Qed.

(** X12. Every [Get] is counted once, as a hit or as a miss, and nothing
    else is: along any run, hits plus misses grow by the number of [Get]
    calls. *)
Theorem hits_and_misses_count_gets c os c' :
  wf c → run c os c' →
  hits (metrics c') + misses (metrics c')
  = hits (metrics c) + misses (metrics c) + count_gets os.
Proof.
  intros Hwf Hrun.
  induction Hrun as [|c o c1 os c2 [Hadm Hexec] _ IH]; [simpl; lia|].
  destruct (exec_metrics c o c1 Hwf Hadm Hexec) as (Hstep & _).
  rewrite (count_gets_cons o os), IH by by eapply exec_wf. lia.
Qed.

(** X13. When each key of the index is equal to itself, [Purge] is
    idempotent: after a purge, for whatever order [range] may choose, a
    second purge returns the very same state; it calls the callback for
    nothing and moves no counter. *)
Theorem Purge_twice c kes :
  wf c → self_equal_keys c → range_order c kes →
  ∃ c1, Purge kes c = Some (tt, c1)
    ∧ ∀ kes1, range_order c1 kes1 → Purge kes1 c1 = Some (tt, c1).
Proof.
  intros Hwf Hs Hkes.
  destruct (Purge_spec c kes Hwf Hkes) as (c1 & Hrun & Hi & Hl & _).
  exists c1. split; [done|]. intros kes1 Hkes1.
  rewrite (proj1 (self_equal_keys_loose c Hwf) Hs) in Hi.
  unfold range_order in Hkes1. rewrite Hi in Hkes1.
  change (pairs (mkMap ∅ [])) with (pairs (∅ : gomap K nat)) in Hkes1.
  rewrite pairs_empty in Hkes1.
  apply Permutation_nil_r in Hkes1 as ->.
  unfold Purge. simpl. destruct c1. simpl in *. by subst.
Qed.

End lookups.

Section capacities.
Context {K : Type} `{Countable K} `{SelfEqual K} {V : Type} `{Inhabited V}
        {W R : Type}.
Implicit Types (c : LRUWithEvict K V W R) (k : K) (v : V).

(** ** A negative capacity *)

(** With a negative capacity, [Add] on an empty recency list evicts the
    entry it has just pushed. *)
Lemma Add_negative_empty c k v :
  wf c → (maxEntries c < 0)%Z → evictList c = [] →
  ∃ c', Add k v c = Some (tt, c') ∧ wf c'
    ∧ evictList c' = []
    ∧ world c' = invoke (onEvicted c) k v (world c)
    ∧ metrics c' = inc_evictions (metrics c)
    ∧ items c' = delete k (<[k := next_elem c]> (items c)).
Proof.
  intros Hwf Hneg Hempty.
  destruct (Add_total c k v Hwf) as [[[] c'] Hadd].
  exists c'. split; [done|]. split; [by eapply Add_wf|].
  assert (items c !! k = None) as Hk.
  { destruct (items c !! k) as [e|] eqn:He; [|done].
    apply (wf_items c Hwf) in He. rewrite Hempty in He.
    by apply elem_of_nil in He. }
  rewrite (Add_miss c k v Hk) in Hadd.
  assert (over_capacity (push_entry k v c) = true) as Hover.
  { unfold over_capacity, GoList.Len, push_entry, GoList.PushFront. simpl.
    rewrite Hempty. rewrite bool_decide_eq_true_2 by lia.
    by rewrite bool_decide_eq_true_2 by (cbn [length]; lia). }
  rewrite Hover in Hadd. unfold removeOldest in Hadd.
  assert (GoList.Back (evictList (push_entry k v c)) = Some (next_elem c))
    as Hb.
  { unfold push_entry, GoList.PushFront. simpl. by rewrite Hempty. }
  rewrite Hb in Hadd.
  destruct (removeElement_spec (push_entry k v c) (next_elem c)
              (mkEvictable k v))
    as (c'' & Hrun & _ & Hw & Hm & Hit & Hl & _).
  { unfold push_entry. simpl. apply lookup_insert_eq. }
  rewrite Hadd in Hrun. injection Hrun as <-.
  split_and!; try done.
  rewrite Hl. unfold push_entry, GoList.PushFront. simpl. rewrite Hempty.
  unfold GoList.Remove. by rewrite filter_cons_False by (intros Hc; by apply Hc).
Qed.

Lemma exec_negative_stays_empty c o c' :
  wf c → (maxEntries c < 0)%Z → evictList c = [] →
  admissible o c → exec o c = Some c' → evictList c' = [].
Proof.
  intros Hwf Hneg Hempty Hadm Hexec.
  pose proof (exec_wf c o c' Hwf Hadm Hexec) as Hwf'.
  pose proof (proj2 (entries_empty c Hwf) Hempty) as Hent.
  destruct o as [k v|k|k|k|kes|kes]; simpl in *.
  - destruct (Add_negative_empty c k v Hwf Hneg Hempty)
      as (c1 & Hadd & _ & Hl & _).
    rewrite Hadd in Hexec. by injection Hexec as <-.
  - destruct (Get_refines c k Hwf) as (c1 & Hrun & _ & Habs & _).
    rewrite Hrun in Hexec. injection Hexec as ->.
    apply (entries_empty c' Hwf').
    unfold abs, abs_Get in Habs. rewrite Hent in Habs. simpl in Habs.
    by injection Habs as -> _ _.
  - rewrite Peek_cached in Hexec by done. by injection Hexec as <-.
  - destruct (Remove_refines c k Hwf) as (c1 & Hrun & _ & Habs & _).
    rewrite Hrun in Hexec. injection Hexec as ->.
    apply (entries_empty c' Hwf').
    unfold abs, abs_Remove in Habs. rewrite Hent in Habs. simpl in Habs.
    by injection Habs as -> _ _.
  - destruct (Purge_spec c kes Hwf Hadm) as (c1 & Hrun & _ & Hl & _).
    rewrite Hrun in Hexec. by injection Hexec as <-.
  - destruct (Close kes c) as [[err c1]|] eqn:Hrun; [|done].
    injection Hexec as ->. apply Close_inv in Hrun as (c2 & Hp & Hc).
    destruct (Purge_spec c kes Hwf Hadm) as (c3 & Hrun & _ & Hl & _).
    rewrite Hp in Hrun. injection Hrun as <-.
    apply run_closer_frame in Hc as (_ & -> & _). done.
Qed.

Lemma run_negative_stays_empty c os c' :
  wf c → (maxEntries c < 0)%Z → evictList c = [] → run c os c' →
  evictList c' = [].
Proof.
  intros Hwf Hneg Hempty Hrun. revert Hwf Hneg Hempty.
  induction Hrun as [|c o c1 os c2 [Hadm Hexec] _ IH]; intros Hwf Hneg Hempty;
    [done|].
  pose proof (exec_config c o c1 Hwf Hadm Hexec) as [= Hmax1 _ _].
  apply IH.
  - by eapply exec_wf.
  - by rewrite Hmax1.
  - by eapply exec_negative_stays_empty.
Qed.

(** X14. A cache built with a negative capacity never holds a live entry:
    after any operations the recency list is empty and no key is found, and
    [Add] evicts the entry it has just inserted, calling the callback at
    once with the key and value added and counting an eviction. The index
    is empty too as long as the keys added are equal to themselves; [Add]
    of a key that is not leaves its entry in the index. *)
Theorem negative_capacity_caches_nothing newMetrics unregister (reg : R)
    (C : Z) (cb : option (K → V → W → W)) (w : W) (os : list (op K V)) c k v :
  (C < 0)%Z →
  run (NewWithEvict newMetrics unregister reg C cb w) os c →
  evictList c = []
  ∧ (∀ k', cached c k' = None)
  ∧ (Forall (λ k, self_equal k = true) (added_keys os) → live c = 0)
  ∧ ∃ c', Add k v c = Some (tt, c')
      ∧ evictList c' = []
      ∧ cached c' k = None
      ∧ world c' = invoke cb k v (world c)
      ∧ evictions (metrics c') = S (evictions (metrics c))
      ∧ live c' = (if self_equal k then live c else S (live c)).
Proof.
  intros HC Hrun.
  set (c0 := NewWithEvict newMetrics unregister reg C cb w) in *.
  assert (wf c0) as Hwf0 by apply wf_NewWithEvict.
  pose proof (run_wf c0 os c Hwf0 Hrun) as Hwf.
  pose proof (run_config c0 os c Hwf0 Hrun) as [= Hmax Hcb _].
  assert (evictList c = []) as Hempty
    by by apply (run_negative_stays_empty c0 os c).
  assert (∀ c1 k1, wf c1 → evictList c1 = [] → cached c1 k1 = None)
    as Hnone.
  { intros c1 k1 Hwf1 Hl1. apply cached_None; [done|].
    destruct (items c1 !! k1) as [e|] eqn:He; [|done].
    apply (wf_items c1 Hwf1) in He. rewrite Hl1 in He.
    by apply elem_of_nil in He. }
  split; [done|]. split; [intros k'; by apply Hnone|]. split.
  { intros Hks. rewrite wf_live, Hempty; [done..|].
    eapply run_self_equal_keys; [exact Hwf0|done..|].
    apply new_self_equal_keys. }
  destruct (Add_negative_empty c k v Hwf)
    as (c' & Hadd & Hwf' & Hl & Hw & Hm & Hit); [by rewrite Hmax|done|].
  exists c'. split; [done|]. split; [done|].
  split; [by apply Hnone|].
  split; [by rewrite Hw, Hcb|]. split; [by rewrite Hm|].
  unfold live. rewrite Hit.
  assert (items c !! k = None) as Hk by (apply cached_None; auto).
  pose proof (gm_size_insert_None k (next_elem c) (items c) Hk) as Hins.
  destruct (self_equal k) eqn:Hs.
  - pose proof (gm_size_delete_Some k (next_elem c)
                  (<[k := next_elem c]> (items c))) as Hdel.
    rewrite gm_lookup_insert_eq in Hdel by done.
    specialize (Hdel eq_refl). lia.
  - by rewrite gm_delete_not_self.
Qed.

(** ** No limit *)

Lemma Add_unlimited c k v :
  wf c → maxEntries c = 0%Z →
  ∃ c', Add k v c = Some (tt, c') ∧ wf c'
    ∧ world c' = world c ∧ metrics c' = metrics c
    ∧ cached c' k = (if self_equal k then Some v else None)
    ∧ ∀ k', k' ≠ k → cached c' k' = cached c k'.
Proof.
  intros Hwf Hmax.
  assert (∃ c' l, Add k v c = Some (tt, c') ∧ wf c'
            ∧ abs c' = (mkEvictable k v :: l, world c, metrics c)
            ∧ ∀ k', k' ≠ k → assoc k' l = assoc k' (entries c))
    as (c' & l & Hadd & Hwf' & [= Hent Hw Hm] & Hl).
  { destruct (cached c k) as [v0|] eqn:Hc.
    - destruct (Add_refines c k v Hwf) as (c' & Hadd & Hwf' & Habs & _).
      exists c', (without k (entries c)). split; [done|]. split; [done|].
      unfold abs at 2, abs_Add in Habs.
      rewrite (assoc_entries c k Hwf), Hc in Habs.
      split; [done|]. intros k' Hne. by apply assoc_without_ne.
    - destruct (Add_new_abs_room c k v Hwf Hc)
        as (c' & Hadd & Hwf' & Habs & _); [by left|].
      by exists c', (entries c). }
  exists c'. split; [done|]. split; [done|].
  split; [done|]. split; [done|].
  split.
  - by eapply cached_front.
  - intros k' Hne. rewrite <- (assoc_entries c' k' Hwf'), Hent.
    rewrite assoc_cons_ne by (simpl; congruence).
    rewrite Hl by done. by apply assoc_entries.
Qed.

Lemma exec_unlimited c o c' :
  wf c → maxEntries c = 0%Z → keeps_entries o → exec o c = Some c' →
  world c' = world c
  ∧ evictions (metrics c') = evictions (metrics c)
  ∧ ∀ k, is_Some (cached c' k)
         ↔ is_Some (cached c k)
           ∨ (k ∈ added_keys [o] ∧ self_equal k = true).
Proof.
  intros Hwf Hmax Hkeep Hexec.
  destruct o as [k0 v|k0|k0|k0|kes|kes]; try done; simpl in *.
  - destruct (Add_unlimited c k0 v Hwf Hmax)
      as (c1 & Hadd & _ & Hw & Hm & Hk0 & Hother).
    rewrite Hadd in Hexec. injection Hexec as ->.
    split; [done|]. split; [by rewrite Hm|].
    intros k. destruct (decide (k = k0)) as [->|Hne].
    + rewrite Hk0. destruct (self_equal k0) eqn:Hs.
      * split; [intros _; right; split; [left|done]|by eexists].
      * split; [by intros [? ?]|]. intros [Hc|[_ ?]]; [|done].
        destruct Hc as [v0 Hc]. apply cached_self in Hc. congruence.
    + rewrite Hother by done. rewrite list_elem_of_singleton. tauto.
  - destruct (Get_refines c k0 Hwf) as (c1 & Hget & _ & Habs & Hi & He & _).
    rewrite Hget in Hexec. injection Hexec as ->.
    unfold abs, abs_Get in Habs.
    split; [by destruct (assoc k0 (entries c)); injection Habs as _ -> _|].
    split.
    { by destruct (assoc k0 (entries c)); injection Habs as _ _ ->. }
    intros k. rewrite (cached_frame c c' k Hi He).
    split; [by left|]. intros [?|[Hin _]]; [done|].
    by apply elem_of_nil in Hin.
  - rewrite Peek_cached in Hexec by done. injection Hexec as <-.
    split; [done|]. split; [done|]. intros k.
    split; [by left|]. intros [?|[Hin _]]; [done|].
    by apply elem_of_nil in Hin.
Qed.

Lemma run_unlimited c os c' :
  wf c → maxEntries c = 0%Z → Forall keeps_entries os → run c os c' →
  world c' = world c
  ∧ evictions (metrics c') = evictions (metrics c)
  ∧ ∀ k, is_Some (cached c' k)
         ↔ is_Some (cached c k)
           ∨ (k ∈ added_keys os ∧ self_equal k = true).
Proof.
  intros Hwf Hmax Hkeep Hrun. revert Hwf Hmax Hkeep.
  induction Hrun as [|c o c1 os c2 [Hadm Hexec] _ IH]; intros Hwf Hmax Hkeep.
  - split; [done|]. split; [done|]. intros k.
    split; [by left|]. intros [?|[Hin _]]; [done|].
    by apply elem_of_nil in Hin.
  - apply Forall_cons in Hkeep as [Ho Hos].
    destruct (exec_unlimited c o c1 Hwf Hmax Ho Hexec) as (Hw & Hm & Hk).
    pose proof (exec_config c o c1 Hwf Hadm Hexec) as [= Hmax1 _ _].
    destruct IH as (Hw' & Hm' & Hk');
      [by eapply exec_wf|by rewrite Hmax1|done|].
    split; [by rewrite Hw'|]. split; [by rewrite Hm'|].
    intros k. rewrite Hk', Hk, (added_keys_cons o os), elem_of_app. tauto.
Qed.

(** When each key of the index is equal to itself, distinct elements of the
    list hold distinct keys. *)
Lemma NoDup_keys c : wf c → self_equal_keys c → NoDup (key <$> entries c).
Proof.
  intros Hwf Hs. unfold entries.
  assert (∀ l, NoDup l → (∀ x, x ∈ l → x ∈ evictList c) →
               NoDup (key <$> omap (λ e, elements c !! e) l)) as Hgen.
  { induction l as [|x l IH]; intros Hnd Hsub; [constructor|].
    apply NoDup_cons in Hnd as [Hx Hnd]. csimpl.
    assert (x ∈ evictList c) as Hxin by (apply Hsub; left).
    destruct (wf_list c Hwf x Hxin) as (kv & Hkv & Hk).
    rewrite Hkv. csimpl. apply NoDup_cons. split.
    - rewrite list_elem_of_fmap.
      intros (kv' & Hkey & (y & Hy & Hkvy)%list_elem_of_omap).
      assert (y ∈ evictList c) as Hyin by (apply Hsub; by right).
      pose proof (wf_list_lookup c x kv Hwf Hxin Hkv (Hs _ _ Hk)) as Hlx.
      destruct (wf_list c Hwf y Hyin) as (kv'' & Hkv'' & Hk'').
      rewrite Hkvy in Hkv''. injection Hkv'' as <-.
      pose proof (wf_list_lookup c y kv' Hwf Hyin Hkvy (Hs _ _ Hk'')) as Hly.
      rewrite <- Hkey, Hlx in Hly. injection Hly as ->. done.
    - apply IH; [done|]. intros y Hy. apply Hsub. by right. }
  apply Hgen; [apply Hwf|done].
Qed.

(** X15. A cache built with capacity 0 has no limit and never forgets: after
    any run of [Add], [Get] and [Peek], exactly the keys that were added and
    are equal to themselves are cached, the callback has not been called and
    the eviction counter is still 0. When all the keys added are equal to
    themselves, the number of entries is the number of distinct keys
    added. *)
Theorem unlimited_cache_never_forgets newMetrics unregister (reg : R)
    (cb : option (K → V → W → W)) (w : W) (os : list (op K V)) c :
  Forall keeps_entries os →
  run (NewWithEvict newMetrics unregister reg 0 cb w) os c →
  (∀ k, is_Some (cached c k) ↔ k ∈ added_keys os ∧ self_equal k = true)
  ∧ (Forall (λ k, self_equal k = true) (added_keys os) →
       live c = length (remove_dups (added_keys os)))
  ∧ world c = w
  ∧ evictions (metrics c) = 0.
Proof.
  intros Hkeep Hrun.
  set (c0 := NewWithEvict newMetrics unregister reg 0 cb w) in *.
  assert (wf c0) as Hwf0 by apply wf_NewWithEvict.
  pose proof (run_wf c0 os c Hwf0 Hrun) as Hwf.
  destruct (run_unlimited c0 os c Hwf0 eq_refl Hkeep Hrun) as (Hw & Hm & Hk).
  assert (∀ k, is_Some (cached c k)
               ↔ k ∈ added_keys os ∧ self_equal k = true) as Hk'.
  { intros k. rewrite Hk. split; [|by right].
    intros [[v Hv]|?]; [|done].
    unfold cached, value_of in Hv. simpl in Hv.
    by rewrite gm_lookup_empty in Hv. }
  split_and!; try done.
  intros Hks.
  assert (self_equal_keys c) as Hs.
  { eapply run_self_equal_keys; [exact Hwf0|done..|].
    apply new_self_equal_keys. }
  rewrite wf_live, <- length_entries by done. rewrite <- (length_fmap key).
  apply Permutation_length, NoDup_Permutation.
  - by apply NoDup_keys.
  - apply NoDup_remove_dups.
  - intros k. rewrite elem_of_remove_dups. split.
    + intros (kv & -> & (e & He & Hkv)%elem_of_entries)%list_elem_of_fmap.
      apply (Hk' (key kv)).
      destruct (wf_list c Hwf e He) as (kv' & Hkv' & Hin).
      rewrite Hkv in Hkv'. injection Hkv' as <-.
      exists (value kv). apply cached_Some; [done|]. exists e.
      split; [|by destruct kv].
      apply wf_list_lookup; [done..|]. by apply (Hs _ e).
    + intros Hin.
      assert (is_Some (cached c k)) as [v Hv].
      { apply Hk'. split; [done|].
        by apply (proj1 (Forall_forall _ _) Hks). }
      apply cached_Some in Hv as (e & He & Hv); [|done].
      apply list_elem_of_fmap. exists (mkEvictable k v). split; [done|].
      apply elem_of_entries. exists e. split; [|done].
      by apply (wf_items c Hwf k).
Qed.

End capacities.

Lemma Get_returns_cached_witness :
  (∃ c', Get 2 two_entries = Some ((20, true), c')
      ∧ hits (metrics c') = 1 ∧ misses (metrics c') = 0)
  ∧ (∃ c', Get 7 two_entries = Some ((0, false), c')
      ∧ hits (metrics c') = 0 ∧ misses (metrics c') = 1).
Proof.
  split.
  - destruct (Get_returns_cached two_entries 2 two_entries_wf)
      as (c' & Hget & _ & _ & _ & _ & Hhit & _).
    exists c'. split; [exact Hget|]. apply Hhit. by eexists.
  - destruct (Get_returns_cached two_entries 7 two_entries_wf)
      as (c' & Hget & _ & _ & _ & _ & _ & Hmiss).
    exists c'. split; [exact Hget|].
    destruct Hmiss as (Hh & Hm & _); [reflexivity|]. by split.
Defined.

Lemma Add_then_lookup_witness :
  (∃ c', Add 3 30 two_entries = Some (tt, c')
     ∧ cached c' 3 = Some 30
     ∧ Peek 3 c' = Some ((30, true), c'))
  ∧ (∃ c', Add FNaN 10 (new_fcache 2) = Some (tt, c')
       ∧ cached c' FNaN = None
       ∧ Peek FNaN c' = Some ((0, false), c')).
Proof.
  split.
  - destruct (Add_then_lookup two_entries 3 30 two_entries_wf)
      as (c' & Hadd & Hfound & _); [simpl; lia|].
    destruct (Hfound eq_refl) as (Hc & Hpeek & _). by exists c'.
  - destruct (Add_then_lookup (new_fcache 2) FNaN 10)
      as (c' & Hadd & _ & Hmissed); [apply wf_NewWithEvict|simpl; lia|].
    destruct (Hmissed eq_refl) as (Hc & Hpeek & _). by exists c'.
Defined.

Lemma nan_and_two_run :
  run (new_fcache 2) [OpAdd FNaN 10; OpAdd (FNum 2) 20] nan_and_two.
Proof.
  eapply run_cons; [split; [exact I|reflexivity]|].
  eapply run_cons; [split; [exact I|]|].
  - vm_compute. reflexivity.
  - apply run_nil.
Defined.

Lemma nan_and_two_wf : wf nan_and_two.
Proof.
  exact (run_wf _ _ _ (wf_NewWithEvict _ _ _ _ _ _) nan_and_two_run).
Defined.

Lemma Add_full_evicts_least_recent_witness :
  (∃ c', Add 3 30 two_entries = Some (tt, c')
     ∧ entries c' = [mkEvictable 3 30; mkEvictable 2 20]
     ∧ cached c' 1 = None
     ∧ world c' = [(1, 10)]
     ∧ live c' = 2)
  ∧ (∃ c', Add (FNum 3) 30 nan_and_two = Some (tt, c')
       ∧ entries c' = [mkEvictable (FNum 3) 30; mkEvictable (FNum 2) 20]
       ∧ world c' = [(FNaN, 10)]
       ∧ live c' = 3).
Proof.
  split.
  - destruct (Add_full_evicts_least_recent two_entries 3 30 (mkEvictable 1 10)
                two_entries_wf)
      as (c' & Hadd & Hent & Hgone & _ & _ & Hw & _ & Hlive);
      [reflexivity|done|by vm_compute|reflexivity|].
    exists c'. by split_and!.
  - destruct (Add_full_evicts_least_recent nan_and_two (FNum 3) 30
                (mkEvictable FNaN 10) nan_and_two_wf)
      as (c' & Hadd & Hent & _ & _ & _ & Hw & _ & Hlive);
      [reflexivity|done|by vm_compute|reflexivity|].
    exists c'. by split_and!.
Defined.


Lemma Remove_only_that_key_witness :
  ∃ c1, Remove 1 two_entries = Some (tt, c1)
    ∧ cached c1 1 = None ∧ cached c1 2 = Some 20
    ∧ Remove 1 c1 = Some (tt, c1).
Proof.
  destruct (Remove_only_that_key two_entries 1 two_entries_wf)
    as (c1 & Hrm & Hgone & Hothers & _ & Hagain).
  exists c1. split; [exact Hrm|]. split; [exact Hgone|].
  split; [|exact Hagain]. rewrite (Hothers 2) by lia. reflexivity.
Defined.

Lemma Get_protects_from_next_eviction_witness :
  ∃ c1 c2, Get 1 two_entries = Some ((10, true), c1)
    ∧ Add 3 30 c1 = Some (tt, c2)
    ∧ cached c2 1 = Some 10.
Proof.
  apply (Get_protects_from_next_eviction two_entries 1 10 3 30).
  - exact two_entries_wf.
  - by vm_compute.
  - by vm_compute.
  - reflexivity.
  - lia.
Defined.

Lemma counters_never_decrease_witness :
  hits (metrics (new_cache 2)) ≤ hits (metrics two_entries)
  ∧ misses (metrics (new_cache 2)) ≤ misses (metrics two_entries)
  ∧ evictions (metrics (new_cache 2)) ≤ evictions (metrics two_entries).
Proof.
  apply (counters_never_decrease (new_cache 2) [OpAdd 1 10; OpAdd 2 20]).
  - apply wf_NewWithEvict.
  - exact two_entries_run.
Defined.

Lemma two_entries_get_run :
  ∃ c, run two_entries [OpGet 1; OpGet 7; OpPeek 2; OpGet 2] c.
Proof.
  eexists.
  eapply run_cons; [split; [exact I|vm_compute; reflexivity]|].
  eapply run_cons; [split; [exact I|vm_compute; reflexivity]|].
  eapply run_cons; [split; [exact I|vm_compute; reflexivity]|].
  eapply run_cons; [split; [exact I|vm_compute; reflexivity]|].
  apply run_nil.
Defined.

Lemma hits_and_misses_count_gets_witness :
  ∃ c, run two_entries [OpGet 1; OpGet 7; OpPeek 2; OpGet 2] c
    ∧ hits (metrics c) + misses (metrics c) = 3.
Proof.
  destruct two_entries_get_run as [c Hrun]. exists c. split; [exact Hrun|].
  exact (hits_and_misses_count_gets two_entries _ c two_entries_wf Hrun).
Defined.

Lemma Purge_twice_witness :
  ∃ c1, Purge [(1, 0); (2, 1)] two_entries = Some (tt, c1)
    ∧ Purge [] c1 = Some (tt, c1).
Proof.
  destruct (Purge_twice two_entries [(1, 0); (2, 1)] two_entries_wf
              (nat_self_equal_keys _) two_entries_range_order)
    as (c1 & Hp & Hagain).
  exists c1. split; [exact Hp|]. apply Hagain.
  vm_compute in Hp. injection Hp as <-.
  unfold range_order. vm_compute. reflexivity.
Defined.

Lemma negative_capacity_caches_nothing_witness :
  (∃ c', Add 1 10 (new_cache (-1)) = Some (tt, c')
     ∧ live c' = 0 ∧ cached c' 1 = None ∧ world c' = [(1, 10)])
  ∧ (∃ c', Add FNaN 10 (new_fcache (-1)) = Some (tt, c')
       ∧ evictList c' = [] ∧ live c' = 1 ∧ world c' = [(FNaN, 10)]).
Proof.
  split.
  - destruct (negative_capacity_caches_nothing register_metrics
                unregister_metrics 0 (-1) (Some record_call) [] []
                (new_cache (-1)) 1 10)
      as (_ & _ & _ & c' & Hadd & _ & Hgone & Hw & _ & Hlive).
    + lia.
    + apply run_nil.
    + exists c'. by split_and!.
  - destruct (negative_capacity_caches_nothing register_metrics
                unregister_metrics 0 (-1) (Some record_call) [] []
                (new_fcache (-1)) FNaN 10)
      as (_ & _ & _ & c' & Hadd & Hl & _ & Hw & _ & Hlive).
    + lia.
    + apply run_nil.
    + exists c'. by split_and!.
Defined.

Lemma unlimited_run :
  ∃ c, run (new_cache 0) [OpAdd 1 10; OpAdd 2 20; OpGet 1; OpAdd 1 11;
                          OpAdd 3 30] c.
Proof.
  eexists.
  eapply run_cons; [split; [exact I|vm_compute; reflexivity]|].
  eapply run_cons; [split; [exact I|vm_compute; reflexivity]|].
  eapply run_cons; [split; [exact I|vm_compute; reflexivity]|].
  eapply run_cons; [split; [exact I|vm_compute; reflexivity]|].
  eapply run_cons; [split; [exact I|vm_compute; reflexivity]|].
  apply run_nil.
Defined.

Lemma unlimited_cache_never_forgets_witness :
  ∃ c, run (new_cache 0) [OpAdd 1 10; OpAdd 2 20; OpGet 1; OpAdd 1 11;
                          OpAdd 3 30] c
    ∧ live c = 3 ∧ world c = [] ∧ evictions (metrics c) = 0.
Proof.
  destruct unlimited_run as [c Hrun]. exists c. split; [exact Hrun|].
  destruct (unlimited_cache_never_forgets register_metrics unregister_metrics
              0 (Some record_call) []
              [OpAdd 1 10; OpAdd 2 20; OpGet 1; OpAdd 1 11; OpAdd 3 30] c)
    as (_ & Hlive & Hw & Hm).
  - repeat constructor.
  - exact Hrun.
  - split; [|by split]. rewrite Hlive; [reflexivity|].
    by repeat constructor.
Defined.

End LRUMore.
